(** * HMAR multi-scale vector quantizer: a shallow embedding of
      [models/quant.py] ([VectorQuantizer2] and the [Phi*] policies).

    Host-level Python floats (tick positions, margins, blend ratios) are
    modelled by exact rationals [Q]; tensor elements live in an abstract
    scalar type supplied by a [Backend], together with the numerical
    kernels of the tensor library (interpolation, convolution, norms). *)

From Stdlib Require Import List Arith ZArith QArith Qcanon Qabs Qround Lia Bool.
Import ListNotations.
Close Scope Qc_scope.
Close Scope Q_scope.

Set Implicit Arguments.

(* ================================================================= *)
(** ** Python exceptions and fallible computations *)

Module Py.

Inductive exn : Type :=
| AssertionError
| RuntimeError
| ZeroDivisionError
| IndexError
| ValueError.

Inductive result (A : Type) : Type :=
| Ok (a : A)
| Raise (e : exn).

Arguments Ok {A} a.
Arguments Raise {A} e.

Definition bind {A B} (m : result A) (k : A -> result B) : result B :=
  match m with
  | Ok a => k a
  | Raise e => Raise e
  end.

Definition is_ok {A} (m : result A) : bool :=
  match m with Ok _ => true | Raise _ => false end.


(** [a / b] on Python numbers. *)
Definition truediv (a b : Q) : result Q :=
  if Qeq_bool b 0%Q then Raise ZeroDivisionError else Ok (a / b)%Q.

(** [l[i]] on a Python list or sequence, for a non-negative [i]. *)
Definition getitem {A} (l : list A) (i : nat) : result A :=
  match nth_error l i with
  | Some a => Ok a
  | None => Raise IndexError
  end.

(** [l[-1]]. *)
Definition last_item {A} (l : list A) : result A :=
  match l with
  | [] => Raise IndexError
  | a :: l' => Ok (last l' a)
  end.

End Py.
Export Py.

Declare Scope py_scope.
Delimit Scope py_scope with py.
Notation "x <- m ;; k" := (bind m (fun x => k))
  (at level 61, m at next level, right associativity) : py_scope.
Notation "' pat <- m ;; k" := (bind m (fun x => match x with pat => k end))
  (at level 61, pat pattern, m at next level, right associativity) : py_scope.
Open Scope py_scope.

Definition Qnat (n : nat) : Q := inject_Z (Z.of_nat n).

(* ================================================================= *)
(** ** The two numpy functions used by the refinement policies *)

Module Np.

(** [np.linspace(start, stop, num)] with the default [endpoint=True]:
    [arange(num) * step + start], the last sample overwritten by [stop]. *)
Definition linspace (start stop : Q) (num : nat) : list Q :=
  match num with
  | 0 => []
  | 1 => [start]
  | S (S _) =>
      let step := ((stop - start) / Qnat (num - 1))%Q in
      map (fun i => (Qnat i * step + start)%Q) (seq 0 (num - 1)) ++ [stop]
  end.

(** First index of a smallest element, scanning left to right and
    replacing the running minimum only on a strictly smaller value. *)
Fixpoint argmin_from {A} (ltb : A -> A -> bool)
    (best_i : nat) (best : A) (i : nat) (xs : list A) : nat :=
  match xs with
  | [] => best_i
  | x :: xs' =>
      if ltb x best then argmin_from ltb i x (S i) xs'
      else argmin_from ltb best_i best (S i) xs'
  end.

Definition first_argmin {A} (ltb : A -> A -> bool) (xs : list A) : result nat :=
  match xs with
  | [] => Raise ValueError
  | x :: xs' => Ok (argmin_from ltb 0 x 1 xs')
  end.

Definition Qltb (a b : Q) : bool := negb (Qle_bool b a).

(** [np.argmin(a)] on a one-dimensional array. *)
Definition argmin (xs : list Q) : result nat := first_argmin Qltb xs.

End Np.

(* ================================================================= *)
(** ** Scale-to-unit assignment policies

    The policies are containers of refinement units; they are generic in
    the unit type [U]. *)

Section Policies.

Variable U : Type.

(** [PhiShared]: a single unit, whatever the key. *)
Record PhiShared : Type := { qresi : U }.

Definition PhiShared_getitem (p : PhiShared) (_ : Q) : result U :=
  Ok (qresi p).

(** The tick array built by [PhiPartiallyShared.__init__] and
    [PhiNonShared.__init__] for [K] units. *)
Definition make_ticks (K : nat) : result (list Q) :=
  if Nat.eqb K 4 then
    a <- truediv 1%Q 3%Q ;;
    lo <- truediv a (Qnat K) ;;
    b <- truediv 1%Q 3%Q ;;
    hi <- truediv b (Qnat K) ;;
    Ok (Np.linspace lo (1 - hi)%Q K)
  else
    a <- truediv 1%Q 2%Q ;;
    lo <- truediv a (Qnat K) ;;
    b <- truediv 1%Q 2%Q ;;
    hi <- truediv b (Qnat K) ;;
    Ok (Np.linspace lo (1 - hi)%Q K).

(** [np.argmin(np.abs(self.ticks - at_from_0_to_1)).item()]. *)
Definition nearest_tick (ticks : list Q) (at_from_0_to_1 : Q) : result nat :=
  Np.argmin (map (fun tk => Qabs (tk - at_from_0_to_1)%Q) ticks).

Record PhiPartiallyShared : Type :=
  { qresi_ls : list U; ticks : list Q }.

Definition PhiPartiallyShared_init (qresi_ls : list U) : result PhiPartiallyShared :=
  tk <- make_ticks (length qresi_ls) ;;
  Ok {| qresi_ls := qresi_ls; ticks := tk |}.

Definition PhiPartiallyShared_getitem (p : PhiPartiallyShared) (at_from_0_to_1 : Q)
  : result U :=
  i <- nearest_tick (ticks p) at_from_0_to_1 ;;
  getitem (qresi_ls p) i.

(** [PhiNonShared] is a [ModuleList] with the same tick array. *)
Record PhiNonShared : Type :=
  { ns_modules : list U; ns_ticks : list Q }.

Definition PhiNonShared_init (qresi : list U) : result PhiNonShared :=
  tk <- make_ticks (length qresi) ;;
  Ok {| ns_modules := qresi; ns_ticks := tk |}.

Definition PhiNonShared_getitem (p : PhiNonShared) (at_from_0_to_1 : Q)
  : result U :=
  i <- nearest_tick (ns_ticks p) at_from_0_to_1 ;;
  getitem (ns_modules p) i.

(** The attribute [self.quant_resi] holds one of the three. *)
Inductive quant_resi_policy : Type :=
| NonShared (p : PhiNonShared)
| Shared (p : PhiShared)
| PartiallyShared (p : PhiPartiallyShared).

Definition quant_resi_getitem (p : quant_resi_policy) (t : Q) : result U :=
  match p with
  | NonShared p => PhiNonShared_getitem p t
  | Shared p => PhiShared_getitem p t
  | PartiallyShared p => PhiPartiallyShared_getitem p t
  end.

End Policies.

(* ================================================================= *)
(** ** Tensors

    A tensor is a dtype tag, a shape and its elements in row-major
    order.  The element type and the numerical kernels of the tensor
    library are the fields of a [Backend]: the model fixes how the
    program composes them, not how they round. *)

Inductive dtype : Type := float16 | bfloat16 | float32 | float64.

Definition dtype_eqb (a b : dtype) : bool :=
  match a, b with
  | float16, float16 | bfloat16, bfloat16
  | float32, float32 | float64, float64 => true
  | _, _ => false
  end.

(** Type promotion of two floating dtypes. *)
Definition promote_types (a b : dtype) : dtype :=
  match a, b with
  | float64, _ | _, float64 => float64
  | float32, _ | _, float32 => float32
  | float16, float16 => float16
  | bfloat16, bfloat16 => bfloat16
  | _, _ => float32
  end.

Class Backend : Type := {
  scalar : Type;
  (** a host number stored as a tensor element *)
  lit : Q -> scalar;
  sadd : scalar -> scalar -> scalar;
  ssub : scalar -> scalar -> scalar;
  smul : scalar -> scalar -> scalar;
  sdiv : scalar -> scalar -> scalar;
  sltb : scalar -> scalar -> bool;
  sleb : scalar -> scalar -> bool;
  (** conversion of an element to another dtype ([Tensor.float()]) *)
  convert : dtype -> dtype -> scalar -> scalar;
  (** 2-norm of a vector, as [F.normalize] computes it *)
  vector_norm : list scalar -> scalar;
  (** [F.interpolate(mode="area")] on one [H x W] plane, to [h x w] *)
  area_plane : nat -> nat -> nat -> nat -> list scalar -> list scalar;
  (** [F.interpolate(mode="bicubic")] on one [H x W] plane, to [h x w] *)
  bicubic_plane : nat -> nat -> nat -> nat -> list scalar -> list scalar;
  (** weights and bias of a 3x3, stride 1, padding 1 convolution *)
  conv_weight : Type;
  (** that convolution on one [C x H x W] sample *)
  conv_sample : conv_weight -> nat -> nat -> nat -> list scalar -> list scalar
}.

Section Tensors.

Context {BE : Backend}.

Record tensor : Type := {
  dtype_of : dtype;
  shape : list nat;
  data : list scalar
}.

(** An integer ([int64]) tensor of code indices. *)
Record itensor : Type := {
  ishape : list nat;
  idata : list nat
}.

Definition prod_shape (s : list nat) : nat := fold_right Nat.mul 1 s.

Definition numel (t : tensor) : nat := prod_shape (shape t).

Fixpoint shape_eqb (s1 s2 : list nat) : bool :=
  match s1, s2 with
  | [], [] => true
  | a :: s1', b :: s2' => Nat.eqb a b && shape_eqb s1' s2'
  | _, _ => false
  end.

Definition zeros (dt : dtype) (s : list nat) : tensor :=
  {| dtype_of := dt; shape := s; data := repeat (lit 0%Q) (prod_shape s) |}.

Definition zeros_like (t : tensor) : tensor := zeros (dtype_of t) (shape t).

(** [t.detach()] and [t.clone()] keep dtype, shape and values; the model
    has no gradients and every tensor value is its own storage. *)
Definition detach (t : tensor) : tensor := t.
Definition clone (t : tensor) : tensor := t.

(** [t.float()]. *)
Definition to_float (t : tensor) : tensor :=
  {| dtype_of := float32; shape := shape t;
     data := map (convert (dtype_of t) float32) (data t) |}.

(** *** Broadcasting *)

Fixpoint chunks {A} (n k : nat) (xs : list A) : list (list A) :=
  match k with
  | 0 => []
  | S k' => firstn n xs :: chunks n k' (skipn n xs)
  end.

Definition pad_shape (n : nat) (s : list nat) : list nat :=
  repeat 1 (n - length s) ++ s.

Fixpoint broadcast_dims (s1 s2 : list nat) : option (list nat) :=
  match s1, s2 with
  | [], [] => Some []
  | a :: s1', b :: s2' =>
      match broadcast_dims s1' s2' with
      | None => None
      | Some s =>
          if Nat.eqb a b then Some (a :: s)
          else if Nat.eqb a 1 then Some (b :: s)
          else if Nat.eqb b 1 then Some (a :: s)
          else None
      end
  | _, _ => None
  end.

Definition broadcast_shapes (s1 s2 : list nat) : option (list nat) :=
  let n := Nat.max (length s1) (length s2) in
  broadcast_dims (pad_shape n s1) (pad_shape n s2).

Fixpoint expand {A} (from to : list nat) (xs : list A) : list A :=
  match from, to with
  | d :: from', d' :: to' =>
      let sub := map (expand from' to') (chunks (prod_shape from') d xs) in
      if Nat.eqb d d' then concat sub else concat (repeat (concat sub) d')
  | _, _ => xs
  end.

Definition expand_to (s : list nat) (t : tensor) : list scalar :=
  expand (pad_shape (length s) (shape t)) s (data t).

Fixpoint map2 {A B C} (f : A -> B -> C) (xs : list A) (ys : list B) : list C :=
  match xs, ys with
  | x :: xs', y :: ys' => f x y :: map2 f xs' ys'
  | _, _ => []
  end.

(** Out-of-place elementwise operation [a op b]. *)
Definition binop (f : scalar -> scalar -> scalar) (a b : tensor) : result tensor :=
  if shape_eqb (shape a) (shape b) then
    Ok {| dtype_of := promote_types (dtype_of a) (dtype_of b);
          shape := shape a;
          data := map2 f (data a) (data b) |}
  else
    match broadcast_shapes (shape a) (shape b) with
    | Some s =>
        Ok {| dtype_of := promote_types (dtype_of a) (dtype_of b);
              shape := s;
              data := map2 f (expand_to s a) (expand_to s b) |}
    | None => Raise RuntimeError
    end.

(** In-place elementwise operation [a.op_(b)]: the result lives in [a],
    so [b] must broadcast to the shape of [a]. *)
Definition binop_ (f : scalar -> scalar -> scalar) (a b : tensor) : result tensor :=
  if shape_eqb (shape a) (shape b) then
    Ok {| dtype_of := dtype_of a; shape := shape a;
          data := map2 f (data a) (data b) |}
  else
    match broadcast_shapes (shape a) (shape b) with
    | Some s =>
        if shape_eqb s (shape a) then
          Ok {| dtype_of := dtype_of a; shape := shape a;
                data := map2 f (data a) (expand_to s b) |}
        else Raise RuntimeError
    | None => Raise RuntimeError
    end.

Definition add := binop sadd.
Definition sub := binop ssub.
Definition add_ := binop_ sadd.
Definition sub_ := binop_ ssub.

(** [t.mul(c)] and [t.mul_(c)] for a host number [c]. *)
Definition mul_scalar (t : tensor) (c : Q) : tensor :=
  {| dtype_of := dtype_of t; shape := shape t;
     data := map (fun x => smul x (lit c)) (data t) |}.

(** *** Views and permutations *)

(** [t.view(s)] for an explicit shape [s]. *)
Definition view (t : tensor) (s : list nat) : result tensor :=
  if Nat.eqb (prod_shape s) (numel t) then
    Ok {| dtype_of := dtype_of t; shape := s; data := data t |}
  else Raise RuntimeError.

Definition iview (t : itensor) (s : list nat) : result itensor :=
  if Nat.eqb (prod_shape s) (prod_shape (ishape t)) then
    Ok {| ishape := s; idata := idata t |}
  else Raise RuntimeError.

(** [t.reshape(-1, C)]. *)
Definition reshape_rows (t : tensor) (C : nat) : result tensor :=
  if Nat.eqb C 0 then Raise RuntimeError
  else if Nat.eqb (numel t mod C) 0 then
    Ok {| dtype_of := dtype_of t; shape := [numel t / C; C]; data := data t |}
  else Raise RuntimeError.

(** Swap of the last two axes of a [B x M x N] array stored row-major. *)
Definition transpose12 {A} (d : A) (B M N : nat) (xs : list A) : list A :=
  flat_map (fun b =>
    flat_map (fun n =>
      map (fun m => nth ((b * M + m) * N + n) xs d) (seq 0 M))
      (seq 0 N))
    (seq 0 B).

(** [t.permute(0, 2, 3, 1)] on a [B x C x H x W] tensor. *)
Definition permute_0231 (t : tensor) : result tensor :=
  match shape t with
  | [B; C; H; W] =>
      Ok {| dtype_of := dtype_of t; shape := [B; H; W; C];
            data := transpose12 (lit 0%Q) B C (H * W) (data t) |}
  | _ => Raise RuntimeError
  end.

(** [t.permute(0, 3, 1, 2)] on a [B x H x W x C] tensor. *)
Definition permute_0312 (t : tensor) : result tensor :=
  match shape t with
  | [B; H; W; C] =>
      Ok {| dtype_of := dtype_of t; shape := [B; C; H; W];
            data := transpose12 (lit 0%Q) B (H * W) C (data t) |}
  | _ => Raise RuntimeError
  end.

(** [t.transpose(1, 2)] on a three-dimensional tensor. *)
Definition transpose_1_2 (t : tensor) : result tensor :=
  match shape t with
  | [B; M; N] =>
      Ok {| dtype_of := dtype_of t; shape := [B; N; M];
            data := transpose12 (lit 0%Q) B M N (data t) |}
  | _ => Raise IndexError
  end.

(** [t.view(B, C, -1)]. *)
Definition view_B_C_rest (t : tensor) (B C : nat) : result tensor :=
  if Nat.eqb (B * C) 0 then Raise RuntimeError
  else if Nat.eqb (numel t mod (B * C)) 0 then
    Ok {| dtype_of := dtype_of t; shape := [B; C; numel t / (B * C)];
          data := data t |}
  else Raise RuntimeError.

(** *** Interpolation *)

Inductive interp_mode : Type := area | bicubic.

Definition plane_kernel (m : interp_mode) :=
  match m with
  | area => area_plane
  | bicubic => bicubic_plane
  end.

(** [F.interpolate(t, size=(h, w), mode=m)] on a four-dimensional
    tensor: every plane of every sample is resampled on its own. *)
Definition interpolate (t : tensor) (h w : nat) (m : interp_mode) : result tensor :=
  match shape t with
  | [B; C; H; W] =>
      if (Nat.eqb H 0 || Nat.eqb W 0 || Nat.eqb h 0 || Nat.eqb w 0)%bool
      then Raise RuntimeError
      else
        Ok {| dtype_of := dtype_of t; shape := [B; C; h; w];
              data := flat_map (plane_kernel m H W h w)
                        (chunks (H * W) (B * C) (data t)) |}
  | _ => Raise ValueError
  end.

(** *** Cat and narrow along dimension 1 (three-dimensional tensors) *)

Definition batch_slice (t : tensor) (b : nat) : list scalar :=
  match shape t with
  | [_; L; C] => firstn (L * C) (skipn (b * (L * C)) (data t))
  | _ => []
  end.

Definition cat_compatible (B C : nat) (dt : dtype) (t : tensor) : bool :=
  match shape t with
  | [B'; _; C'] => Nat.eqb B' B && Nat.eqb C' C && dtype_eqb (dtype_of t) dt
  | _ => false
  end.

Definition dim1 (t : tensor) : nat := nth 1 (shape t) 0.

(** [torch.cat(ts, dim=1)]. *)
Definition cat_dim1 (ts : list tensor) : result tensor :=
  match ts with
  | [] => Raise RuntimeError
  | t0 :: _ =>
      match shape t0 with
      | [B; _; C] =>
          if forallb (cat_compatible B C (dtype_of t0)) ts then
            Ok {| dtype_of := dtype_of t0;
                  shape := [B; fold_right Nat.add 0 (map dim1 ts); C];
                  data := flat_map (fun b => flat_map (fun t => batch_slice t b) ts)
                            (seq 0 B) |}
          else Raise RuntimeError
      | _ => Raise RuntimeError
      end
  end.

(** [t[:, start:start+len, :]]: the rows [start .. start+len-1] of every
    sample of a three-dimensional tensor. *)
Definition narrow_dim1 (t : tensor) (start len : nat) : tensor :=
  match shape t with
  | [B; L; C] =>
      {| dtype_of := dtype_of t; shape := [B; len; C];
         data := flat_map (fun b =>
                   firstn (len * C) (skipn (start * C) (batch_slice t b)))
                   (seq 0 B) |}
  | _ => t
  end.

(** *** Reductions *)

Definition ssum (xs : list scalar) : scalar := fold_left sadd xs (lit 0%Q).

Definition dot (xs ys : list scalar) : scalar := ssum (map2 smul xs ys).

Definition sum_squares (xs : list scalar) : scalar := ssum (map (fun x => smul x x) xs).

(** [F.mse_loss(a, b)]: the mean of the squared differences, a tensor
    with no dimension. *)
Definition mse_loss (a b : tensor) : result tensor :=
  d <- sub a b ;;
  Ok {| dtype_of := dtype_of d; shape := [];
        data := [sdiv (sum_squares (data d)) (lit (Qnat (numel d)))] |}.

(** [F.normalize(v, dim)] on one vector: [v / max(norm(v), 1e-12)]. *)
Definition normalize_vec (v : list scalar) : list scalar :=
  let n := vector_norm v in
  let eps := lit (1 # 1000000000000) in
  let denom := if sltb n eps then eps else n in
  map (fun x => sdiv x denom) v.

(** [torch.argmin(m, dim=1)] and [torch.argmax(m, dim=1)] on one row:
    the first index of a smallest (largest) element. *)
Definition row_argmin (row : list scalar) : result nat :=
  match Np.first_argmin sltb row with
  | Ok i => Ok i
  | Raise _ => Raise IndexError
  end.

Definition row_argmax (row : list scalar) : result nat :=
  match Np.first_argmin (fun a b => sltb b a) row with
  | Ok i => Ok i
  | Raise _ => Raise IndexError
  end.

Fixpoint mapM {A B} (f : A -> result B) (xs : list A) : result (list B) :=
  match xs with
  | [] => Ok []
  | x :: xs' => y <- f x ;; ys <- mapM f xs' ;; Ok (y :: ys)
  end.

(** [idx.bincount(minlength=V).float()]. *)
Definition bincount (idx : list nat) (minlength : nat) : list scalar :=
  let n := Nat.max minlength (match idx with [] => 0 | _ => S (fold_right Nat.max 0 idx) end) in
  map (fun v => lit (Qnat (count_occ Nat.eq_dec idx v))) (seq 0 n).

End Tensors.

(* ================================================================= *)
(** ** Refinement units *)

Section Quantizer.

Context {BE : Backend}.

(** A unit of [self.quant_resi]: a [Phi] convolution with its blend
    ratio, or [nn.Identity()]. *)
Inductive refine_unit : Type :=
| Phi (w : conv_weight) (embed_dim : nat) (resi_ratio : Q)
| Identity.

(** [Phi.__init__(embed_dim, quant_resi)]. *)
Definition Phi_init (w : conv_weight) (embed_dim : nat) (quant_resi : Q) : refine_unit :=
  Phi w embed_dim (Qabs quant_resi).

(** [nn.Conv2d.forward] of a [Phi]: float32 weights, [embed_dim] input
    and output channels, spatial size preserved. *)
Definition conv2d (w : conv_weight) (embed_dim : nat) (h : tensor) : result tensor :=
  match shape h with
  | [B; C; H; W] =>
      if Nat.eqb C embed_dim && dtype_eqb (dtype_of h) float32 then
        Ok {| dtype_of := float32; shape := [B; C; H; W];
              data := flat_map (conv_sample w C H W)
                        (chunks (C * (H * W)) B (data h)) |}
      else Raise RuntimeError
  | _ => Raise RuntimeError
  end.

(** [Phi.forward]: [h.mul(1 - r) + conv(h).mul_(r)]; [nn.Identity]
    returns its argument. *)
Definition unit_forward (u : refine_unit) (h_BChw : tensor) : result tensor :=
  match u with
  | Identity => Ok h_BChw
  | Phi w embed_dim resi_ratio =>
      let lhs := mul_scalar h_BChw (1 - resi_ratio)%Q in
      c <- conv2d w embed_dim h_BChw ;;
      add lhs (mul_scalar c resi_ratio)
  end.

(* ================================================================= *)
(** ** The quantizer module and its collaborators *)

Record VectorQuantizer2 : Type := {
  vocab_size : nat;
  Cvae : nat;
  using_znorm : bool;
  v_patch_nums : list nat;
  quant_resi_ratio : Q;
  quant_resi : quant_resi_policy refine_unit;
  (** the buffer [ema_vocab_hit_SV], one row per scale *)
  ema_vocab_hit_SV : list (list scalar);
  record_hit : nat;
  beta : Q;
  (** [embedding.weight], one float32 row of [Cvae] elements per code *)
  embedding : list (list scalar);
  (** [nn.Module.training] *)
  training : bool
}.

Definition set_ema (q : VectorQuantizer2) (ema : list (list scalar)) : VectorQuantizer2 :=
  {| vocab_size := vocab_size q; Cvae := Cvae q; using_znorm := using_znorm q;
     v_patch_nums := v_patch_nums q; quant_resi_ratio := quant_resi_ratio q;
     quant_resi := quant_resi q; ema_vocab_hit_SV := ema;
     record_hit := record_hit q; beta := beta q; embedding := embedding q;
     training := training q |}.

Definition set_record_hit (q : VectorQuantizer2) (n : nat) : VectorQuantizer2 :=
  {| vocab_size := vocab_size q; Cvae := Cvae q; using_znorm := using_znorm q;
     v_patch_nums := v_patch_nums q; quant_resi_ratio := quant_resi_ratio q;
     quant_resi := quant_resi q; ema_vocab_hit_SV := ema_vocab_hit_SV q;
     record_hit := n; beta := beta q; embedding := embedding q;
     training := training q |}.

(** The distributed runtime: [dist.initialized()], the outcome of
    [tdist.get_world_size()] and the sum [tdist.all_reduce] leaves in
    its argument once the handle has been waited for. *)
Record DistEnv : Type := {
  initialized : bool;
  get_world_size : result nat;
  all_reduce : list scalar -> list scalar
}.

(** [Phi(Cvae, quant_resi) if abs(quant_resi) > 1e-6 else nn.Identity()]. *)
Definition make_unit (w : conv_weight) (Cvae : nat) (quant_resi : Q) : refine_unit :=
  if Np.Qltb (1 # 1000000) (Qabs quant_resi) then Phi_init w Cvae quant_resi
  else Identity.

(** [VectorQuantizer2.__init__]; [conv_init i] and [embedding_init] are
    the freshly initialised weights of the [i]-th unit and of the
    embedding table. *)
Definition VectorQuantizer2_init
    (vocab_size Cvae : nat) (using_znorm : bool) (beta : Q)
    (default_qresi_counts : nat) (v_patch_nums : list nat)
    (quant_resi : Q) (share_quant_resi : nat)
    (conv_init : nat -> conv_weight) (embedding_init : list (list scalar))
  : result VectorQuantizer2 :=
  let unit_at i := make_unit (conv_init i) Cvae quant_resi in
  policy <-
    (if Nat.eqb share_quant_resi 0 then
       let count := if Nat.eqb default_qresi_counts 0
                    then length v_patch_nums else default_qresi_counts in
       p <- PhiNonShared_init (map unit_at (seq 0 count)) ;;
       Ok (NonShared p)
     else if Nat.eqb share_quant_resi 1 then
       Ok (Shared {| qresi := unit_at 0 |})
     else
       p <- PhiPartiallyShared_init (map unit_at (seq 0 share_quant_resi)) ;;
       Ok (PartiallyShared p)) ;;
  Ok {| vocab_size := vocab_size; Cvae := Cvae; using_znorm := using_znorm;
        v_patch_nums := v_patch_nums; quant_resi_ratio := quant_resi;
        quant_resi := policy;
        ema_vocab_hit_SV :=
          repeat (repeat (lit 0%Q) vocab_size) (length v_patch_nums);
        record_hit := 0; beta := beta; embedding := embedding_init;
        training := true |}.

(** *** Computations that mutate the module and may raise *)

Definition M (A : Type) : Type := VectorQuantizer2 -> result A * VectorQuantizer2.

Definition ret {A} (a : A) : M A := fun q => (Ok a, q).

Definition bindM {A B} (m : M A) (k : A -> M B) : M B :=
  fun q => match m q with
           | (Ok a, q') => k a q'
           | (Raise e, q') => (Raise e, q')
           end.

Definition lift {A} (r : result A) : M A := fun q => (r, q).

Definition self : M VectorQuantizer2 := fun q => (Ok q, q).

Definition modify (f : VectorQuantizer2 -> VectorQuantizer2) : M unit :=
  fun q => (Ok tt, f q).

Notation "x <~ m ;; k" := (bindM m (fun x => k))
  (at level 61, m at next level, right associativity).

(** *** One-dimensional in-place operations on a histogram row *)

(** [row.op_(v)]: [v] has the length of [row], or a single element. *)
Definition vec_binop_ (f : scalar -> scalar -> scalar) (row v : list scalar)
  : result (list scalar) :=
  if Nat.eqb (length row) (length v) then Ok (map2 f row v)
  else match v with
       | [x] => Ok (map (fun r => f r x) row)
       | _ => Raise RuntimeError
       end.

(** [row.copy_(v)]. *)
Definition vec_copy_ (row v : list scalar) : result (list scalar) :=
  vec_binop_ (fun _ x => x) row v.

Definition vec_mul_scalar (v : list scalar) (c : Q) : list scalar :=
  map (fun x => smul x (lit c)) v.

Fixpoint set_nth {A} (i : nat) (a : A) (l : list A) : list A :=
  match l, i with
  | [], _ => []
  | _ :: l', 0 => a :: l'
  | x :: l', S i' => x :: set_nth i' a l'
  end.

(** [self.ema_vocab_hit_SV[si]]. *)
Definition ema_row (si : nat) : M (list scalar) :=
  fun q => (getitem (ema_vocab_hit_SV q) si, q).

Definition store_ema_row (si : nat) (row : list scalar) : M unit :=
  modify (fun q => set_ema q (set_nth si row (ema_vocab_hit_SV q))).

(** The three-regime update of row [si], lines 163-169 of [forward]. *)
Definition ema_update (si : nat) (hit_V : list scalar) : M unit :=
  q <~ self ;;
  _ <~ (if Nat.eqb (record_hit q) 0 then
          row <~ ema_row si ;;
          r <~ lift (vec_copy_ row hit_V) ;;
          store_ema_row si r
        else if Nat.ltb (record_hit q) 100 then
          row <~ ema_row si ;;
          _ <~ store_ema_row si (vec_mul_scalar row (9 # 10)) ;;
          r <~ lift (vec_binop_ sadd (vec_mul_scalar row (9 # 10))
                       (vec_mul_scalar hit_V (1 # 10))) ;;
          store_ema_row si r
        else
          row <~ ema_row si ;;
          _ <~ store_ema_row si (vec_mul_scalar row (99 # 100)) ;;
          r <~ lift (vec_binop_ sadd (vec_mul_scalar row (99 # 100))
                       (vec_mul_scalar hit_V (1 # 100))) ;;
          store_ema_row si r) ;;
  modify (fun q => set_record_hit q (S (record_hit q))).

(* ================================================================= *)
(** ** Nearest-code lookup and the per-scale contribution *)

(** [si / (SN - 1)] on Python integers. *)
Definition scale_position (si SN : nat) : result Q :=
  truediv (Qnat si) (inject_Z (Z.of_nat SN - 1)).

(** [self.quant_resi[si / (SN - 1)]]. *)
Definition lookup_unit (q : VectorQuantizer2) (si SN : nat) : result refine_unit :=
  t <- scale_position si SN ;;
  quant_resi_getitem (quant_resi q) t.

(** [self.quant_resi[si / (SN - 1)](h_BChw)] for an [h_BChw] that has
    already been computed. *)
Definition refine (q : VectorQuantizer2) (si SN : nat) (h_BChw : tensor) : result tensor :=
  u <- lookup_unit q si SN ;;
  unit_forward u h_BChw.

(** The residual at scale [si] as [N x C] rows: area-downsampled to
    [ph x pw] unless [si] is the last scale. *)
Definition residual_rows (f_rest : tensor) (C ph pw : nat) (is_last : bool)
  : result tensor :=
  if is_last then
    p <- permute_0231 f_rest ;;
    reshape_rows p C
  else
    t <- interpolate f_rest ph pw area ;;
    p <- permute_0231 t ;;
    reshape_rows p C.

Definition rows_of (t : tensor) : result (list (list scalar)) :=
  match shape t with
  | [N; C] => Ok (chunks C N (data t))
  | _ => Raise RuntimeError
  end.

(** [torch.argmax(normalize(rest_NC) @ normalize(weight.T, dim=0), dim=1)]
    or [torch.argmin] of [|x|^2 + |e|^2 - 2 x.e]. *)
Definition nearest_code (q : VectorQuantizer2) (rest_NC : tensor) : result (list nat) :=
  rows <- rows_of rest_NC ;;
  if Nat.eqb (nth 1 (shape rest_NC) 0) (Cvae q) then
    if using_znorm q then
      let wn := map normalize_vec (embedding q) in
      mapM (fun x =>
              let xn := normalize_vec x in
              row_argmax (map (fun e => dot xn e) wn)) rows
    else
      mapM (fun x =>
              row_argmin
                (map (fun e =>
                        sadd (sadd (sum_squares x) (sum_squares e))
                             (smul (lit (-2)%Q) (dot x e)))
                     (embedding q))) rows
  else Raise RuntimeError.

(** [self.embedding(idx)]: the rows of the table at the indices, one
    more trailing axis of size [Cvae]. *)
Definition embedding_lookup (q : VectorQuantizer2) (idx : itensor) : result tensor :=
  rows <- mapM (getitem (embedding q)) (idata idx) ;;
  Ok {| dtype_of := float32; shape := ishape idx ++ [Cvae q];
        data := concat rows |}.

(** [self.embedding(idx_Bhw).permute(0, 3, 1, 2)], upsampled (bicubic)
    to [H x W] unless the scale is the last one. *)
Definition code_map (q : VectorQuantizer2) (idx_Bhw : itensor) (H W : nat)
    (is_last : bool) : result tensor :=
  e <- embedding_lookup q idx_Bhw ;;
  p <- permute_0312 e ;;
  if is_last then Ok p else interpolate p H W bicubic.

(* ================================================================= *)
(** ** [forward] *)

(** [mean_vq_loss] starts as the Python float [0.0] and becomes a tensor
    at the first [+=]. *)
Inductive pyval : Type :=
| PyFloat (x : Q)
| PyTensor (t : tensor).

Definition pyval_iadd (a : pyval) (t : tensor) : result pyval :=
  match a with
  | PyFloat x =>
      Ok (PyTensor {| dtype_of := dtype_of t; shape := shape t;
                      data := map (fun y => sadd y (lit x)) (data t) |})
  | PyTensor a' => r <- add_ a' t ;; Ok (PyTensor r)
  end.

Definition pyval_imul (a : pyval) (c : Q) : pyval :=
  match a with
  | PyFloat x => PyFloat (x * c)%Q
  | PyTensor t => PyTensor (mul_scalar t c)
  end.

Record fwd_locals : Type := {
  f_hat : tensor;
  f_rest : tensor;
  mean_vq_loss : pyval;
  vocab_hit_V : list scalar
}.

Fixpoint enumerate_from {A} (i : nat) (l : list A) : list (nat * A) :=
  match l with
  | [] => []
  | a :: l' => (i, a) :: enumerate_from (S i) l'
  end.

Definition enumerate {A} (l : list A) : list (nat * A) := enumerate_from 0 l.

(** The body of the loop over scales (lines 109-173). *)
Definition forward_scale (env : DistEnv) (f_BChw f_no_grad : tensor)
    (B C H W SN : nat) (si pn : nat) (st : fwd_locals) : M fwd_locals :=
  q <~ self ;;
  let is_last := Nat.eqb si (SN - 1) in
  rest_NC <~ lift (residual_rows (f_rest st) C pn pn is_last) ;;
  idx_N <~ lift (nearest_code q rest_NC) ;;
  let hit_V := bincount idx_N (vocab_size q) in
  let hit_V := if training q && initialized env then all_reduce env hit_V
               else hit_V in
  idx_Bhw <~ lift (iview {| ishape := [length idx_N]; idata := idx_N |} [B; pn; pn]) ;;
  h_BChw <~ lift (code_map q idx_Bhw H W is_last) ;;
  h_BChw <~ lift (refine q si SN h_BChw) ;;
  f_hat' <~ lift (add (f_hat st) h_BChw) ;;
  f_rest' <~ lift (sub_ (f_rest st) h_BChw) ;;
  _ <~ (if training q && initialized env then ema_update si hit_V else ret tt) ;;
  vocab_hit_V' <~ lift (vec_binop_ sadd (vocab_hit_V st) hit_V) ;;
  l1 <~ lift (mse_loss f_hat' f_BChw) ;;
  l2 <~ lift (mse_loss f_hat' f_no_grad) ;;
  term <~ lift (add (mul_scalar l1 (beta q)) l2) ;;
  loss' <~ lift (pyval_iadd (mean_vq_loss st) term) ;;
  ret {| f_hat := f_hat'; f_rest := f_rest'; mean_vq_loss := loss';
         vocab_hit_V := vocab_hit_V' |}.

Fixpoint forward_loop (env : DistEnv) (f_BChw f_no_grad : tensor)
    (B C H W SN : nat) (scales : list (nat * nat)) (st : fwd_locals)
  : M fwd_locals :=
  match scales with
  | [] => ret st
  | (si, pn) :: scales' =>
      st' <~ forward_scale env f_BChw f_no_grad B C H W SN si pn st ;;
      forward_loop env f_BChw f_no_grad B C H W SN scales' st'
  end.

(** [(row >= margin).float().mean().item() * 100]. *)
Definition usage_percent (row : list scalar) (margin : Q) : Q :=
  (Qnat (length (filter (fun x => sleb (lit margin) x) row))
   / Qnat (length row) * 100)%Q.

Fixpoint mapMM {A B} (f : A -> M B) (xs : list A) : M (list B) :=
  match xs with
  | [] => ret []
  | x :: xs' => y <~ f x ;; ys <~ mapMM f xs' ;; ret (y :: ys)
  end.

(** The state of the locals when the loop starts (lines 96-106). *)
Definition forward_init (f_BChw : tensor) (V : nat) : fwd_locals :=
  let f_no_grad := detach f_BChw in
  let f_rest := clone f_no_grad in
  {| f_hat := zeros_like f_rest; f_rest := f_rest;
     mean_vq_loss := PyFloat 0%Q;
     vocab_hit_V := repeat (lit 0%Q) V |}.

(** The straight-through output [(f_hat.data - f_no_grad).add_(f_BChw)]. *)
Definition straight_through (f_hat f_no_grad f_BChw : tensor) : result tensor :=
  d <- sub f_hat f_no_grad ;;
  add_ d f_BChw.

(** The margin of lines 178-183. *)
Definition usage_margin (env : DistEnv) (f_BChw : tensor) (V : nat) : result Q :=
  ws <- get_world_size env ;;
  c <- getitem (shape f_BChw) 1 ;;
  per_channel <- truediv (Qnat (numel f_BChw)) (Qnat c) ;;
  m <- truediv (Qnat ws * per_channel)%Q (Qnat V) ;;
  Ok (m * (8 # 100))%Q.

Definition forward (env : DistEnv) (f_BChw : tensor) (ret_usages : bool)
  : M (tensor * option (list Q) * pyval) :=
  let f_BChw := if dtype_eqb (dtype_of f_BChw) float32 then f_BChw
                else to_float f_BChw in
  match shape f_BChw with
  | [B; C; H; W] =>
      let f_no_grad := detach f_BChw in
      q <~ self ;;
      let SN := length (v_patch_nums q) in
      st <~ forward_loop env f_BChw f_no_grad B C H W SN
              (enumerate (v_patch_nums q)) (forward_init f_BChw (vocab_size q)) ;;
      inv_SN <~ lift (truediv 1%Q (Qnat SN)) ;;
      let mean_vq_loss := pyval_imul (mean_vq_loss st) inv_SN in
      f_hat <~ lift (straight_through (f_hat st) f_no_grad f_BChw) ;;
      margin <~ lift (usage_margin env f_BChw (vocab_size q)) ;;
      usages <~ (if ret_usages then
                   us <~ mapMM (fun sp =>
                                  row <~ ema_row (fst sp) ;;
                                  ret (usage_percent row margin))
                           (enumerate (v_patch_nums q)) ;;
                   ret (Some us)
                 else ret None) ;;
      ret (f_hat, usages, mean_vq_loss)
  | _ => lift (Raise ValueError)
  end.

(* ================================================================= *)
(** ** [f_to_idxBl_or_fhat] *)

(** An entry of a caller-supplied pyramid: an [int] or a pair. *)
Inductive patch_num : Type :=
| PnInt (pn : nat)
| PnPair (ph pw : nat).

Definition patch_hw (p : patch_num) : nat * nat :=
  match p with
  | PnInt pn => (pn, pn)
  | PnPair ph pw => (ph, pw)
  end.

(** [v_patch_nums or self.v_patch_nums]: [None] and the empty sequence
    both fall back to the module's pyramid. *)
Definition pyramid_in_effect (q : VectorQuantizer2)
    (v_patch_nums_arg : option (list patch_num)) : list patch_num :=
  match v_patch_nums_arg with
  | Some (p :: l) => p :: l
  | _ => map PnInt (v_patch_nums q)
  end.

Inductive fhat_or_idx : Type :=
| Fhat (t : tensor)
| IdxBl (i : itensor).

Definition f_to_idx_scale (q : VectorQuantizer2) (to_fhat : bool)
    (B C H W SN : nat) (si ph pw : nat) (st : tensor * tensor)
  : result (tensor * tensor * fhat_or_idx) :=
  let '(f_hat, f_rest) := st in
  let is_last := Nat.eqb si (SN - 1) in
  z_NC <- residual_rows f_rest C ph pw is_last ;;
  idx_N <- nearest_code q z_NC ;;
  let idx_N_t := {| ishape := [length idx_N]; idata := idx_N |} in
  idx_Bhw <- iview idx_N_t [B; ph; pw] ;;
  h_BChw <- code_map q idx_Bhw H W is_last ;;
  h_BChw <- refine q si SN h_BChw ;;
  f_hat' <- add_ f_hat h_BChw ;;
  f_rest' <- sub_ f_rest h_BChw ;;
  out <- (if to_fhat then Ok (Fhat (clone f_hat'))
          else i <- iview idx_N_t [B; ph * pw] ;; Ok (IdxBl i)) ;;
  Ok (f_hat', f_rest', out).

Fixpoint f_to_idx_loop (q : VectorQuantizer2) (to_fhat : bool)
    (B C H W SN : nat) (scales : list (nat * (nat * nat)))
    (st : tensor * tensor) (acc : list fhat_or_idx)
  : result (list fhat_or_idx) :=
  match scales with
  | [] => Ok acc
  | (si, (ph, pw)) :: scales' =>
      ' (f_hat', f_rest', out) <- f_to_idx_scale q to_fhat B C H W SN si ph pw st ;;
      f_to_idx_loop q to_fhat B C H W SN scales' (f_hat', f_rest') (acc ++ [out])
  end.

Definition f_to_idxBl_or_fhat (q : VectorQuantizer2) (f_BChw : tensor)
    (to_fhat : bool) (v_patch_nums_arg : option (list patch_num))
  : result (list fhat_or_idx) :=
  match shape f_BChw with
  | [B; C; H; W] =>
      let f_no_grad := detach f_BChw in
      let f_rest := clone f_no_grad in
      let f_hat := zeros_like f_rest in
      let patch_hws := map patch_hw (pyramid_in_effect q v_patch_nums_arg) in
      last_hw <- last_item patch_hws ;;
      if Nat.eqb (fst last_hw) H && Nat.eqb (snd last_hw) W then
        f_to_idx_loop q to_fhat B C H W (length patch_hws)
          (enumerate patch_hws) (f_hat, f_rest) []
      else Raise AssertionError
  | _ => Raise ValueError
  end.

(* ================================================================= *)
(** ** [idxBl_to_ns_input] *)

Record ns_locals : Type := {
  ns_f_hat : tensor;
  pn_next : nat;
  next_scales : list tensor
}.

(** [self.embedding(idx_Bl).transpose_(1, 2).view(B, C, pn, pn)]
    upsampled (bicubic) to [H x W]. *)
Definition embed_upsample (q : VectorQuantizer2) (idx_Bl : itensor)
    (B C pn H W : nat) : result tensor :=
  e <- embedding_lookup q idx_Bl ;;
  e <- transpose_1_2 e ;;
  v <- view e [B; C; pn; pn] ;;
  interpolate v H W bicubic.

(** [F.interpolate(t, size=(pn, pn), mode="area").view(B, C, -1).transpose(1, 2)]. *)
Definition downsample_tokens (t : tensor) (B C pn : nat) : result tensor :=
  a <- interpolate t pn pn area ;;
  v <- view_B_C_rest a B C ;;
  transpose_1_2 v.

Definition ns_scale (q : VectorQuantizer2) (gt_ms_idx_Bl : list itensor)
    (B C H W SN : nat) (si : nat) (st : ns_locals) : result ns_locals :=
  gt <- getitem gt_ms_idx_Bl si ;;
  h_BChw <- embed_upsample q gt B C (pn_next st) H W ;;
  r <- refine q si SN h_BChw ;;
  f_hat' <- add_ (ns_f_hat st) r ;;
  pn' <- getitem (v_patch_nums q) (si + 1) ;;
  tok <- downsample_tokens f_hat' B C pn' ;;
  Ok {| ns_f_hat := f_hat'; pn_next := pn';
        next_scales := next_scales st ++ [tok] |}.

Fixpoint ns_loop (q : VectorQuantizer2) (gt_ms_idx_Bl : list itensor)
    (B C H W SN : nat) (sis : list nat) (st : ns_locals) : result ns_locals :=
  match sis with
  | [] => Ok st
  | si :: sis' =>
      st' <- ns_scale q gt_ms_idx_Bl B C H W SN si st ;;
      ns_loop q gt_ms_idx_Bl B C H W SN sis' st'
  end.

(** The list [next_scales] when the loop of [idxBl_to_ns_input] ends. *)
Definition ns_segments (q : VectorQuantizer2) (gt_ms_idx_Bl : list itensor)
  : result (list tensor) :=
  gt0 <- getitem gt_ms_idx_Bl 0 ;;
  B <- getitem (ishape gt0) 0 ;;
  let C := Cvae q in
  HW <- last_item (v_patch_nums q) ;;
  let SN := length (v_patch_nums q) in
  let f_hat := zeros float32 [B; C; HW; HW] in
  pn0 <- getitem (v_patch_nums q) 0 ;;
  st <- ns_loop q gt_ms_idx_Bl B C HW HW SN (seq 0 (SN - 1))
          {| ns_f_hat := f_hat; pn_next := pn0; next_scales := [] |} ;;
  Ok (next_scales st).

Definition idxBl_to_ns_input (q : VectorQuantizer2) (gt_ms_idx_Bl : list itensor)
  : result (option tensor) :=
  segs <- ns_segments q gt_ms_idx_Bl ;;
  match segs with
  | [] => Ok None
  | _ => t <- cat_dim1 segs ;; Ok (Some t)
  end.

(* ================================================================= *)
(** ** [idxBl_to_mask_input] *)

(** The random generator behind [torch.multinomial]: [draw g w k] is the
    outcome of sampling [k] categories without replacement under the
    weights [w], with the next generator state. *)
Record Generator : Type := {
  gen_state : Type;
  draw : gen_state -> list Q -> nat -> list nat * gen_state
}.

(** [torch.multinomial(weights, num_samples, replacement=False)]. *)
Definition multinomial (G : Generator) (g : gen_state G) (weights : list Q)
    (num_samples : Z) : result (list nat * gen_state G) :=
  if (num_samples <=? 0)%Z then Raise RuntimeError
  else if (Z.of_nat (length weights) <? num_samples)%Z then Raise RuntimeError
  else Ok (draw G g weights (Z.to_nat num_samples)).

Record mask_locals (G : Generator) : Type := {
  mk_gen : gen_state G;
  idx_to_mask : list (list nat);
  cur_l : nat;
  mk_next_scales : list tensor
}.

(** The contribution of scale [si] to the masked input: its own
    embedding, upsampled, refined and brought back to [pn x pn]. *)
Definition mask_contribution (q : VectorQuantizer2) (gt : itensor)
    (B C H W SN : nat) (si pn : nat) : result tensor :=
  h_BChw <- embed_upsample q gt B C pn H W ;;
  r <- refine q si SN h_BChw ;;
  downsample_tokens r B C pn.

Definition mask_scale (G : Generator) (q : VectorQuantizer2)
    (gt_ms_idx_Bl : list itensor) (p_mask : Q)
    (B C H W SN : nat) (si : nat) (st : mask_locals G) : result (mask_locals G) :=
  pn <- getitem (v_patch_nums q) si ;;
  let n_tokens_si := pn * pn in
  let n_tokens_mask := Qceiling (Qnat n_tokens_si * p_mask)%Q in
  ' (idx_to_mask_si, g') <-
      multinomial G (mk_gen st) (repeat 1%Q n_tokens_si) n_tokens_mask ;;
  gt <- getitem gt_ms_idx_Bl si ;;
  let idx_to_mask_si := map (fun i => i + cur_l st) idx_to_mask_si in
  tok <- mask_contribution q gt B C H W SN si pn ;;
  Ok {| mk_gen := g';
        idx_to_mask := idx_to_mask st ++ [idx_to_mask_si];
        cur_l := cur_l st + n_tokens_si;
        mk_next_scales := mk_next_scales st ++ [tok] |}.

Fixpoint mask_loop (G : Generator) (q : VectorQuantizer2)
    (gt_ms_idx_Bl : list itensor) (p_mask : Q)
    (B C H W SN : nat) (sis : list nat) (st : mask_locals G)
  : result (mask_locals G) :=
  match sis with
  | [] => Ok st
  | si :: sis' =>
      st' <- mask_scale q gt_ms_idx_Bl p_mask B C H W SN si st ;;
      mask_loop q gt_ms_idx_Bl p_mask B C H W SN sis' st'
  end.

(** The locals when the loop of [idxBl_to_mask_input] ends. *)
Definition mask_run (G : Generator) (g : gen_state G) (q : VectorQuantizer2)
    (gt_ms_idx_Bl : list itensor) (p_mask : Q) : result (mask_locals G) :=
  gt0 <- getitem gt_ms_idx_Bl 0 ;;
  B <- getitem (ishape gt0) 0 ;;
  let C := Cvae q in
  HW <- last_item (v_patch_nums q) ;;
  let SN := length (v_patch_nums q) in
  mask_loop q gt_ms_idx_Bl p_mask B C HW HW SN (seq 1 (SN - 1))
    {| mk_gen := g; idx_to_mask := []; cur_l := 0; mk_next_scales := [] |}.

Definition idxBl_to_mask_input (G : Generator) (g : gen_state G)
    (q : VectorQuantizer2) (gt_ms_idx_Bl : list itensor) (p_mask : Q)
  : result (tensor * list (list nat) * gen_state G) :=
  st <- mask_run G g q gt_ms_idx_Bl p_mask ;;
  t <- cat_dim1 (mk_next_scales st) ;;
  Ok (t, idx_to_mask st, mk_gen st).

(* ================================================================= *)
(** ** The two decode steps

    Both take the caller's [f_hat]; the second component of the outcome
    is that tensor when the call ends (the first decode step adds to it
    in place).  In [self.quant_resi[...](F.interpolate(...))] the unit
    is looked up before the argument is computed. *)

(** [si != SN - 1] on Python integers. *)
Definition not_last (si SN : nat) : bool :=
  negb (Z.eqb (Z.of_nat si) (Z.of_nat SN - 1)).

Definition get_next_autoregressive_input (q : VectorQuantizer2)
    (si SN : nat) (f_hat h_BChw : tensor) : result (tensor * tensor) * tensor :=
  match last_item (v_patch_nums q) with
  | Raise e => (Raise e, f_hat)
  | Ok HW =>
      if not_last si SN then
        match (u <- lookup_unit q si SN ;;
               up <- interpolate h_BChw HW HW bicubic ;;
               h <- unit_forward u up ;;
               add_ f_hat h) with
        | Raise e => (Raise e, f_hat)
        | Ok f_hat' =>
            (pn' <- getitem (v_patch_nums q) (si + 1) ;;
             nxt <- interpolate f_hat' pn' pn' area ;;
             Ok (f_hat', nxt),
             f_hat')
        end
      else
        match (h <- refine q si SN h_BChw ;; add_ f_hat h) with
        | Raise e => (Raise e, f_hat)
        | Ok f_hat' => (Ok (f_hat', f_hat'), f_hat')
        end
  end.

Definition get_next_mask_input (q : VectorQuantizer2)
    (si SN : nat) (f_hat h_BChw : tensor) : result (tensor * tensor) * tensor :=
  (HW <- last_item (v_patch_nums q) ;;
   u <- lookup_unit q si SN ;;
   up <- interpolate h_BChw HW HW bicubic ;;
   h <- unit_forward u up ;;
   pn <- getitem (v_patch_nums q) si ;;
   f_hat_int <- interpolate (clone f_hat) pn pn area ;;
   pn <- getitem (v_patch_nums q) si ;;
   h_int <- interpolate h pn pn area ;;
   Ok (f_hat_int, h_int),
   f_hat).

(* ================================================================= *)
(** ** [embed_to_fhat] *)

(** The value of [ls_f_hat_BChw]: the list of reconstructions, or the
    running reconstruction itself once [last_one] has bound it. *)
Inductive fhat_ls : Type :=
| FhatList (l : list tensor)
| FhatLast (t : tensor).

(** [ls_f_hat_BChw = f_hat] if [last_one], else
    [ls_f_hat_BChw.append(snapshot)].  A tensor has no [append]; the
    flag is the same at every scale, so that branch is never taken. *)
Definition record_fhat (last_one : bool) (ls : fhat_ls) (f_hat snapshot : tensor)
  : result fhat_ls :=
  if last_one then Ok (FhatLast f_hat)
  else match ls with
       | FhatList l => Ok (FhatList (l ++ [snapshot]))
       | FhatLast _ => Raise RuntimeError
       end.

(** [si < len(self.v_patch_nums) - 1] on Python integers. *)
Definition before_last (si SN : nat) : bool :=
  (Z.of_nat si <? Z.of_nat SN - 1)%Z.

(** One scale of the loop of lines 205-213: every map is brought to the
    largest scale before it is refined and accumulated. *)
Definition embed_scale_max (q : VectorQuantizer2) (ms_h_BChw : list tensor)
    (last_one : bool) (H W SN : nat) (si : nat) (st : tensor * fhat_ls)
  : result (tensor * fhat_ls) :=
  let '(f_hat, ls) := st in
  h_BChw <- getitem ms_h_BChw si ;;
  h_BChw <- (if before_last si SN then interpolate h_BChw H W bicubic
             else Ok h_BChw) ;;
  h_BChw <- refine q si SN h_BChw ;;
  f_hat' <- add_ f_hat h_BChw ;;
  ls' <- record_fhat last_one ls f_hat' (clone f_hat') ;;
  Ok (f_hat', ls').

(** One scale of the loop of lines 224-231: the running reconstruction
    is resampled to the scale of the map instead. *)
Definition embed_scale_own (q : VectorQuantizer2) (ms_h_BChw : list tensor)
    (last_one : bool) (SN : nat) (si pn : nat) (st : tensor * fhat_ls)
  : result (tensor * fhat_ls) :=
  let '(f_hat, ls) := st in
  f_hat <- interpolate f_hat pn pn bicubic ;;
  u <- lookup_unit q si SN ;;
  h <- getitem ms_h_BChw si ;;
  h_BChw <- unit_forward u h ;;
  f_hat' <- add_ f_hat h_BChw ;;
  ls' <- record_fhat last_one ls f_hat' f_hat' ;;
  Ok (f_hat', ls').

Fixpoint embed_loop (step : nat -> nat -> tensor * fhat_ls -> result (tensor * fhat_ls))
    (scales : list (nat * nat)) (st : tensor * fhat_ls)
  : result (tensor * fhat_ls) :=
  match scales with
  | [] => Ok st
  | (si, pn) :: scales' =>
      st' <- step si pn st ;;
      embed_loop step scales' st'
  end.

Definition embed_to_fhat (q : VectorQuantizer2) (ms_h_BChw : list tensor)
    (all_to_max_scale last_one : bool) : result fhat_ls :=
  h0 <- getitem ms_h_BChw 0 ;;
  B <- getitem (shape h0) 0 ;;
  HW <- last_item (v_patch_nums q) ;;
  let SN := length (v_patch_nums q) in
  if all_to_max_scale then
    let f_hat := zeros float32 [B; Cvae q; HW; HW] in
    st <- embed_loop
            (fun si _ => embed_scale_max q ms_h_BChw last_one HW HW SN si)
            (enumerate (v_patch_nums q)) (f_hat, FhatList []) ;;
    Ok (snd st)
  else
    pn0 <- getitem (v_patch_nums q) 0 ;;
    let f_hat := zeros float32 [B; Cvae q; pn0; pn0] in
    st <- embed_loop (embed_scale_own q ms_h_BChw last_one SN)
            (enumerate (v_patch_nums q)) (f_hat, FhatList []) ;;
    Ok (snd st).

(** [self.embedding(idx_Bl).transpose_(1, 2).view(B, C, pn, pn)]: the
    code map of one scale, from its [B x pn^2] indices. *)
Definition embed_tokens (q : VectorQuantizer2) (idx_Bl : itensor)
    (B C pn : nat) : result tensor :=
  e <- embedding_lookup q idx_Bl ;;
  e <- transpose_1_2 e ;;
  view e [B; C; pn; pn].

End Quantizer.

(* ================================================================= *)
(** ** An exact backend

    Elements are rationals in lowest terms ([Qc]) with exact arithmetic,
    and the kernels are written out on their fractions: adaptive average
    pooling, cubic convolution resampling (A = -3/4, half-pixel centres,
    clamped borders) and a 3x3 convolution with zero padding.  It is
    the backend on which the model is run on concrete inputs. *)

Module Exact.

Definition Qleb (a b : Q) : bool := Qle_bool a b.

(** Square root to nine decimal places, rounded down. *)
Definition Qsqrt (x : Q) : Q :=
  (Z.sqrt (Qfloor (x * inject_Z (10 ^ 18))) # 1000000000)%Q.

Definition Qsum (xs : list Q) : Q :=
  fold_left (fun a x => Qred (a + x)%Q) xs 0%Q.

Definition norm (v : list Q) : Q := Qsqrt (Qsum (map (fun x => x * x)%Q v)).

Definition pixel (W : nat) (xs : list Q) (y x : nat) : Q := nth (y * W + x) xs 0%Q.

(** *** Area interpolation: adaptive average pooling *)

Definition win_start (o out inp : nat) : nat := (o * inp) / out.
Definition win_end (o out inp : nat) : nat := ((o + 1) * inp + out - 1) / out.

Definition adaptive_avg_pool (H W h w : nat) (xs : list Q) : list Q :=
  flat_map (fun oy =>
    map (fun ox =>
      let y0 := win_start oy h H in
      let y1 := win_end oy h H in
      let x0 := win_start ox w W in
      let x1 := win_end ox w W in
      let vals := flat_map (fun y => map (fun x => pixel W xs y x) (seq x0 (x1 - x0)))
                    (seq y0 (y1 - y0)) in
      (Qsum vals / Qnat ((y1 - y0) * (x1 - x0)))%Q)
      (seq 0 w))
    (seq 0 h).

(** *** Bicubic interpolation *)

Definition cubic1 (x : Q) : Q :=
  let A := (-3 # 4)%Q in (((A + 2) * x - (A + 3)) * x * x + 1)%Q.

Definition cubic2 (x : Q) : Q :=
  let A := (-3 # 4)%Q in (((A * x - 5 * A) * x + 8 * A) * x - 4 * A)%Q.

(** Source index and the four weights for output index [o]. *)
Definition cubic_taps (o out inp : nat) : Z * list Q :=
  let src := ((Qnat inp / Qnat out) * (Qnat o + (1 # 2)) - (1 # 2))%Q in
  let i := Qfloor src in
  let t := (src - inject_Z i)%Q in
  (i, [cubic2 (t + 1); cubic1 t; cubic1 (1 - t); cubic2 (2 - t)]%Q).

Definition clamp (n : nat) (i : Z) : nat :=
  Z.to_nat (Z.max 0 (Z.min (Z.of_nat n - 1) i)).

Definition upsample_bicubic (H W h w : nat) (xs : list Q) : list Q :=
  if Nat.eqb H h && Nat.eqb W w then firstn (H * W) xs
  else
    flat_map (fun oy =>
      map (fun ox =>
        let '(iy, wy) := cubic_taps oy h H in
        let '(ix, wx) := cubic_taps ox w W in
        Qsum (flat_map (fun a =>
                map (fun b =>
                  (nth a wy 0 * nth b wx 0
                   * pixel W xs (clamp H (iy - 1 + Z.of_nat a))
                                (clamp W (ix - 1 + Z.of_nat b)))%Q)
                  (seq 0 4))
                (seq 0 4)))
        (seq 0 w))
      (seq 0 h).

(** *** 3x3 convolution, stride 1, padding 1 *)

Record conv3x3 : Type := {
  (** [weight[co][ci][ky][kx]], row-major *)
  weight : list Q;
  bias : list Q
}.

Definition padded (C H W : nat) (xs : list Q) (c : nat) (y x : Z) : Q :=
  if ((0 <=? y) && (y <? Z.of_nat H) && (0 <=? x) && (x <? Z.of_nat W))%Z
  then nth ((c * H + Z.to_nat y) * W + Z.to_nat x) xs 0%Q
  else 0%Q.

Definition conv_forward (k : conv3x3) (C H W : nat) (xs : list Q) : list Q :=
  flat_map (fun co =>
    flat_map (fun y =>
      map (fun x =>
        (nth co (bias k) 0
         + Qsum (flat_map (fun ci =>
                   flat_map (fun ky =>
                     map (fun kx =>
                       (nth (((co * C + ci) * 3 + ky) * 3 + kx) (weight k) 0
                        * padded C H W xs ci (Z.of_nat y + Z.of_nat ky - 1)
                                             (Z.of_nat x + Z.of_nat kx - 1))%Q)
                       (seq 0 3))
                     (seq 0 3))
                   (seq 0 C)))%Q)
        (seq 0 W))
      (seq 0 H))
    (seq 0 C).

Definition fractions (xs : list Qc) : list Q := map this xs.

Definition on_fractions (f : list Q -> list Q) (xs : list Qc) : list Qc :=
  map Q2Qc (f (fractions xs)).

#[global] Instance backend : Backend := {|
  scalar := Qc;
  lit := Q2Qc;
  sadd := Qcplus;
  ssub := Qcminus;
  smul := Qcmult;
  sdiv := Qcdiv;
  sltb := fun a b => Np.Qltb (this a) (this b);
  sleb := fun a b => Qleb (this a) (this b);
  convert := fun _ _ x => x;
  vector_norm := fun v => Q2Qc (norm (fractions v));
  area_plane := fun H W h w => on_fractions (adaptive_avg_pool H W h w);
  bicubic_plane := fun H W h w => on_fractions (upsample_bicubic H W h w);
  conv_weight := conv3x3;
  conv_sample := fun k C H W => on_fractions (conv_forward k C H W)
|}.

(** A sampler that draws the first [k] categories: one of the outcomes
    of sampling without replacement. *)
Definition first_k : Generator :=
  {| gen_state := unit; draw := fun g _ k => (seq 0 k, g) |}.

(** A sampler that draws the last [k] categories, in decreasing order. *)
Definition last_k : Generator :=
  {| gen_state := unit;
     draw := fun g w k => (map (fun i => length w - 1 - i) (seq 0 k), g) |}.

(** *** A small quantizer: two codes, one channel, pyramid (1, 2) *)

Definition blur : conv3x3 :=
  {| weight := [0; 0; 0; 0; 1; 0; 0; 0; 0]%Q; bias := [1 # 2]%Q |}.

Definition codes : list (list Qc) := [[Q2Qc 0]; [Q2Qc 1]].

Definition make (pyramid : list nat) (quant_resi : Q) (share : nat)
  : result VectorQuantizer2 :=
  VectorQuantizer2_init 2 1 false (1 # 4) 0 pyramid quant_resi share
    (fun _ => blur) codes.

(** The module [make [1; 2] (1 # 2) 4] builds, written out. *)
Definition quantizer : VectorQuantizer2 :=
  {| vocab_size := 2; Cvae := 1; using_znorm := false;
     v_patch_nums := [1; 2]; quant_resi_ratio := 1 # 2;
     quant_resi :=
       PartiallyShared
         {| qresi_ls := repeat (Phi blur 1 (1 # 2)) 4;
            ticks := Np.linspace (1 / 3 / 4) (1 - 1 / 3 / 4) 4 |};
     ema_vocab_hit_SV := [[Q2Qc 0; Q2Qc 0]; [Q2Qc 0; Q2Qc 0]];
     record_hit := 0; beta := 1 # 4; embedding := codes;
     training := true |}.

(** The same module with identity refinement ([quant_resi = 0]). *)
Definition plain_quantizer : VectorQuantizer2 :=
  {| vocab_size := 2; Cvae := 1; using_znorm := false;
     v_patch_nums := [1; 2]; quant_resi_ratio := 0;
     quant_resi :=
       PartiallyShared
         {| qresi_ls := repeat Identity 4;
            ticks := Np.linspace (1 / 3 / 4) (1 - 1 / 3 / 4) 4 |};
     ema_vocab_hit_SV := [[Q2Qc 0; Q2Qc 0]; [Q2Qc 0; Q2Qc 0]];
     record_hit := 0; beta := 1 # 4; embedding := codes;
     training := true |}.

(** A quantizer with three scales, pyramid (1, 2, 3). *)
Definition quantizer3 : VectorQuantizer2 :=
  {| vocab_size := 2; Cvae := 1; using_znorm := false;
     v_patch_nums := [1; 2; 3]; quant_resi_ratio := 1 # 2;
     quant_resi :=
       PartiallyShared
         {| qresi_ls := repeat (Phi blur 1 (1 # 2)) 4;
            ticks := Np.linspace (1 / 3 / 4) (1 - 1 / 3 / 4) 4 |};
     ema_vocab_hit_SV :=
       [[Q2Qc 0; Q2Qc 0]; [Q2Qc 0; Q2Qc 0]; [Q2Qc 0; Q2Qc 0]];
     record_hit := 0; beta := 1 # 4; embedding := codes;
     training := true |}.

(** Ground-truth indices of one sample at the three scales, and two
    variants: one with other codes at the last scale, one with other
    codes at the last two scales. *)
Definition idx (l : nat) (codes : list nat) : itensor :=
  {| ishape := [1; l]; idata := codes |}.

Definition gt_a : list itensor :=
  [idx 1 [1]; idx 4 [0; 1; 1; 0]; idx 9 [0; 0; 0; 0; 1; 0; 0; 0; 0]].

Definition gt_b : list itensor :=
  [idx 1 [1]; idx 4 [0; 1; 1; 0]; idx 9 [1; 1; 1; 1; 0; 1; 1; 1; 1]].

Definition gt_c : list itensor :=
  [idx 1 [1]; idx 4 [1; 1; 0; 0]; idx 9 [1; 1; 1; 1; 0; 1; 1; 1; 1]].

Definition counts (xs : list Q) : list Qc := map Q2Qc xs.

Definition tensor4 (dt : dtype) (B C H W : nat) (xs : list Q) : tensor :=
  {| dtype_of := dt; shape := [B; C; H; W]; data := map Q2Qc xs |}.

(** The elements of a tensor as fractions in lowest terms. *)
Definition values (t : tensor) : list Q := fractions (data t).

(** A half-precision 2x2 feature map, and a batch of two float32 ones. *)
Definition sample : tensor := tensor4 float16 1 1 2 2 [1; 0; 0; 3 # 2]%Q.

Definition pair : tensor := tensor4 float32 2 1 2 2 [1; 1; 0; 0; 0; 0; 0; 0]%Q.


(** A decode step at the first of two scales: an empty running
    reconstruction and a predicted 1x1 map of value 1. *)
Definition empty_f_hat : tensor := tensor4 float32 1 1 2 2 [0; 0; 0; 0]%Q.

Definition predicted : tensor := tensor4 float32 1 1 1 1 [1]%Q.

(** One process, reduction over a single rank. *)
Definition single_rank : DistEnv :=
  {| initialized := true; get_world_size := Ok 1; all_reduce := fun v => v |}.

(** No process group: [dist.initialized()] is false.  The world size
    query is given an answer so that [forward] can run to its end. *)
Definition not_distributed : DistEnv :=
  {| initialized := false; get_world_size := Ok 1; all_reduce := fun v => v |}.

(** One training call of [forward] on [sample] under [single_rank]: the
    module it leaves behind. *)
Definition training_pass (q : VectorQuantizer2) : VectorQuantizer2 :=
  snd (forward single_rank sample false q).

End Exact.

(* ================================================================= *)
(** ** Predicates used in the statements *)

Unset Implicit Arguments.

(** [i] is the index of the first minimum of [l]: no element is
    smaller, and every earlier one is strictly larger. *)
Definition first_min (l : list Q) (i : nat) : Prop :=
  i < length l /\
  forall j, j < length l ->
    (nth i l 0 <= nth j l 0)%Q /\ (j < i -> (nth i l 0 < nth j l 0)%Q).

(** The tick array of [K] units as the specification writes it. *)
Definition ticks_closed_form (K : nat) : list Q :=
  if Nat.eqb K 4
  then Np.linspace (1 / (3 * Qnat K)) (1 - 1 / (3 * Qnat K)) K
  else Np.linspace (1 / (2 * Qnat K)) (1 - 1 / (2 * Qnat K)) K.

Section EmaHistory.

Context {BE : Backend}.

(** The module after a sequence of histogram updates, each one a scale
    index with the hit counts of that scale, in the order in which the
    training passes perform them. *)
Fixpoint run_updates (us : list (nat * list scalar)) (q : VectorQuantizer2)
  : VectorQuantizer2 :=
  match us with
  | [] => q
  | (si, hit_V) :: us' => run_updates us' (snd (ema_update si hit_V q))
  end.

(** The buffer has [scales] rows of [codes] counts. *)
Definition ema_shape (q : VectorQuantizer2) (scales codes : nat) : Prop :=
  length (ema_vocab_hit_SV q) = scales /\
  Forall (fun row => length row = codes) (ema_vocab_hit_SV q).

(** An update addresses one of the [scales] rows with [codes] counts. *)
Definition update_fits (scales codes : nat) (u : nat * list scalar) : Prop :=
  fst u < scales /\ length (snd u) = codes.

(** [old * a + new * b], element by element. *)
Definition blend (old new : list scalar) (a b : Q) : list scalar :=
  map2 sadd (vec_mul_scalar old a) (vec_mul_scalar new b).

End EmaHistory.

Section Validity.

Context {BE : Backend}.

Definition units_of (p : quant_resi_policy refine_unit) : list refine_unit :=
  match p with
  | NonShared p => ns_modules p
  | Shared p => [qresi p]
  | PartiallyShared p => qresi_ls p
  end.

(** A policy as its constructor leaves it: at least one unit, one tick
    per unit. *)
Definition policy_ready (p : quant_resi_policy refine_unit) : Prop :=
  match p with
  | NonShared p =>
      ns_modules p <> [] /\ length (ns_ticks p) = length (ns_modules p)
  | Shared _ => True
  | PartiallyShared p =>
      qresi_ls p <> [] /\ length (ticks p) = length (qresi_ls p)
  end.

(** The convolution of a unit has [C] channels. *)
Definition unit_fits (C : nat) (u : refine_unit) : Prop :=
  match u with
  | Identity => True
  | Phi _ embed_dim _ => embed_dim = C
  end.

(** A module as [__init__] builds it for a non-empty codebook and a
    pyramid of at least two positive scales, after any number of
    training passes. *)
Record well_formed (q : VectorQuantizer2) : Prop := {
  wf_policy : policy_ready (quant_resi q);
  wf_units : Forall (unit_fits (Cvae q)) (units_of (quant_resi q));
  wf_embedding : length (embedding q) = vocab_size q;
  wf_vocab : vocab_size q <> 0;
  wf_channels : Cvae q <> 0;
  wf_scales : 2 <= length (v_patch_nums q);
  wf_positive : Forall (fun pn => pn <> 0) (v_patch_nums q);
  wf_ema : ema_shape q (length (v_patch_nums q)) (vocab_size q)
}.

(** The input of [forward]: a [B x Cvae x pn x pn] feature map for the
    last [pn] of the pyramid, holding one element per position. *)
Definition valid_input (q : VectorQuantizer2) (f_BChw : tensor) (B HW : nat) : Prop :=
  shape f_BChw = [B; Cvae q; HW; HW] /\
  last_item (v_patch_nums q) = Ok HW /\
  length (data f_BChw) = numel f_BChw.

(** The reduction returns one sum per count, and the process group
    answers the world size query. *)
Definition env_ready (env : DistEnv) (ws : nat) : Prop :=
  (forall v, length (all_reduce env v) = length v) /\
  get_world_size env = Ok ws.

(** What the loop of [forward] maintains on its locals. *)
Record locals_ok (q : VectorQuantizer2) (B HW : nat) (st : fwd_locals) : Prop := {
  lo_f_hat_shape : shape (f_hat st) = [B; Cvae q; HW; HW];
  lo_f_hat_dtype : dtype_of (f_hat st) = float32;
  lo_f_hat_data : length (data (f_hat st)) <= B * Cvae q * HW * HW;
  lo_f_rest_shape : shape (f_rest st) = [B; Cvae q; HW; HW];
  lo_f_rest_dtype : dtype_of (f_rest st) = float32;
  lo_hits : length (vocab_hit_V st) = vocab_size q
}.

(** The loss once a scale has been processed: a float32 tensor with no
    dimension. *)
Definition loss_is_tensor (l : pyval) : Prop :=
  match l with
  | PyTensor t => shape t = [] /\ dtype_of t = float32
  | PyFloat _ => False
  end.

(** Before that it may still be the Python float. *)
Definition loss_ok (l : pyval) : Prop :=
  match l with
  | PyTensor t => shape t = [] /\ dtype_of t = float32
  | PyFloat _ => True
  end.

(** [q'] is [q] with another histogram and counter. *)
Definition same_module (q q' : VectorQuantizer2) : Prop :=
  exists ema n, q' = set_record_hit (set_ema q ema) n.

End Validity.

Section ForwardStatements.

Context {BE : Backend}.

(** The input of [forward] after the cast of lines 93-95. *)
Definition as_float32 (f_BChw : tensor) : tensor :=
  if dtype_eqb (dtype_of f_BChw) float32 then f_BChw else to_float f_BChw.

(** The margin the code computes for a [B x C x H x W] input, [V] codes
    and world size [ws]. *)
Definition margin_of (ws B C H W V : nat) : Q :=
  (Qnat ws * (Qnat (prod_shape [B; C; H; W]) / Qnat C) / Qnat V * (8 # 100))%Q.

(** The locals of [forward] when its loop ends. *)
Definition forward_locals (env : DistEnv) (q : VectorQuantizer2)
    (f_BChw : tensor) (B HW : nat) : result fwd_locals * VectorQuantizer2 :=
  forward_loop env (as_float32 f_BChw) (detach (as_float32 f_BChw))
    B (Cvae q) HW HW (length (v_patch_nums q))
    (enumerate (v_patch_nums q))
    (forward_init (as_float32 f_BChw) (vocab_size q)) q.

End ForwardStatements.

Section SpecWords.

Context {BE : Backend}.

(** The hit counts [forward] computes locally at a scale, from the
    residual [f_rest] it has there. *)
Definition local_hits (q : VectorQuantizer2) (f_rest : tensor) (pn : nat)
    (is_last : bool) : result (list scalar) :=
  r <- residual_rows f_rest (Cvae q) pn pn is_last ;;
  idx <- nearest_code q r ;;
  Ok (bincount idx (vocab_size q)).

(** The margin as the specification words it: world size times the
    tokens of one sample, [H * W], over the vocabulary size, times 0.08. *)
Definition spec_margin (ws H W V : nat) : Q :=
  (Qnat ws * Qnat (H * W) / Qnat V * (8 # 100))%Q.

(** The utilization as the specification words it: the codes whose
    count exceeds the margin, as a percentage. *)
Definition spec_usage_percent (row : list scalar) (margin : Q) : Q :=
  (Qnat (length (filter (fun c => sltb (lit margin) c) row))
   / Qnat (length row) * 100)%Q.

End SpecWords.



Section Sequences.

Context {BE : Backend}.

(** The number of tokens of scale [i]. *)
Definition query_length (q : VectorQuantizer2) (i : nat) : nat :=
  nth i (v_patch_nums q) 0 * nth i (v_patch_nums q) 0.

(** Where the tokens of scale [i >= 1] start in a sequence that
    concatenates the scales 1, 2, ... in order. *)
Definition query_offset (q : VectorQuantizer2) (i : nat) : nat :=
  fold_right Nat.add 0 (map (query_length q) (seq 1 (i - 1))).

(** The tokens of scale [i] in such a sequence. *)
Definition query_segment (q : VectorQuantizer2) (out : tensor) (i : nat) : tensor :=
  narrow_dim1 out (query_offset q i) (query_length q i).

(** A float32 [B x l x C] tensor that holds one element per position. *)
Definition sized3 (B C l : nat) (t : tensor) : Prop :=
  shape t = [B; l; C] /\ dtype_of t = float32 /\
  length (data t) = B * (l * C).

(** What [torch.multinomial] guarantees for uniform weights over [n]
    categories and [1 <= k <= n] samples without replacement: [k]
    distinct categories. *)
Definition samples_without_replacement (G : Generator) : Prop :=
  forall (g : gen_state G) (n k : nat),
    1 <= k <= n ->
    length (fst (draw G g (repeat 1%Q n) k)) = k /\
    NoDup (fst (draw G g (repeat 1%Q n) k)) /\
    Forall (fun i => i < n) (fst (draw G g (repeat 1%Q n) k)).

(** The ground-truth indices of a batch of [B] samples: one [B x pn^2]
    tensor of codes per scale. *)
Definition valid_gt (q : VectorQuantizer2) (gt_ms_idx_Bl : list itensor) (B : nat)
  : Prop :=
  length gt_ms_idx_Bl = length (v_patch_nums q) /\
  forall si gt, nth_error gt_ms_idx_Bl si = Some gt ->
    ishape gt = [B; query_length q si] /\
    Forall (fun i => i < vocab_size q) (idata gt).

(** The masked positions recorded for scale [si]: as many as the mask
    fraction asks for, distinct, inside the range of the scale. *)
Definition mask_ok (q : VectorQuantizer2) (p_mask : Q) (si : nat) (sel : list nat)
  : Prop :=
  Z.of_nat (length sel) = Qceiling (Qnat (query_length q si) * p_mask) /\
  NoDup sel /\
  Forall (fun pos => query_offset q si <= pos
                     < query_offset q si + query_length q si) sel.

(** The contribution of scale [si] is built from its own ground truth. *)
Definition own_contribution (q : VectorQuantizer2) (gt_ms_idx_Bl : list itensor)
    (B HW : nat) (si : nat) (tok : tensor) : Prop :=
  exists gt,
    nth_error gt_ms_idx_Bl si = Some gt /\
    mask_contribution q gt B (Cvae q) HW HW (length (v_patch_nums q)) si
      (nth si (v_patch_nums q) 0) = Ok tok /\
    sized3 B (Cvae q) (query_length q si) tok.

End Sequences.

(* ================================================================= *)
(** ** Further predicates: the encoder, the decoder and the module state *)

Section EncoderStatements.

Context {BE : Backend}.

(** [idx_N.reshape(B, pn * pn)]: the codes of one square scale. *)
Definition idx_Bl_of (B pn : nat) (idx : list nat) : itensor :=
  {| ishape := [B; pn * pn]; idata := idx |}.

(** The hit counts the histogram receives for the codes [idx] of one
    scale: their histogram, summed over the processes. *)
Definition reduced_hits (env : DistEnv) (q : VectorQuantizer2) (idx : list nat)
  : list scalar :=
  all_reduce env (bincount idx (vocab_size q)).

(** The codes of one scale of a batch of [B] samples: one valid code per
    token. *)
Definition codes_of_scale (q : VectorQuantizer2) (B pn : nat) (idx : list nat) : Prop :=
  length idx = B * pn * pn /\ Forall (fun c => c < vocab_size q) idx.

(** A float32 [B x C x H x W] map. *)
Definition sized4 (B C H W : nat) (t : tensor) : Prop :=
  shape t = [B; C; H; W] /\ dtype_of t = float32.

(** [nn.Module.eval()] and [nn.Module.train()] on the quantizer. *)
Definition set_training (q : VectorQuantizer2) (mode : bool) : VectorQuantizer2 :=
  {| vocab_size := vocab_size q; Cvae := Cvae q; using_znorm := using_znorm q;
     v_patch_nums := v_patch_nums q; quant_resi_ratio := quant_resi_ratio q;
     quant_resi := quant_resi q; ema_vocab_hit_SV := ema_vocab_hit_SV q;
     record_hit := record_hit q; beta := beta q; embedding := embedding q;
     training := mode |}.

Definition eval_mode (q : VectorQuantizer2) : VectorQuantizer2 := set_training q false.

(** The value of [ls_f_hat_BChw] after the reconstructions [fhats] have
    been recorded one after the other, starting from [ls]. *)
Definition after_record (last_one : bool) (ls : fhat_ls) (fhats : list tensor)
  : fhat_ls :=
  if last_one then
    match fhats with
    | [] => ls
    | t :: ts => FhatLast (last ts t)
    end
  else
    match ls with
    | FhatList l => FhatList (l ++ fhats)
    | FhatLast _ => ls
    end.

(** The code maps a decoder builds from the indices of every scale:
    [embedding(idx_Bl).transpose(1, 2).view(B, Cvae, pn, pn)]. *)
Definition token_maps (q : VectorQuantizer2) (B : nat) (idxs : list (list nat))
  : result (list tensor) :=
  mapM (fun pi => embed_tokens q (idx_Bl_of B (fst pi) (snd pi)) B (Cvae q) (fst pi))
       (combine (v_patch_nums q) idxs).

(** [t.view(B, C, -1).transpose(1, 2)]: a map as a sequence of tokens. *)
Definition as_tokens (t : tensor) (B C : nat) : result tensor :=
  v <- view_B_C_rest t B C ;;
  transpose_1_2 v.

(** The code map of the ground truth of scale [si]:
    [embedding(gt[si]).transpose(1, 2).view(B, Cvae, pn, pn)]. *)
Definition gt_map (q : VectorQuantizer2) (gt_ms_idx_Bl : list itensor) (B si : nat)
  : result tensor :=
  gt <- getitem gt_ms_idx_Bl si ;;
  embed_tokens q gt B (Cvae q) (nth si (v_patch_nums q) 0).

(** A decoding run: [get_next_autoregressive_input] is called for the
    scales [sis] in turn, scale [si] with the map [hs si], always on the
    running reconstruction the previous call left.  The result lists
    what the calls returned. *)
Fixpoint decode_run (q : VectorQuantizer2) (SN : nat) (hs : nat -> result tensor)
    (sis : list nat) (f_hat : tensor) : result (list (tensor * tensor)) :=
  match sis with
  | [] => Ok []
  | si :: sis' =>
      h <- hs si ;;
      match get_next_autoregressive_input q si SN f_hat h with
      | (Ok out, f_hat') =>
          outs <- decode_run q SN hs sis' f_hat' ;;
          Ok (out :: outs)
      | (Raise e, _) => Raise e
      end
  end.

(** [q'] differs from [q] at most in the usage statistics: the other
    attributes are the same, the histogram has as many rows, and the
    counter has not gone down. *)
Definition stats_only (q q' : VectorQuantizer2) : Prop :=
  vocab_size q' = vocab_size q /\ Cvae q' = Cvae q /\
  using_znorm q' = using_znorm q /\ v_patch_nums q' = v_patch_nums q /\
  quant_resi_ratio q' = quant_resi_ratio q /\ quant_resi q' = quant_resi q /\
  beta q' = beta q /\ embedding q' = embedding q /\ training q' = training q /\
  length (ema_vocab_hit_SV q') = length (ema_vocab_hit_SV q) /\
  record_hit q <= record_hit q'.

(** A computation that touches nothing but the usage statistics,
    whether it returns or raises. *)
Definition keeps_module {A} (m : M A) : Prop :=
  forall q, stats_only q (snd (m q)).

End EncoderStatements.

(* ================================================================= *)
(** ** More concrete modules *)

(** The module [__init__] builds for the single scale 2: two codes, one
    channel, four partially shared units. *)
Definition single_scale_quantizer : VectorQuantizer2 :=
  {| vocab_size := 2; Cvae := 1; using_znorm := false;
     v_patch_nums := [2]; quant_resi_ratio := 1 # 2;
     quant_resi :=
       PartiallyShared
         {| qresi_ls := repeat (Phi Exact.blur 1 (1 # 2)) 4;
            ticks := Np.linspace (1 / 3 / 4) (1 - 1 / 3 / 4) 4 |};
     ema_vocab_hit_SV := [[Q2Qc 0; Q2Qc 0]];
     record_hit := 0; beta := 1 # 4; embedding := Exact.codes;
     training := true |}.

(* ================================================================= *)
(** * Properties *)

(** ** Results *)

Lemma bind_Ok {A B} (m : result A) (k : A -> result B) (b : B) :
  bind m k = Ok b -> exists a, m = Ok a /\ k a = Ok b.
Proof.
  destruct m as [a|e]; simpl; intros H; [eauto | discriminate].
Qed.

Lemma getitem_Ok {A} (l : list A) (i : nat) (a : A) :
  getitem l i = Ok a <-> nth_error l i = Some a.
Proof.
  unfold getitem. destruct (nth_error l i); split; intros H;
    inversion H; subst; reflexivity.
Qed.

Lemma getitem_lt {A} (l : list A) (i : nat) :
  i < length l -> exists a, getitem l i = Ok a.
Proof.
  intros H. unfold getitem.
  destruct (nth_error l i) eqn:E; [eauto|].
  apply nth_error_None in E. lia.
Qed.

(** ** [np.argmin]: a nearest element, the lowest index among ties *)

Lemma Qltb_lt (a b : Q) : Np.Qltb a b = true <-> (a < b)%Q.
Proof.
  unfold Np.Qltb. rewrite negb_true_iff. split; intros H.
  - apply Qnot_le_lt. intros L. apply Qle_bool_iff in L. congruence.
  - destruct (Qle_bool b a) eqn:E; [|reflexivity].
    apply Qle_bool_iff in E. exfalso. exact (Qlt_not_le _ _ H E).
Qed.

Lemma Qltb_ge (a b : Q) : Np.Qltb a b = false <-> (b <= a)%Q.
Proof.
  unfold Np.Qltb. rewrite negb_false_iff. apply Qle_bool_iff.
Qed.

Lemma argmin_from_first_min (xs pre : list Q) (bi : nat) :
  first_min pre bi ->
  first_min (pre ++ xs)
    (Np.argmin_from Np.Qltb bi (nth bi pre 0%Q) (length pre) xs).
Proof.
  revert pre bi. induction xs as [|x xs IH]; intros pre bi Hm; simpl.
  - rewrite app_nil_r. exact Hm.
  - destruct Hm as [Hbi Hmin].
    replace (pre ++ x :: xs) with ((pre ++ [x]) ++ xs)
      by (rewrite <- app_assoc; reflexivity).
    assert (Hlen : length (pre ++ [x]) = S (length pre))
      by (rewrite length_app; simpl; lia).
    destruct (Np.Qltb x (nth bi pre 0%Q)) eqn:E.
    + apply Qltb_lt in E.
      specialize (IH (pre ++ [x]) (length pre)).
      rewrite Hlen in IH.
      replace (nth (length pre) (pre ++ [x]) 0%Q) with x in IH
        by (rewrite app_nth2, Nat.sub_diag by lia; reflexivity).
      apply IH. split; [lia|].
      intros j Hj.
      rewrite (app_nth2 pre [x] 0%Q (n := length pre)), Nat.sub_diag by lia.
      simpl.
      destruct (Nat.eq_dec j (length pre)) as [->|Hne].
      * rewrite app_nth2, Nat.sub_diag by lia. simpl.
        split; [apply Qle_refl | lia].
      * rewrite app_nth1 by lia.
        destruct (Hmin j ltac:(lia)) as [Hle _].
        split; [apply Qlt_le_weak|intros _]; eapply Qlt_le_trans; eauto.
    + apply Qltb_ge in E.
      specialize (IH (pre ++ [x]) bi).
      rewrite Hlen in IH.
      rewrite (app_nth1 pre [x] 0%Q Hbi) in IH.
      apply IH. split; [lia|].
      intros j Hj. rewrite (app_nth1 pre [x] 0%Q Hbi).
      destruct (Nat.eq_dec j (length pre)) as [->|Hne].
      * rewrite app_nth2, Nat.sub_diag by lia. simpl.
        split; [exact E | lia].
      * rewrite app_nth1 by lia. apply Hmin. lia.
Qed.

Lemma argmin_first_min (xs : list Q) :
  xs <> [] -> exists i, Np.argmin xs = Ok i /\ first_min xs i.
Proof.
  destruct xs as [|x xs]; [congruence|]. intros _.
  eexists. split; [reflexivity|].
  apply (argmin_from_first_min xs [x] 0).
  split; [simpl; lia|].
  intros j Hj. simpl in Hj. assert (j = 0) by lia. subst.
  split; [apply Qle_refl | lia].
Qed.

(** ** [np.linspace] *)

Lemma linspace_length (a b : Q) (n : nat) : length (Np.linspace a b n) = n.
Proof.
  destruct n as [|[|n]]; simpl; try reflexivity.
  rewrite length_app, length_map, length_seq. simpl. lia.
Qed.

Lemma linspace_Qeq (a a' b b' : Q) (n : nat) :
  (a == a')%Q -> (b == b')%Q ->
  Forall2 Qeq (Np.linspace a b n) (Np.linspace a' b' n).
Proof.
  intros Ha Hb. destruct n as [|[|n]].
  - constructor.
  - repeat constructor. exact Ha.
  - unfold Np.linspace.
    apply Forall2_app; [|repeat constructor; exact Hb].
    induction (seq 0 (S (S n) - 1)) as [|i l IH]; simpl; constructor; [|exact IH].
    rewrite Ha, Hb. reflexivity.
Qed.

Lemma Qnat_nonzero (K : nat) : K <> 0 -> Qeq_bool (Qnat K) 0 = false.
Proof.
  intros HK. destruct (Qeq_bool (Qnat K) 0) eqn:E; [|reflexivity].
  apply Qeq_bool_iff in E. unfold Qnat, Qeq in E. simpl in E. lia.
Qed.

Lemma Qnat_neq0 (K : nat) : K <> 0 -> ~ (Qnat K == 0)%Q.
Proof.
  intros HK E. unfold Qnat, Qeq in E. simpl in E. lia.
Qed.

Lemma make_ticks_closed_form (K : nat) :
  K <> 0 ->
  exists tk, make_ticks K = Ok tk /\ length tk = K /\
             Forall2 Qeq tk (ticks_closed_form K).
Proof.
  intros HK. unfold make_ticks, ticks_closed_form, truediv.
  pose proof (Qnat_neq0 K HK) as HQ.
  destruct (Nat.eqb K 4); simpl; rewrite (Qnat_nonzero K HK); simpl;
    (eexists; split; [reflexivity|]; split; [apply linspace_length|]);
    apply linspace_Qeq; try (apply Qplus_comp; [reflexivity|apply Qopp_comp]);
    field; exact HQ.
Qed.

Lemma nearest_tick_first_min (tk : list Q) (t : Q) :
  tk <> [] ->
  exists i, nearest_tick tk t = Ok i /\
            first_min (map (fun x => Qabs (x - t)) tk) i.
Proof.
  intros H. unfold nearest_tick. apply argmin_first_min.
  destruct tk; [congruence | discriminate].
Qed.

(** ** Computations on the module *)

Section MonadLemmas.

Context {BE : Backend}.

(** Binding a lifted result: the module is passed on as it is. *)
Lemma bindM_lift {A B} (r : result A) (k : A -> M B) (q : VectorQuantizer2) :
  bindM (lift r) k q = match r with Ok a => k a q | Raise e => (Raise e, q) end.
Proof. reflexivity. Qed.

Lemma bindM_self {B} (k : VectorQuantizer2 -> M B) (q : VectorQuantizer2) :
  bindM self k q = k q q.
Proof. reflexivity. Qed.

Lemma bindM_ret {A B} (a : A) (k : A -> M B) (q : VectorQuantizer2) :
  bindM (ret a) k q = k a q.
Proof. reflexivity. Qed.

Lemma bindM_state {A B} (m : M A) (k : A -> M B) (q : VectorQuantizer2) :
  snd (m q) = q ->
  (forall a, snd (k a q) = q) ->
  snd (bindM m k q) = q.
Proof.
  unfold bindM. intros Hm Hk.
  destruct (m q) as [[a|e] q'] eqn:E; simpl in Hm; subst q'; [apply Hk|reflexivity].
Qed.

Lemma map2_length {A B C} (f : A -> B -> C) (xs : list A) (ys : list B) :
  length (map2 f xs ys) = Nat.min (length xs) (length ys).
Proof.
  revert ys. induction xs as [|x xs IH]; intros [|y ys]; simpl; auto.
Qed.

Lemma map2_snd {A B} (xs : list A) (ys : list B) :
  length xs = length ys -> map2 (fun _ y => y) xs ys = ys.
Proof.
  revert ys. induction xs as [|x xs IH]; intros [|y ys]; simpl; intros H;
    try discriminate; [reflexivity|]. f_equal. apply IH. lia.
Qed.

Lemma vec_binop__same_length f (row v : list scalar) :
  length row = length v -> vec_binop_ f row v = Ok (map2 f row v).
Proof.
  intros H. unfold vec_binop_. rewrite H, Nat.eqb_refl. reflexivity.
Qed.

Lemma set_nth_length {A} (i : nat) (a : A) (l : list A) :
  length (set_nth i a l) = length l.
Proof.
  revert i. induction l as [|x l IH]; intros [|i]; simpl; auto.
Qed.

Lemma set_nth_same {A} (i : nat) (a : A) (l : list A) :
  i < length l -> nth_error (set_nth i a l) i = Some a.
Proof.
  revert i. induction l as [|x l IH]; intros [|i]; simpl; intros H;
    try lia; [reflexivity|]. apply IH. lia.
Qed.

Lemma set_nth_other {A} (i j : nat) (a : A) (l : list A) :
  j <> i -> nth_error (set_nth i a l) j = nth_error l j.
Proof.
  revert i j. induction l as [|x l IH]; intros [|i] [|j]; simpl; intros H;
    try reflexivity; try lia. apply IH. lia.
Qed.

Lemma set_nth_twice {A} (i : nat) (a b : A) (l : list A) :
  set_nth i b (set_nth i a l) = set_nth i b l.
Proof.
  revert i. induction l as [|x l IH]; intros [|i]; simpl; auto.
  f_equal. apply IH.
Qed.

Lemma set_nth_Forall {A} (P : A -> Prop) (i : nat) (a : A) (l : list A) :
  P a -> Forall P l -> Forall P (set_nth i a l).
Proof.
  intros Ha. revert i. induction l as [|x l IH]; intros [|i] H; simpl;
    inversion H; subst; constructor; auto.
Qed.

Lemma vec_mul_scalar_length (v : list scalar) (c : Q) :
  length (vec_mul_scalar v c) = length v.
Proof. apply length_map. Qed.

(** One update, when row [si] exists and has the length of the hit
    counts: the new row by the three regimes, the other rows and fields
    untouched, the counter one higher. *)
Lemma ema_update_run (q : VectorQuantizer2) (si : nat) (hit_V row : list scalar) :
  nth_error (ema_vocab_hit_SV q) si = Some row ->
  length hit_V = length row ->
  ema_update si hit_V q =
    (Ok tt,
     set_record_hit
       (set_ema q
          (set_nth si
             (if Nat.eqb (record_hit q) 0 then hit_V
              else if Nat.ltb (record_hit q) 100
                   then blend row hit_V (9 # 10) (1 # 10)
                   else blend row hit_V (99 # 100) (1 # 100))
             (ema_vocab_hit_SV q)))
       (S (record_hit q))).
Proof.
  intros Hrow Hlen.
  assert (Hget : getitem (ema_vocab_hit_SV q) si = Ok row)
    by (apply getitem_Ok; exact Hrow).
  unfold ema_update. rewrite bindM_self.
  destruct (Nat.eqb (record_hit q) 0) eqn:E0;
    [|destruct (Nat.ltb (record_hit q) 100) eqn:E1];
    unfold bindM, ema_row, store_ema_row, modify, lift, vec_copy_, blend;
    rewrite Hget; simpl;
    rewrite vec_binop__same_length
      by (rewrite ?vec_mul_scalar_length; congruence);
    simpl; rewrite ?set_nth_twice, ?map2_snd by congruence; reflexivity.
Qed.

End MonadLemmas.

(** ** The usage histogram *)

Section EmaLemmas.

Context {BE : Backend}.

Lemma ema_shape_row (q : VectorQuantizer2) (scales codes si : nat) :
  ema_shape q scales codes -> si < scales ->
  exists row, nth_error (ema_vocab_hit_SV q) si = Some row /\ length row = codes.
Proof.
  intros [Hlen Hall] Hsi.
  destruct (nth_error (ema_vocab_hit_SV q) si) as [row|] eqn:E.
  - exists row. split; [reflexivity|].
    rewrite Forall_forall in Hall. apply Hall.
    eapply nth_error_In; eauto.
  - apply nth_error_None in E. lia.
Qed.

Lemma blend_length (old new : list scalar) (a b : Q) :
  length old = length new -> length (blend old new a b) = length new.
Proof.
  intros H. unfold blend.
  rewrite map2_length, !vec_mul_scalar_length. lia.
Qed.

(** A fitting update keeps the shape of the buffer and counts once. *)
Lemma ema_update_fits (q : VectorQuantizer2) (scales codes si : nat)
    (hit_V : list scalar) :
  ema_shape q scales codes -> si < scales -> length hit_V = codes ->
  exists q', ema_update si hit_V q = (Ok tt, q') /\
             record_hit q' = S (record_hit q) /\
             ema_shape q' scales codes /\
             same_module q q'.
Proof.
  intros Hs Hsi Hlen.
  destruct (ema_shape_row q scales codes si Hs Hsi) as (row & Hrow & Hrl).
  eexists. split; [apply (ema_update_run q si hit_V row Hrow); congruence|].
  split; [reflexivity|].
  split; [|eexists; eexists; reflexivity].
  destruct Hs as [Hl Hall]. split; simpl.
  - rewrite set_nth_length. exact Hl.
  - apply set_nth_Forall; [|exact Hall].
    destruct (Nat.eqb (record_hit q) 0); [exact Hlen|].
    destruct (Nat.ltb (record_hit q) 100);
      rewrite blend_length; congruence.
Qed.

Lemma run_updates_counter (us : list (nat * list scalar)) :
  forall (q : VectorQuantizer2) (scales codes : nat),
    ema_shape q scales codes ->
    Forall (update_fits scales codes) us ->
    record_hit (run_updates us q) = record_hit q + length us /\
    ema_shape (run_updates us q) scales codes.
Proof.
  induction us as [|[si hit_V] us IH]; intros q scales codes Hs Hus; simpl.
  - split; [lia | exact Hs].
  - inversion Hus as [|u us' Hfit Hrest]; subst.
    destruct Hfit as [Hsi Hlen]. simpl in Hsi, Hlen.
    destruct (ema_update_fits q scales codes si hit_V Hs Hsi Hlen)
      as (q' & Hrun & Hcnt & Hs' & _).
    rewrite Hrun. simpl.
    destruct (IH q' scales codes Hs' Hrest) as [Hc Hsh].
    split; [lia | exact Hsh].
Qed.

End EmaLemmas.

(** ** Tensor operations *)

Section TensorLemmas.

Context {BE : Backend}.

Lemma shape_eqb_eq (s1 s2 : list nat) : shape_eqb s1 s2 = true <-> s1 = s2.
Proof.
  revert s2. induction s1 as [|a s1 IH]; intros [|b s2]; simpl;
    try (split; [discriminate | congruence]); [tauto|].
  rewrite andb_true_iff, Nat.eqb_eq, IH.
  split; [intros [-> ->]; reflexivity | intros E; inversion E; auto].
Qed.

Lemma shape_eqb_refl (s : list nat) : shape_eqb s s = true.
Proof. apply shape_eqb_eq. reflexivity. Qed.

Lemma binop_same_shape f (a b : tensor) :
  shape a = shape b ->
  binop f a b = Ok {| dtype_of := promote_types (dtype_of a) (dtype_of b);
                      shape := shape a;
                      data := map2 f (data a) (data b) |}.
Proof.
  intros H. unfold binop. rewrite H, shape_eqb_refl. reflexivity.
Qed.

Lemma binop__same_shape f (a b : tensor) :
  shape a = shape b ->
  binop_ f a b = Ok {| dtype_of := dtype_of a; shape := shape a;
                       data := map2 f (data a) (data b) |}.
Proof.
  intros H. unfold binop_. rewrite H, shape_eqb_refl. reflexivity.
Qed.

Lemma binop_float32 f (a b : tensor) (s : list nat) :
  shape a = s -> shape b = s ->
  dtype_of a = float32 -> dtype_of b = float32 ->
  exists r, binop f a b = Ok r /\ shape r = s /\ dtype_of r = float32 /\
            data r = map2 f (data a) (data b).
Proof.
  intros Ha Hb Da Db. rewrite binop_same_shape by congruence.
  eexists. split; [reflexivity|]. cbn [shape dtype_of data].
  rewrite Da, Db. auto.
Qed.

Lemma binop__float32 f (a b : tensor) (s : list nat) :
  shape a = s -> shape b = s -> dtype_of a = float32 ->
  exists r, binop_ f a b = Ok r /\ shape r = s /\ dtype_of r = float32 /\
            data r = map2 f (data a) (data b).
Proof.
  intros Ha Hb Da. rewrite binop__same_shape by congruence.
  eexists. split; [reflexivity|]. cbn [shape dtype_of data]. auto.
Qed.

Lemma mse_loss_ok (a b : tensor) (s : list nat) :
  shape a = s -> shape b = s ->
  dtype_of a = float32 -> dtype_of b = float32 ->
  exists l, mse_loss a b = Ok l /\ shape l = [] /\ dtype_of l = float32.
Proof.
  intros Ha Hb Da Db. unfold mse_loss, sub.
  destruct (binop_float32 ssub a b s Ha Hb Da Db) as (d & Hd & _ & Hdd & _).
  rewrite Hd. cbn [bind]. eexists. split; [reflexivity|].
  cbn [shape dtype_of]. auto.
Qed.

Lemma iview_ok (t : itensor) (s : list nat) :
  prod_shape s = prod_shape (ishape t) ->
  iview t s = Ok {| ishape := s; idata := idata t |}.
Proof.
  intros H. unfold iview. rewrite H, Nat.eqb_refl. reflexivity.
Qed.

Lemma interpolate_ok (t : tensor) (B C H W h w : nat) (m : interp_mode) :
  shape t = [B; C; H; W] -> H <> 0 -> W <> 0 -> h <> 0 -> w <> 0 ->
  exists t', interpolate t h w m = Ok t' /\
             shape t' = [B; C; h; w] /\ dtype_of t' = dtype_of t.
Proof.
  intros Hs HH HW Hh Hw. unfold interpolate. rewrite Hs.
  destruct (Nat.eqb_spec H 0); [contradiction|].
  destruct (Nat.eqb_spec W 0); [contradiction|].
  destruct (Nat.eqb_spec h 0); [contradiction|].
  destruct (Nat.eqb_spec w 0); [contradiction|].
  simpl. eexists. split; [reflexivity|]. split; reflexivity.
Qed.

Lemma permute_0231_ok (t : tensor) (B C H W : nat) :
  shape t = [B; C; H; W] ->
  exists t', permute_0231 t = Ok t' /\
             shape t' = [B; H; W; C] /\ dtype_of t' = dtype_of t.
Proof.
  intros Hs. unfold permute_0231. rewrite Hs.
  eexists. split; [reflexivity|]. split; reflexivity.
Qed.

Lemma permute_0312_ok (t : tensor) (B H W C : nat) :
  shape t = [B; H; W; C] ->
  exists t', permute_0312 t = Ok t' /\
             shape t' = [B; C; H; W] /\ dtype_of t' = dtype_of t.
Proof.
  intros Hs. unfold permute_0312. rewrite Hs.
  eexists. split; [reflexivity|]. split; reflexivity.
Qed.

Lemma reshape_rows_ok (t : tensor) (N C : nat) :
  numel t = N * C -> C <> 0 ->
  exists t', reshape_rows t C = Ok t' /\
             shape t' = [N; C] /\ dtype_of t' = dtype_of t /\ data t' = data t.
Proof.
  intros Hn HC. unfold reshape_rows.
  destruct (Nat.eqb_spec C 0); [contradiction|].
  rewrite Hn, Nat.Div0.mod_mul, Nat.div_mul by exact HC. simpl.
  eexists. split; [reflexivity|]. repeat split.
Qed.

Lemma residual_rows_ok (f_rest : tensor) (B C H W ph pw : nat) (is_last : bool) :
  shape f_rest = [B; C; H; W] ->
  C <> 0 -> H <> 0 -> W <> 0 -> ph <> 0 -> pw <> 0 ->
  (is_last = true -> ph = H /\ pw = W) ->
  exists r, residual_rows f_rest C ph pw is_last = Ok r /\
            shape r = [B * ph * pw; C].
Proof.
  intros Hs HC HH HW Hph Hpw Hlast. unfold residual_rows.
  destruct is_last.
  - destruct (Hlast eq_refl) as [-> ->].
    destruct (permute_0231_ok f_rest B C H W Hs) as (p & Hp & Hps & _).
    rewrite Hp. simpl.
    destruct (reshape_rows_ok p (B * H * W) C) as (r & Hr & Hrs & _);
      [unfold numel; rewrite Hps; simpl; ring | exact HC |].
    rewrite Hr. eauto.
  - destruct (interpolate_ok f_rest B C H W ph pw area Hs HH HW Hph Hpw)
      as (t & Ht & Hts & _).
    rewrite Ht. simpl.
    destruct (permute_0231_ok t B C ph pw Hts) as (p & Hp & Hps & _).
    rewrite Hp. simpl.
    destruct (reshape_rows_ok p (B * ph * pw) C) as (r & Hr & Hrs & _);
      [unfold numel; rewrite Hps; simpl; ring | exact HC |].
    rewrite Hr. eauto.
Qed.

(** *** Index selection *)

Lemma argmin_from_bound {A} (ltb : A -> A -> bool) (xs : list A) :
  forall bi b i, bi < i -> Np.argmin_from ltb bi b i xs < i + length xs.
Proof.
  induction xs as [|x xs IH]; intros bi b i H; simpl; [lia|].
  destruct (ltb x b).
  - specialize (IH i x (S i) ltac:(lia)). lia.
  - specialize (IH bi b (S i) ltac:(lia)). lia.
Qed.

Lemma first_argmin_bound {A} (ltb : A -> A -> bool) (xs : list A) :
  xs <> [] -> exists i, Np.first_argmin ltb xs = Ok i /\ i < length xs.
Proof.
  destruct xs as [|x xs]; [congruence|]. intros _.
  eexists. split; [reflexivity|].
  pose proof (argmin_from_bound ltb xs 0 x 1 ltac:(lia)). simpl. lia.
Qed.

Lemma row_argmin_bound (row : list scalar) :
  row <> [] -> exists i, row_argmin row = Ok i /\ i < length row.
Proof.
  intros H. unfold row_argmin.
  destruct (first_argmin_bound sltb row H) as (i & Hi & Hlt).
  rewrite Hi. eauto.
Qed.

Lemma row_argmax_bound (row : list scalar) :
  row <> [] -> exists i, row_argmax row = Ok i /\ i < length row.
Proof.
  intros H. unfold row_argmax.
  destruct (first_argmin_bound (fun a b => sltb b a) row H) as (i & Hi & Hlt).
  rewrite Hi. eauto.
Qed.

Lemma mapM_ok {A B} (f : A -> result B) (P : B -> Prop) (xs : list A) :
  (forall x, In x xs -> exists y, f x = Ok y /\ P y) ->
  exists ys, mapM f xs = Ok ys /\ length ys = length xs /\ Forall P ys.
Proof.
  induction xs as [|x xs IH]; intros H; simpl.
  - exists []. repeat split. constructor.
  - destruct (H x (or_introl eq_refl)) as (y & Hy & Py).
    destruct IH as (ys & Hys & Hl & HP); [intros; apply H; right; assumption|].
    rewrite Hy, Hys. simpl. exists (y :: ys).
    repeat split; [simpl; lia | constructor; assumption].
Qed.

Lemma chunks_length {A} (n k : nat) (xs : list A) : length (chunks n k xs) = k.
Proof.
  revert xs. induction k as [|k IH]; intros xs; simpl; [reflexivity|].
  f_equal. apply IH.
Qed.

Lemma map_nonempty {A B} (f : A -> B) (l : list A) : l <> [] -> map f l <> [].
Proof. destruct l; [congruence | discriminate]. Qed.

End TensorLemmas.

(** ** Steps of the quantizer *)

Section QuantLemmas.

Context {BE : Backend}.

Lemma nearest_code_ok (q : VectorQuantizer2) (rest_NC : tensor) (N : nat) :
  shape rest_NC = [N; Cvae q] -> embedding q <> [] ->
  exists idx, nearest_code q rest_NC = Ok idx /\
              length idx = N /\
              Forall (fun i => i < length (embedding q)) idx.
Proof.
  intros Hs He. unfold nearest_code, rows_of. rewrite Hs. simpl.
  rewrite Nat.eqb_refl.
  destruct (using_znorm q).
  - destruct (mapM_ok
                (fun x => row_argmax
                   (map (fun e => dot (normalize_vec x) e)
                        (map normalize_vec (embedding q))))
                (fun i => i < length (embedding q))
                (chunks (Cvae q) N (data rest_NC))) as (ys & Hys & Hl & HP).
    + intros x _.
      destruct (row_argmax_bound
                  (map (fun e => dot (normalize_vec x) e)
                       (map normalize_vec (embedding q)))) as (i & Hi & Hlt).
      * apply map_nonempty, map_nonempty, He.
      * rewrite !length_map in Hlt. eauto.
    + rewrite Hys. exists ys. rewrite chunks_length in Hl. auto.
  - destruct (mapM_ok
                (fun x => row_argmin
                   (map (fun e => sadd (sadd (sum_squares x) (sum_squares e))
                                       (smul (lit (-2)%Q) (dot x e)))
                        (embedding q)))
                (fun i => i < length (embedding q))
                (chunks (Cvae q) N (data rest_NC))) as (ys & Hys & Hl & HP).
    + intros x _.
      destruct (row_argmin_bound
                  (map (fun e => sadd (sadd (sum_squares x) (sum_squares e))
                                      (smul (lit (-2)%Q) (dot x e)))
                       (embedding q))) as (i & Hi & Hlt).
      * apply map_nonempty, He.
      * rewrite length_map in Hlt. eauto.
    + rewrite Hys. exists ys. rewrite chunks_length in Hl. auto.
Qed.

Lemma fold_max_bound (idx : list nat) (V : nat) :
  Forall (fun i => i < V) idx -> idx <> [] -> fold_right Nat.max 0 idx < V.
Proof.
  induction idx as [|i idx IH]; intros H Hne; [congruence|].
  inversion H; subst. simpl.
  destruct idx as [|j idx]; [simpl; lia|].
  specialize (IH H3 ltac:(discriminate)). lia.
Qed.

Lemma bincount_length (idx : list nat) (V : nat) :
  Forall (fun i => i < V) idx -> length (bincount idx V) = V.
Proof.
  intros H. unfold bincount. rewrite length_map, length_seq.
  destruct idx as [|i idx]; [lia|].
  pose proof (fold_max_bound (i :: idx) V H ltac:(discriminate)). lia.
Qed.

Lemma embedding_lookup_ok (q : VectorQuantizer2) (idx : itensor) :
  Forall (fun i => i < length (embedding q)) (idata idx) ->
  exists e, embedding_lookup q idx = Ok e /\
            shape e = ishape idx ++ [Cvae q] /\ dtype_of e = float32.
Proof.
  intros H. unfold embedding_lookup.
  destruct (mapM_ok (getitem (embedding q)) (fun _ => True) (idata idx))
    as (rows & Hr & _).
  - intros i Hi. rewrite Forall_forall in H.
    destruct (getitem_lt (embedding q) i (H i Hi)) as (row & Hrow). eauto.
  - rewrite Hr. simpl. eexists. split; [reflexivity|]. split; reflexivity.
Qed.

Lemma code_map_ok (q : VectorQuantizer2) (idx : itensor) (B ph pw H W : nat)
    (is_last : bool) :
  ishape idx = [B; ph; pw] ->
  Forall (fun i => i < length (embedding q)) (idata idx) ->
  ph <> 0 -> pw <> 0 -> H <> 0 -> W <> 0 ->
  (is_last = true -> ph = H /\ pw = W) ->
  exists h, code_map q idx H W is_last = Ok h /\
            shape h = [B; Cvae q; H; W] /\ dtype_of h = float32.
Proof.
  intros Hs Hi Hph Hpw HH HW Hlast. unfold code_map.
  destruct (embedding_lookup_ok q idx Hi) as (e & He & Hes & Hed).
  rewrite He. simpl. rewrite Hs in Hes. simpl in Hes.
  destruct (permute_0312_ok e B ph pw (Cvae q) Hes) as (p & Hp & Hps & Hpd).
  rewrite Hp. simpl.
  destruct is_last.
  - destruct (Hlast eq_refl) as [<- <-]. exists p.
    repeat split; congruence.
  - destruct (interpolate_ok p B (Cvae q) ph pw H W bicubic Hps Hph Hpw HH HW)
      as (t & Ht & Hts & Htd).
    exists t. repeat split; congruence.
Qed.

(** *** Refinement *)

Lemma scale_position_ok (si SN : nat) :
  SN <> 1 -> exists t, scale_position si SN = Ok t.
Proof.
  intros H. unfold scale_position, truediv.
  destruct (Qeq_bool (inject_Z (Z.of_nat SN - 1)) 0) eqn:E; [|eauto].
  apply Qeq_bool_iff in E. unfold Qeq in E. simpl in E. lia.
Qed.

Lemma nearest_tick_bound (tk : list Q) (t : Q) :
  tk <> [] -> exists i, nearest_tick tk t = Ok i /\ i < length tk.
Proof.
  intros H. destruct (nearest_tick_first_min tk t H) as (i & Hi & Hlt & _).
  rewrite length_map in Hlt. eauto.
Qed.

Lemma quant_resi_getitem_ok (p : quant_resi_policy refine_unit) (t : Q) :
  policy_ready p ->
  exists u, quant_resi_getitem p t = Ok u /\ In u (units_of p).
Proof.
  destruct p as [p|p|p]; simpl.
  - intros [Hne Hlen]. unfold PhiNonShared_getitem.
    destruct (nearest_tick_bound (ns_ticks p) t) as (i & Hi & Hlt).
    { destruct (ns_ticks p); [|discriminate].
      destruct (ns_modules p); [congruence | discriminate]. }
    rewrite Hi. simpl.
    destruct (getitem_lt (ns_modules p) i ltac:(lia)) as (u & Hu).
    exists u. split; [exact Hu|].
    apply getitem_Ok in Hu. eapply nth_error_In; eauto.
  - intros _. eexists. split; [reflexivity | left; reflexivity].
  - intros [Hne Hlen]. unfold PhiPartiallyShared_getitem.
    destruct (nearest_tick_bound (ticks p) t) as (i & Hi & Hlt).
    { destruct (ticks p); [|discriminate].
      destruct (qresi_ls p); [congruence | discriminate]. }
    rewrite Hi. simpl.
    destruct (getitem_lt (qresi_ls p) i ltac:(lia)) as (u & Hu).
    exists u. split; [exact Hu|].
    apply getitem_Ok in Hu. eapply nth_error_In; eauto.
Qed.

Lemma unit_forward_ok (u : refine_unit) (h : tensor) (B C H W : nat) :
  unit_fits C u -> shape h = [B; C; H; W] -> dtype_of h = float32 ->
  exists r, unit_forward u h = Ok r /\
            shape r = [B; C; H; W] /\ dtype_of r = float32.
Proof.
  intros Hu Hs Hd. destruct u as [w c r|].
  - simpl in Hu. subst c.
    unfold unit_forward, conv2d. rewrite Hs, Hd, Nat.eqb_refl.
    cbn [andb dtype_eqb bind]. unfold add.
    rewrite binop_same_shape by (cbn [shape mul_scalar]; congruence).
    eexists. split; [reflexivity|].
    cbn [shape dtype_of mul_scalar]. rewrite Hd. auto.
  - exists h. auto.
Qed.

Lemma refine_ok (q : VectorQuantizer2) (si SN : nat) (h : tensor) (B H W : nat) :
  policy_ready (quant_resi q) ->
  Forall (unit_fits (Cvae q)) (units_of (quant_resi q)) ->
  SN <> 1 ->
  shape h = [B; Cvae q; H; W] -> dtype_of h = float32 ->
  exists r, refine q si SN h = Ok r /\
            shape r = [B; Cvae q; H; W] /\ dtype_of r = float32.
Proof.
  intros Hp Hu HSN Hs Hd. unfold refine, lookup_unit.
  destruct (scale_position_ok si SN HSN) as (t & Ht). rewrite Ht. simpl.
  destruct (quant_resi_getitem_ok (quant_resi q) t Hp) as (u & Hget & Hin).
  rewrite Hget. simpl.
  rewrite Forall_forall in Hu.
  apply (unit_forward_ok u h B (Cvae q) H W (Hu u Hin) Hs Hd).
Qed.

Lemma refine_split (q : VectorQuantizer2) (si SN : nat) (h r : tensor) :
  refine q si SN h = Ok r <->
  exists u, lookup_unit q si SN = Ok u /\ unit_forward u h = Ok r.
Proof.
  unfold refine. split.
  - intros E. apply bind_Ok in E. exact E.
  - intros (u & Hu & Hr). rewrite Hu. exact Hr.
Qed.

End QuantLemmas.

(** ** The loop of [forward] *)

Section ForwardLemmas.

Context {BE : Backend}.

Lemma same_module_refl (q : VectorQuantizer2) : same_module q q.
Proof. exists (ema_vocab_hit_SV q), (record_hit q). destruct q; reflexivity. Qed.

Lemma same_module_trans (q1 q2 q3 : VectorQuantizer2) :
  same_module q1 q2 -> same_module q2 q3 -> same_module q1 q3.
Proof.
  intros (e1 & n1 & ->) (e2 & n2 & ->). exists e2, n2. reflexivity.
Qed.

Lemma same_module_well_formed (q q' : VectorQuantizer2) :
  same_module q q' ->
  ema_shape q' (length (v_patch_nums q)) (vocab_size q) ->
  well_formed q -> well_formed q'.
Proof.
  intros (e & n & ->) Hs [H1 H2 H3 H4 H5 H6 H7 H8].
  constructor; assumption.
Qed.

Lemma locals_ok_same_module (q q' : VectorQuantizer2) (B HW : nat) (st : fwd_locals) :
  same_module q q' -> locals_ok q B HW st -> locals_ok q' B HW st.
Proof.
  intros (e & n & ->) [H1 H2 H3 H4 H5 H6]. constructor; assumption.
Qed.

Lemma is_last_scale (si SN pn HW : nat) :
  (si = SN - 1 -> pn = HW) ->
  Nat.eqb si (SN - 1) = true -> pn = HW /\ pn = HW.
Proof. intros H E. apply Nat.eqb_eq in E. auto. Qed.

(** One scale of the loop runs to its end and keeps the invariant. *)
Lemma forward_scale_ok (env : DistEnv) (ws : nat) (q : VectorQuantizer2)
    (x : tensor) (B HW si pn : nat) (st : fwd_locals) :
  well_formed q -> env_ready env ws ->
  shape x = [B; Cvae q; HW; HW] -> dtype_of x = float32 ->
  HW <> 0 -> pn <> 0 ->
  (si = length (v_patch_nums q) - 1 -> pn = HW) ->
  si < length (v_patch_nums q) ->
  locals_ok q B HW st -> loss_ok (mean_vq_loss st) ->
  exists st' q',
    forward_scale env x (detach x) B (Cvae q) HW HW
      (length (v_patch_nums q)) si pn st q = (Ok st', q') /\
    locals_ok q B HW st' /\ loss_is_tensor (mean_vq_loss st') /\
    same_module q q' /\ well_formed q' /\
    (training q && initialized env = false -> q' = q) /\
    (training q && initialized env = true -> record_hit q' = S (record_hit q)).
Proof.
  intros Hwf [Hred Hws] Hxs Hxd HHW Hpn Hlast Hsi Hlo Hloss.
  destruct Hlo as [Hfs Hfd Hfl Hrs Hrd Hhits].
  pose proof Hwf as [Hpol Hunits Hemb Hvoc Hch Hsc Hpos Hema].
  assert (Hne : embedding q <> [])
    by (destruct (embedding q); simpl in Hemb; [lia | discriminate]).
  unfold forward_scale. rewrite bindM_self. cbv zeta.
  set (is_last := Nat.eqb si (length (v_patch_nums q) - 1)).
  (* the residual rows *)
  destruct (residual_rows_ok (f_rest st) B (Cvae q) HW HW pn pn is_last
              Hrs Hch HHW HHW Hpn Hpn (is_last_scale _ _ _ _ Hlast))
    as (rest & Hrest & Hrests).
  rewrite bindM_lift, Hrest.
  destruct (nearest_code_ok q rest (B * pn * pn) Hrests Hne)
    as (idx & Hidx & Hil & Hib).
  rewrite bindM_lift, Hidx.
  set (hit_V := if training q && initialized env
                then all_reduce env (bincount idx (vocab_size q))
                else bincount idx (vocab_size q)).
  assert (Hhl : length hit_V = vocab_size q).
  { unfold hit_V. destruct (training q && initialized env);
      rewrite ?Hred; apply bincount_length; rewrite <- Hemb; exact Hib. }
  rewrite bindM_lift, iview_ok by (simpl; rewrite Hil; ring).
  cbn [idata].
  destruct (code_map_ok q {| ishape := [B; pn; pn]; idata := idx |}
              B pn pn HW HW is_last eq_refl Hib Hpn Hpn HHW HHW
              (is_last_scale _ _ _ _ Hlast))
    as (h & Hh & Hhs & Hhd).
  rewrite bindM_lift, Hh.
  destruct (refine_ok q si (length (v_patch_nums q)) h B HW HW
              Hpol Hunits ltac:(lia) Hhs Hhd) as (r & Hr & Hrs' & Hrd').
  rewrite bindM_lift, Hr.
  destruct (binop_float32 sadd (f_hat st) r _ Hfs Hrs' Hfd Hrd')
    as (fh & Hfh & Hfhs & Hfhd & Hfhdata).
  unfold add at 1. rewrite bindM_lift, Hfh.
  destruct (binop__float32 ssub (f_rest st) r _ Hrs Hrs' Hrd)
    as (fr & Hfr & Hfrs & Hfrd & _).
  unfold sub_. rewrite bindM_lift, Hfr.
  destruct (mse_loss_ok fh x _ Hfhs Hxs Hfhd Hxd) as (l1 & Hl1 & Hl1s & Hl1d).
  destruct (binop_float32 sadd (mul_scalar l1 (beta q)) l1 [] Hl1s Hl1s Hl1d Hl1d)
    as (term & Hterm & Hts & Htd & _).
  assert (Hacc : exists loss', pyval_iadd (mean_vq_loss st) term = Ok loss' /\
                               loss_is_tensor loss').
  { destruct (mean_vq_loss st) as [c|a]; simpl.
    - eexists. split; [reflexivity|]. simpl. auto.
    - destruct Hloss as [Has Had].
      destruct (binop__float32 sadd a term [] Has Hts Had) as (s & Hs & Hss & Hsd & _).
      unfold add_. rewrite Hs. simpl. eexists. split; [reflexivity|]. simpl. auto. }
  destruct Hacc as (loss' & Hloss' & Hlt).
  assert (Htail : forall q1,
    bindM (lift (vec_binop_ sadd (vocab_hit_V st) hit_V))
      (fun vocab_hit_V' =>
       bindM (lift (mse_loss fh x)) (fun l1 =>
       bindM (lift (mse_loss fh (detach x))) (fun l2 =>
       bindM (lift (add (mul_scalar l1 (beta q)) l2)) (fun term =>
       bindM (lift (pyval_iadd (mean_vq_loss st) term)) (fun loss' =>
       ret {| f_hat := fh; f_rest := fr; mean_vq_loss := loss';
              vocab_hit_V := vocab_hit_V' |}))))) q1
    = (Ok {| f_hat := fh; f_rest := fr; mean_vq_loss := loss';
             vocab_hit_V := map2 sadd (vocab_hit_V st) hit_V |}, q1)).
  { intros q1.
    rewrite bindM_lift, vec_binop__same_length by congruence.
    unfold detach. rewrite !bindM_lift, Hl1. unfold add. rewrite bindM_lift, Hterm.
    rewrite bindM_lift, Hloss'. reflexivity. }
  assert (Hlocals : locals_ok q B HW
            {| f_hat := fh; f_rest := fr; mean_vq_loss := loss';
               vocab_hit_V := map2 sadd (vocab_hit_V st) hit_V |}).
  { constructor; cbn [f_hat f_rest vocab_hit_V]; try assumption.
    - rewrite Hfhdata, map2_length. lia.
    - rewrite map2_length. lia. }
  destruct (training q && initialized env) eqn:Eflag.
  - destruct (ema_update_fits q _ _ si hit_V Hema Hsi Hhl)
      as (q' & Hup & Hcnt & Hsh & Hsame).
    unfold bindM at 1. rewrite Hup. rewrite Htail.
    eexists. exists q'. split; [reflexivity|].
    split; [exact Hlocals|]. split; [exact Hlt|]. split; [exact Hsame|].
    split; [eapply same_module_well_formed; eauto|].
    split; [discriminate | intros _; exact Hcnt].
  - rewrite bindM_ret, Htail.
    eexists. exists q. split; [reflexivity|].
    split; [exact Hlocals|]. split; [exact Hlt|].
    split; [apply same_module_refl|]. split; [exact Hwf|].
    split; [reflexivity | discriminate].
Qed.

Lemma skipn_cons_nth {A} (l : list A) (i : nat) (a : A) (rest : list A) :
  skipn i l = a :: rest ->
  nth_error l i = Some a /\ skipn (S i) l = rest /\ i < length l.
Proof.
  revert i. induction l as [|x l IH]; intros [|i] H; simpl in *;
    try discriminate.
  - inversion H; subst. repeat split. lia.
  - destruct (IH i H) as (H1 & H2 & H3). repeat split; auto. lia.
Qed.

Lemma skipn_length_sum {A} (l : list A) (i : nat) (a : A) (rest : list A) :
  skipn i l = a :: rest -> i + S (length rest) = length l.
Proof.
  intros H. pose proof (length_skipn i l) as E. rewrite H in E. simpl in E.
  destruct (skipn_cons_nth l i a rest H) as (_ & _ & Hlt). lia.
Qed.

Lemma last_item_skipn {A} (l : list A) (i : nat) (a b : A) (rest : list A) :
  skipn i l = a :: rest -> i = length l - 1 -> last_item l = Ok b -> a = b.
Proof.
  intros Hsk Hi Hlast.
  pose proof (skipn_length_sum l i a rest Hsk) as Hlen.
  assert (rest = []) by (destruct rest; [reflexivity | simpl in Hlen; lia]).
  subst rest.
  assert (Hl : l = firstn i l ++ [a])
    by (rewrite <- Hsk; symmetry; apply firstn_skipn).
  destruct l as [|x l]; [discriminate|]. simpl in Hlast.
  inversion Hlast as [Hb]. clear Hlast.
  assert (Hlx : last (x :: l) x = a) by (rewrite Hl; apply last_last).
  simpl in Hlx. destruct l as [|y l]; simpl in *; congruence.
Qed.

Lemma last_In {A} (l : list A) (d : A) : l <> [] -> In (last l d) l.
Proof.
  induction l as [|y l IH]; intros H; [congruence|].
  destruct l as [|z l]; [left; reflexivity|].
  right. apply IH. discriminate.
Qed.

Lemma last_item_In {A} (l : list A) (a : A) : last_item l = Ok a -> In a l.
Proof.
  destruct l as [|x l]; simpl; intros H; inversion H; subst.
  destruct l as [|y l]; [left; reflexivity|].
  right. apply last_In. discriminate.
Qed.

(** The loop over the scales [i, i+1, ...] runs to its end. *)
Lemma forward_loop_ok (env : DistEnv) (ws : nat) (x : tensor) (B HW : nat) :
  forall (scales : list nat) (i : nat) (q : VectorQuantizer2) (st : fwd_locals),
    well_formed q -> env_ready env ws ->
    shape x = [B; Cvae q; HW; HW] -> dtype_of x = float32 ->
    skipn i (v_patch_nums q) = scales ->
    last_item (v_patch_nums q) = Ok HW ->
    locals_ok q B HW st -> loss_ok (mean_vq_loss st) ->
    exists st' q',
      forward_loop env x (detach x) B (Cvae q) HW HW
        (length (v_patch_nums q)) (enumerate_from i scales) st q = (Ok st', q') /\
      locals_ok q B HW st' /\
      (scales <> [] -> loss_is_tensor (mean_vq_loss st')) /\
      same_module q q' /\ well_formed q' /\
      (training q && initialized env = false -> q' = q) /\
      (training q && initialized env = true ->
       record_hit q' = record_hit q + length scales).
Proof.
  induction scales as [|pn scales IH]; intros i q st Hwf Henv Hxs Hxd Hsk Hlast Hlo Hloss.
  - exists st, q. simpl. split; [reflexivity|]. split; [exact Hlo|].
    split; [congruence|]. split; [apply same_module_refl|].
    split; [exact Hwf|]. split; [reflexivity | lia].
  - destruct (skipn_cons_nth _ _ _ _ Hsk) as (Hnth & Hsk' & Hlt).
    assert (HHW : HW <> 0).
    { pose proof (wf_positive q Hwf) as Hp. rewrite Forall_forall in Hp.
      apply Hp, last_item_In, Hlast. }
    assert (Hpn : pn <> 0).
    { pose proof (wf_positive q Hwf) as Hp. rewrite Forall_forall in Hp.
      eapply Hp, nth_error_In, Hnth. }
    destruct (forward_scale_ok env ws q x B HW i pn st Hwf Henv Hxs Hxd HHW Hpn)
      as (st1 & q1 & Hstep & Hlo1 & Hlt1 & Hsame1 & Hwf1 & Hoff1 & Hon1);
      [intros Hi; eapply last_item_skipn; eauto | exact Hlt | exact Hlo | exact Hloss |].
    pose proof Hsame1 as (e1 & n1 & Eq1).
    assert (Hloss1 : loss_ok (mean_vq_loss st1))
      by (destruct (mean_vq_loss st1); [contradiction | exact Hlt1]).
    destruct (IH (S i) q1 st1 Hwf1 Henv) as
      (st2 & q2 & Hrest & Hlo2 & _ & Hsame2 & Hwf2 & Hoff2 & Hon2).
    + subst q1. exact Hxs.
    + exact Hxd.
    + subst q1. exact Hsk'.
    + subst q1. exact Hlast.
    + eapply locals_ok_same_module; eauto.
    + exact Hloss1.
    + exists st2, q2. simpl. unfold bindM at 1. rewrite Hstep.
      assert (Hrest' :
        forward_loop env x (detach x) B (Cvae q) HW HW (length (v_patch_nums q))
          (enumerate_from (S i) scales) st1 q1 = (Ok st2, q2))
        by (subst q1; exact Hrest).
      rewrite Hrest'.
      split; [reflexivity|].
      split; [subst q1; destruct Hlo2; constructor; assumption|].
      split.
      { intros _. destruct scales as [|pn' scales'].
        - simpl in Hrest'. inversion Hrest'; subst. exact Hlt1.
        - destruct (IH (S i) q1 st1 Hwf1 Henv) as
            (st3 & q3 & Hrest3 & _ & Hl3 & _);
            try (subst q1; assumption);
            [eapply locals_ok_same_module; eauto|].
          assert (E : (Ok st3, q3) = (Ok st2, q2))
            by (rewrite <- Hrest3; subst q1; exact Hrest).
          inversion E; subst. apply Hl3. discriminate. }
      split; [eapply same_module_trans; eauto|].
      split; [exact Hwf2|].
      assert (Hflag : training q1 && initialized env = training q && initialized env)
        by (subst q1; reflexivity).
      split.
      * intros Hf. rewrite (Hoff1 Hf) in Hoff2. rewrite Hoff2; [reflexivity|exact Hf].
      * intros Hf. rewrite Hflag in Hon2. rewrite (Hon2 Hf), (Hon1 Hf). simpl. lia.
Qed.

Lemma usages_ok (f : list scalar -> Q) :
  forall (l : list nat) (i : nat) (q : VectorQuantizer2),
    i + length l <= length (ema_vocab_hit_SV q) ->
    mapMM (fun sp : nat * nat => bindM (ema_row (fst sp)) (fun row => ret (f row)))
      (enumerate_from i l) q
    = (Ok (map f (firstn (length l) (skipn i (ema_vocab_hit_SV q)))), q).
Proof.
  induction l as [|a l IH]; intros i q H; simpl; [reflexivity|].
  simpl in H.
  destruct (nth_error (ema_vocab_hit_SV q) i) as [row|] eqn:E;
    [|apply nth_error_None in E; lia].
  unfold bindM at 1. unfold bindM at 1. unfold ema_row, getitem. rewrite E.
  unfold ret at 1. unfold bindM at 1. rewrite IH by lia. unfold ret.
  pose proof (firstn_skipn i (ema_vocab_hit_SV q)) as Hsplit.
  assert (Hsk : skipn i (ema_vocab_hit_SV q)
                = row :: skipn (S i) (ema_vocab_hit_SV q)).
  { clear -E. revert i E. induction (ema_vocab_hit_SV q) as [|y ys IHy];
      intros [|i] E; simpl in *; try discriminate.
    - inversion E; reflexivity.
    - apply IHy. exact E. }
  rewrite Hsk. reflexivity.
Qed.

End ForwardLemmas.

Section ForwardMain.

Context {BE : Backend}.

Lemma as_float32_shape (x : tensor) : shape (as_float32 x) = shape x.
Proof. unfold as_float32. destruct (dtype_eqb _ _); reflexivity. Qed.

Lemma as_float32_dtype (x : tensor) : dtype_of (as_float32 x) = float32.
Proof.
  unfold as_float32. destruct (dtype_of x) eqn:E; simpl; try reflexivity.
  exact E.
Qed.

Lemma as_float32_length (x : tensor) :
  length (data (as_float32 x)) = length (data x).
Proof.
  unfold as_float32. destruct (dtype_eqb _ _); simpl; [reflexivity|].
  apply length_map.
Qed.

Lemma forward_init_ok (q : VectorQuantizer2) (x : tensor) (B HW : nat) :
  shape x = [B; Cvae q; HW; HW] -> dtype_of x = float32 ->
  locals_ok q B HW (forward_init x (vocab_size q)).
Proof.
  intros Hs Hd. unfold forward_init, zeros_like, zeros, clone, detach.
  constructor; cbn [f_hat f_rest vocab_hit_V shape dtype_of data]; auto.
  - rewrite repeat_length, Hs. simpl. apply Nat.eq_le_incl. ring.
  - apply repeat_length.
Qed.

(** [forward] runs to its end on a valid input. *)
Lemma forward_ok (env : DistEnv) (ws : nat) (q : VectorQuantizer2)
    (x : tensor) (B HW : nat) (ret_usages : bool) :
  well_formed q -> env_ready env ws -> valid_input q x B HW ->
  exists st q' out loss,
    forward_locals env q x B HW = (Ok st, q') /\
    forward env x ret_usages q
    = (Ok (out,
           (if ret_usages
            then Some (map (fun row =>
                              usage_percent row
                                (margin_of ws B (Cvae q) HW HW (vocab_size q)))
                           (ema_vocab_hit_SV q'))
            else None),
           loss), q') /\
    shape out = [B; Cvae q; HW; HW] /\ dtype_of out = float32 /\
    data out = map2 sadd (map2 ssub (data (f_hat st)) (data (as_float32 x)))
                 (data (as_float32 x)) /\
    length (data (f_hat st)) <= length (data (as_float32 x)) /\
    loss_is_tensor loss /\
    same_module q q' /\ well_formed q' /\
    (training q && initialized env = false -> q' = q) /\
    (training q && initialized env = true ->
     record_hit q' = record_hit q + length (v_patch_nums q)).
Proof.
  intros Hwf Henv (Hxs & Hlast & Hxl).
  pose proof (as_float32_shape x) as Hs32. rewrite Hxs in Hs32.
  pose proof (as_float32_dtype x) as Hd32.
  destruct (forward_loop_ok env ws (as_float32 x) B HW (v_patch_nums q) 0 q
              (forward_init (as_float32 x) (vocab_size q)) Hwf Henv Hs32 Hd32
              eq_refl Hlast (forward_init_ok q _ B HW Hs32 Hd32) I)
    as (st & q' & Hloop & Hlo & Hlt & Hsame & Hwf' & Hoff & Hon).
  pose proof (wf_scales q Hwf) as Hsc.
  assert (Hlt' : loss_is_tensor (mean_vq_loss st))
    by (apply Hlt; destruct (v_patch_nums q); simpl in Hsc; [lia | discriminate]).
  destruct Hlo as [Hfs Hfd Hfl _ _ _].
  destruct (binop_float32 ssub (f_hat st) (as_float32 x) _ Hfs Hs32 Hfd Hd32)
    as (d & Hd & Hds & Hdd & Hddata).
  destruct (binop__float32 sadd d (as_float32 x) _ Hds Hs32 Hdd)
    as (out & Hout & Houts & Houtd & Houtdata).
  exists st, q', out.
  exists (pyval_imul (mean_vq_loss st) (1 / Qnat (length (v_patch_nums q)))).
  split; [exact Hloop|].
  split.
  - unfold forward.
    change (if dtype_eqb (dtype_of x) float32 then x else to_float x)
      with (as_float32 x).
    cbv zeta. rewrite Hs32. rewrite bindM_self.
    unfold enumerate, forward_locals, enumerate in *.
    unfold bindM at 1. rewrite Hloop.
    rewrite bindM_lift. unfold truediv at 1.
    rewrite (Qnat_nonzero (length (v_patch_nums q))) by lia.
    unfold straight_through, sub, add_, detach.
    rewrite bindM_lift, Hd. cbn [bind]. rewrite Hout.
    unfold usage_margin. destruct Henv as [_ Hws]. rewrite bindM_lift, Hws.
    cbn [bind]. rewrite Hs32. cbn [getitem nth_error bind].
    unfold truediv.
    rewrite (Qnat_nonzero (Cvae q)) by (apply (wf_channels q Hwf)).
    cbn [bind].
    rewrite (Qnat_nonzero (vocab_size q)) by (apply (wf_vocab q Hwf)).
    cbn [bind].
    destruct ret_usages.
    + unfold bindM at 1. unfold bindM at 1.
      assert (Hlen : length (ema_vocab_hit_SV q') = length (v_patch_nums q)).
      { destruct Hsame as (e & n & ->). destruct (wf_ema _ Hwf') as [Hl _].
        exact Hl. }
      rewrite usages_ok by (simpl; lia).
      simpl skipn. rewrite <- Hlen, firstn_all.
      unfold ret, margin_of, numel. rewrite Hs32. reflexivity.
    + rewrite bindM_ret. reflexivity.
  - split; [exact Houts|]. split; [exact Houtd|].
    split; [rewrite Houtdata, Hddata; reflexivity|].
    split.
    + rewrite as_float32_length, Hxl. unfold numel. rewrite Hxs. simpl.
      etransitivity; [exact Hfl|]. apply Nat.eq_le_incl. ring.
    + split.
      * destruct (mean_vq_loss st); [contradiction|]. exact Hlt'.
      * split; [exact Hsame|]. split; [exact Hwf'|].
        split; [exact Hoff | exact Hon].
Qed.

End ForwardMain.

Section ForwardState.

Context {BE : Backend}.

(** Without an initialized process group no scale touches the module. *)
Lemma forward_scale_state (env : DistEnv) (x x' : tensor)
    (B C H W SN si pn : nat) (st : fwd_locals) (q : VectorQuantizer2) :
  initialized env = false ->
  snd (forward_scale env x x' B C H W SN si pn st q) = q.
Proof.
  intros Hinit. unfold forward_scale. rewrite bindM_self. cbv zeta.
  rewrite Hinit, andb_false_r.
  repeat (apply bindM_state; [reflexivity | intros ?]).
  reflexivity.
Qed.

Lemma forward_loop_state (env : DistEnv) (x x' : tensor) (B C H W SN : nat) :
  initialized env = false ->
  forall (scales : list (nat * nat)) (st : fwd_locals) (q : VectorQuantizer2),
    snd (forward_loop env x x' B C H W SN scales st q) = q.
Proof.
  intros Hinit. induction scales as [|[si pn] scales IH]; intros st q; simpl.
  - reflexivity.
  - apply bindM_state; [apply forward_scale_state; exact Hinit|].
    intros st'. apply IH.
Qed.

Lemma mapMM_state {A B} (f : A -> M B) (xs : list A) (q : VectorQuantizer2) :
  (forall a, snd (f a q) = q) -> snd (mapMM f xs q) = q.
Proof.
  intros Hf. induction xs as [|a xs IH]; simpl; [reflexivity|].
  apply bindM_state; [apply Hf|]. intros y.
  apply bindM_state; [exact IH|]. intros ys. reflexivity.
Qed.

Lemma forward_state (env : DistEnv) (x : tensor) (ret_usages : bool)
    (q : VectorQuantizer2) :
  initialized env = false ->
  snd (forward env x ret_usages q) = q.
Proof.
  intros Hinit. unfold forward. cbv zeta.
  destruct (shape _) as [|B [|C [|H [|W [|]]]]]; try reflexivity.
  rewrite bindM_self.
  apply bindM_state; [apply forward_loop_state; exact Hinit|]. intros st.
  repeat (apply bindM_state; [reflexivity | intros ?]).
  apply bindM_state.
  - destruct ret_usages; [|reflexivity].
    apply bindM_state; [|intros; reflexivity].
    apply mapMM_state. intros sp.
    apply bindM_state; [reflexivity | intros; reflexivity].
  - intros us. reflexivity.
Qed.



Lemma Qnat_mul (a b : nat) : (Qnat (a * b) == Qnat a * Qnat b)%Q.
Proof.
  unfold Qnat. rewrite Nat2Z.inj_mul, inject_Z_mult. reflexivity.
Qed.

Lemma margin_of_closed_form (ws B C H W V : nat) :
  C <> 0 ->
  (margin_of ws B C H W V == Qnat ws * Qnat (B * H * W) / Qnat V * (8 # 100))%Q.
Proof.
  intros HC. unfold margin_of. simpl prod_shape.
  rewrite !Qnat_mul. change (Qnat 1) with 1%Q.
  pose proof (Qnat_neq0 C HC).
  unfold Qdiv. rewrite <- !Qmult_assoc.
  apply Qmult_comp; [reflexivity|].
  rewrite !Qmult_assoc. apply Qmult_comp; [|reflexivity].
  apply Qmult_comp; [|reflexivity].
  field. exact H0.
Qed.

End ForwardState.

(** ** The exact backend and its small quantizers *)

Lemma quantizer_from_init : Exact.make [1; 2] (1 # 2) 4 = Ok Exact.quantizer.
Proof. reflexivity. Qed.

Lemma plain_quantizer_from_init : Exact.make [1; 2] 0 4 = Ok Exact.plain_quantizer.
Proof. reflexivity. Qed.

Lemma quantizer_well_formed : well_formed Exact.quantizer.
Proof.
  constructor; simpl; try lia; try discriminate.
  - split; [discriminate | reflexivity].
  - repeat constructor.
  - repeat constructor; discriminate.
  - split; [reflexivity | repeat constructor].
Qed.

Lemma plain_quantizer_well_formed : well_formed Exact.plain_quantizer.
Proof.
  constructor; simpl; try lia; try discriminate.
  - split; [discriminate | reflexivity].
  - repeat constructor.
  - repeat constructor; discriminate.
  - split; [reflexivity | repeat constructor].
Qed.

Lemma single_rank_ready : env_ready Exact.single_rank 1.
Proof. split; reflexivity. Qed.

Lemma not_distributed_ready : env_ready Exact.not_distributed 1.
Proof. split; reflexivity. Qed.

Lemma sample_valid : valid_input Exact.quantizer Exact.sample 1 2.
Proof. repeat split. Qed.

Lemma pair_valid : valid_input Exact.plain_quantizer Exact.pair 2 2.
Proof. repeat split. Qed.


Lemma exact_comm (a b : Qc) : sadd a b = sadd b a.
Proof. simpl. ring. Qed.

(** ** No assertion on the path of [forward] *)

Section NoAssertion.

Context {BE : Backend}.





































End NoAssertion.

(** ** The decode steps *)

Section DecodeLemmas.

Context {BE : Backend}.

Lemma get_next_mask_input_inv (q : VectorQuantizer2) (si SN : nat)
    (f_hat h_BChw a b : tensor) :
  fst (get_next_mask_input q si SN f_hat h_BChw) = Ok (a, b) ->
  exists HW pn up h,
    last_item (v_patch_nums q) = Ok HW /\
    interpolate h_BChw HW HW bicubic = Ok up /\
    refine q si SN up = Ok h /\
    getitem (v_patch_nums q) si = Ok pn /\
    interpolate f_hat pn pn area = Ok a /\
    interpolate h pn pn area = Ok b.
Proof.
  unfold get_next_mask_input, clone. cbn [fst]. intros H.
  apply bind_Ok in H. destruct H as (HW & H1 & H).
  apply bind_Ok in H. destruct H as (u & Hu & H).
  apply bind_Ok in H. destruct H as (up & H2 & H).
  apply bind_Ok in H. destruct H as (h & H3 & H).
  assert (H3' : refine q si SN up = Ok h) by (apply refine_split; eauto).
  clear H3. rename H3' into H3.
  apply bind_Ok in H. destruct H as (pn & H4 & H).
  apply bind_Ok in H. destruct H as (a' & H5 & H).
  apply bind_Ok in H. destruct H as (pn' & H6 & H).
  apply bind_Ok in H. destruct H as (b' & H7 & H).
  inversion H; subst a' b'. rewrite H4 in H6. inversion H6; subst pn'.
  exists HW, pn, up, h. auto 10.
Qed.

Lemma get_next_autoregressive_input_inv (q : VectorQuantizer2) (si SN : nat)
    (f_hat h_BChw f_hat' : tensor) (outs : tensor * tensor) :
  not_last si SN = true ->
  get_next_autoregressive_input q si SN f_hat h_BChw = (Ok outs, f_hat') ->
  exists HW up h,
    last_item (v_patch_nums q) = Ok HW /\
    interpolate h_BChw HW HW bicubic = Ok up /\
    refine q si SN up = Ok h /\
    add_ f_hat h = Ok f_hat' /\
    fst outs = f_hat'.
Proof.
  intros Hnl. unfold get_next_autoregressive_input. rewrite Hnl.
  destruct (last_item (v_patch_nums q)) as [HW|e] eqn:E1; [|discriminate].
  destruct (lookup_unit q si SN) as [u|e] eqn:Eu; cbn [bind]; [|discriminate].
  destruct (interpolate h_BChw HW HW bicubic) as [up|e] eqn:E2; cbn [bind];
    [|discriminate].
  destruct (unit_forward u up) as [h|e] eqn:E3'; cbn [bind]; [|discriminate].
  assert (E3 : refine q si SN up = Ok h) by (apply refine_split; eauto).
  destruct (add_ f_hat h) as [f1|e] eqn:E4; [|discriminate].
  intros H. inversion H as [[Hout Hf]]. subst f1.
  apply bind_Ok in Hout. destruct Hout as (pn' & _ & Hout).
  apply bind_Ok in Hout. destruct Hout as (nxt & _ & Hout).
  inversion Hout; subst outs.
  exists HW, up, h. auto 10.
Qed.

Lemma get_next_mask_input_ok (q : VectorQuantizer2) (si SN : nat)
    (f_hat h_BChw : tensor) (B ph pw B' C' H' W' : nat) :
  well_formed q -> SN <> 1 -> si < length (v_patch_nums q) ->
  shape h_BChw = [B; Cvae q; ph; pw] -> ph <> 0 -> pw <> 0 ->
  dtype_of h_BChw = float32 ->
  shape f_hat = [B'; C'; H'; W'] -> H' <> 0 -> W' <> 0 ->
  exists a b, fst (get_next_mask_input q si SN f_hat h_BChw) = Ok (a, b).
Proof.
  intros Hwf HSN Hsi Hhs Hph Hpw Hhd Hfs HH HW.
  pose proof (wf_positive q Hwf) as Hpos. rewrite Forall_forall in Hpos.
  destruct (v_patch_nums q) as [|p0 ps] eqn:Evp; [simpl in Hsi; lia|].
  assert (Hlast : exists L, last_item (v_patch_nums q) = Ok L /\ L <> 0).
  { rewrite Evp. eexists. split; [reflexivity|].
    apply Hpos. apply (last_item_In (p0 :: ps)). reflexivity. }
  destruct Hlast as (L & Hlast & HL).
  destruct (getitem_lt (v_patch_nums q) si ltac:(rewrite Evp; exact Hsi))
    as (pn & Hpn).
  assert (Hpn0 : pn <> 0).
  { apply Hpos. rewrite <- Evp. apply getitem_Ok in Hpn.
    eapply nth_error_In; eauto. }
  destruct (interpolate_ok h_BChw B (Cvae q) ph pw L L bicubic Hhs Hph Hpw HL HL)
    as (up & Hup & Hups & Hupd).
  destruct (refine_ok q si SN up B L L (wf_policy q Hwf) (wf_units q Hwf) HSN
              Hups ltac:(congruence)) as (h & Hh & Hhs' & _).
  destruct (interpolate_ok f_hat B' C' H' W' pn pn area Hfs HH HW Hpn0 Hpn0)
    as (a & Ha & _).
  destruct (interpolate_ok h B (Cvae q) L L pn pn area Hhs' HL HL Hpn0 Hpn0)
    as (b & Hb & _).
  apply refine_split in Hh. destruct Hh as (u & Hu & Hh).
  exists a, b. unfold get_next_mask_input, clone. cbn [fst].
  rewrite Hlast. cbn [bind]. rewrite Hu. cbn [bind].
  rewrite Hup. cbn [bind]. rewrite Hh. cbn [bind].
  rewrite Hpn. cbn [bind]. rewrite Ha. cbn [bind]. rewrite Hb. reflexivity.
Qed.

End DecodeLemmas.

(** ** Concatenation along the token axis *)

Section CatLemmas.

Context {BE : Backend}.

Lemma flat_map_ext_in {A B} (f g : A -> list B) (l : list A) :
  (forall a, In a l -> f a = g a) -> flat_map f l = flat_map g l.
Proof.
  induction l as [|a l IH]; intros H; simpl; [reflexivity|].
  rewrite (H a (or_introl eq_refl)), IH; [reflexivity|].
  intros b Hb. apply H. right. exact Hb.
Qed.

Lemma flat_map_length_const {A B} (f : A -> list B) (l : list A) (n : nat) :
  (forall a, In a l -> length (f a) = n) ->
  length (flat_map f l) = length l * n.
Proof.
  induction l as [|a l IH]; intros H; simpl; [reflexivity|].
  rewrite length_app, (H a (or_introl eq_refl)), IH; [reflexivity|].
  intros b Hb. apply H. right. exact Hb.
Qed.

(** The [b]-th of the blocks of a concatenation of [n]-element blocks. *)
Lemma block_of_flat_map {A} (f : nat -> list A) (n : nat) :
  forall (B a b : nat),
    (forall i, a <= i < a + B -> length (f i) = n) ->
    b < B ->
    firstn n (skipn (b * n) (flat_map f (seq a B))) = f (a + b).
Proof.
  induction B as [|B IH]; intros a b Hlen Hb; [lia|].
  simpl. destruct b as [|b].
  - simpl. rewrite Nat.add_0_r.
    rewrite firstn_app, (Hlen a ltac:(lia)), Nat.sub_diag. simpl.
    rewrite app_nil_r. apply firstn_all2. rewrite (Hlen a); lia.
  - replace (S b * n) with (length (f a) + b * n)
      by (rewrite (Hlen a ltac:(lia)); simpl; lia).
    rewrite skipn_app.
    rewrite (skipn_all2 (f a)) by lia. simpl.
    replace (length (f a) + b * n - length (f a)) with (b * n) by lia.
    rewrite IH; [f_equal; lia | intros i Hi; apply Hlen; lia | lia].
Qed.

(** Reading the blocks of a list one after the other gives it back. *)
Lemma blocks_of_list {A} (n : nat) :
  forall (B a : nat) (xs : list A),
    length xs = B * n ->
    flat_map (fun b => firstn n (skipn ((b - a) * n) xs)) (seq a B) = xs.
Proof.
  induction B as [|B IH]; intros a xs Hlen; simpl.
  - destruct xs; [reflexivity | discriminate].
  - rewrite Nat.sub_diag. simpl.
    etransitivity; [|apply (firstn_skipn n xs)]. f_equal.
    etransitivity;
      [|apply (IH (S a) (skipn n xs)); rewrite length_skipn; simpl in Hlen; lia].
    apply flat_map_ext_in. intros b Hb. apply in_seq in Hb.
    rewrite skipn_skipn. f_equal. f_equal.
    replace (b - a) with (S (b - S a)) by lia. simpl. lia.
Qed.

(** The piece of a concatenation that starts where [pre] ends. *)
Lemma piece_of_concat {A} (pre : list (list A)) (x : list A) (post : list (list A)) :
  firstn (length x) (skipn (length (concat pre)) (concat (pre ++ x :: post))) = x.
Proof.
  rewrite concat_app, skipn_app, skipn_all, Nat.sub_diag. simpl.
  rewrite firstn_app, Nat.sub_diag. simpl.
  rewrite firstn_all. apply app_nil_r.
Qed.

Lemma batch_slice_length (t : tensor) (B C l b : nat) :
  sized3 B C l t -> b < B -> length (batch_slice t b) = l * C.
Proof.
  intros (Hs & _ & Hl) Hb. unfold batch_slice. rewrite Hs.
  rewrite length_firstn, length_skipn, Hl. nia.
Qed.

Lemma batch_slices (t : tensor) (B C l : nat) :
  sized3 B C l t -> flat_map (batch_slice t) (seq 0 B) = data t.
Proof.
  intros (Hs & _ & Hl).
  etransitivity; [|apply (blocks_of_list (l * C) B 0 (data t)); exact Hl].
  apply flat_map_ext_in. intros b _. unfold batch_slice. rewrite Hs.
  rewrite Nat.sub_0_r. reflexivity.
Qed.

Lemma cat_dim1_sized (segs : list tensor) (B C : nat) (ls : list nat) :
  segs <> [] ->
  Forall2 (fun l t => sized3 B C l t) ls segs ->
  exists out, cat_dim1 segs = Ok out /\
              shape out = [B; fold_right Nat.add 0 ls; C] /\
              dtype_of out = float32 /\
              data out = flat_map (fun b => flat_map (fun t => batch_slice t b) segs)
                           (seq 0 B).
Proof.
  intros Hne HF. unfold cat_dim1.
  destruct segs as [|t0 segs]; [congruence|].
  inversion HF as [|l0 t0' ls' segs' (Hs0 & Hd0 & Hl0) HF']; subst.
  rewrite Hs0.
  assert (Hall : forallb (cat_compatible B C (dtype_of t0)) (t0 :: segs) = true).
  { apply forallb_forall. intros t Ht.
    assert (Hsz : exists l, sized3 B C l t).
    { clear -HF Ht. destruct Ht as [<-|Ht].
      - inversion HF; subst; eauto.
      - inversion HF; subst. clear -H4 Ht.
        induction H4; [contradiction|]. destruct Ht as [<-|Ht]; eauto. }
    destruct Hsz as (l & Hs & Hd & _).
    unfold cat_compatible. rewrite Hs, Hd, Hd0, !Nat.eqb_refl. reflexivity. }
  rewrite Hall. eexists. split; [reflexivity|].
  cbn [shape dtype_of data]. split; [|split; [exact Hd0 | reflexivity]].
  f_equal. f_equal.
  clear -HF. induction HF as [|l1 t1 ls1 segs1 [Hs1 _] HF1 IH]; [reflexivity|].
  simpl. rewrite IH. unfold dim1 at 1. rewrite Hs1. reflexivity.
Qed.

(** Narrowing a concatenation to the rows of its [k]-th part gives that
    part back. *)
Lemma narrow_cat (segs : list tensor) (B C : nat) (ls : list nat)
    (out : tensor) (k : nat) (t : tensor) :
  Forall2 (fun l t => sized3 B C l t) ls segs ->
  cat_dim1 segs = Ok out ->
  nth_error segs k = Some t ->
  narrow_dim1 out (fold_right Nat.add 0 (firstn k ls)) (nth k ls 0) = t.
Proof.
  intros HF Hcat Hk.
  assert (Hne : segs <> []) by (destruct segs; [destruct k; discriminate | discriminate]).
  destruct (cat_dim1_sized segs B C ls Hne HF) as (out' & Hout & Hs & Hd & Hdata).
  rewrite Hcat in Hout. inversion Hout; subst out'. clear Hout.
  (* the part and its neighbours *)
  destruct (nth_error_split segs k Hk) as (pre & post & Hsegs & Hpre).
  assert (Hls : exists lpre l lpost, ls = lpre ++ l :: lpost /\ length lpre = k /\
                  Forall2 (fun l t => sized3 B C l t) lpre pre /\
                  sized3 B C l t /\
                  Forall2 (fun l t => sized3 B C l t) lpost post).
  { subst segs. apply Forall2_app_inv_r in HF.
    destruct HF as (lpre & lrest & Hpre' & Hrest & ->).
    inversion Hrest as [|l t' lpost post' Ht Hpost]; subst.
    exists lpre, l, lpost. split; [reflexivity|].
    split; [apply Forall2_length in Hpre'; congruence|].
    split; [exact Hpre'|]. split; [exact Ht | exact Hpost]. }
  destruct Hls as (lpre & l & lpost & -> & Hlk & HFpre & Ht & HFpost).
  rewrite firstn_app, Hlk, Nat.sub_diag, firstn_all2 by lia.
  simpl firstn. rewrite app_nil_r.
  rewrite app_nth2, Hlk, Nat.sub_diag by lia. simpl nth.
  destruct t as [dt st xs]. destruct Ht as (Hst & Hdt & Hxl). simpl in Hst, Hdt, Hxl.
  unfold narrow_dim1. rewrite Hs. rewrite Hd, <- Hdt, <- Hst. f_equal.
  etransitivity;
    [|apply (batch_slices {| dtype_of := dt; shape := st; data := xs |} B C l);
      repeat split; assumption].
  apply flat_map_ext_in. intros b Hb. apply in_seq in Hb.
  (* the slice of sample b in the concatenation *)
  set (G := fun b => flat_map (fun t => batch_slice t b) segs).
  assert (HG : forall b', b' < B ->
             length (G b') = fold_right Nat.add 0 (lpre ++ l :: lpost) * C).
  { intros b' Hb'. unfold G. clear -HF Hb'.
    induction HF as [|l' t' ls' segs' Ht' HF IH]; [reflexivity|].
    simpl. rewrite length_app, IH.
    rewrite (batch_slice_length t' B C l' b' Ht' Hb'). lia. }
  assert (Hslice : batch_slice out b = G b).
  { unfold batch_slice. rewrite Hs, Hdata. fold G.
    rewrite (block_of_flat_map G _ B 0 b); [reflexivity | | lia].
    intros i Hi. apply HG. lia. }
  rewrite Hslice. unfold G. subst segs.
  rewrite !flat_map_concat_map, map_app. simpl map.
  assert (Hplen : length (concat (map (fun t => batch_slice t b) pre))
                  = fold_right Nat.add 0 lpre * C).
  { clear -HFpre Hb. induction HFpre as [|l' t' ls' segs' Ht' HF IH]; [reflexivity|].
    simpl. rewrite length_app, IH.
    rewrite (batch_slice_length t' B C l' b Ht'); lia. }
  rewrite <- Hplen.
  assert (Htl : length (batch_slice {| dtype_of := dt; shape := st; data := xs |} b)
                = l * C).
  { apply (batch_slice_length _ B C l b); [repeat split; assumption | lia]. }
  rewrite <- Htl. apply piece_of_concat.
Qed.

End CatLemmas.

(** ** Sequences of per-scale tokens *)

Section SequenceLemmas.

Context {BE : Backend}.

Lemma binop__keeps f (a b r : tensor) :
  binop_ f a b = Ok r -> shape r = shape a /\ dtype_of r = dtype_of a.
Proof.
  unfold binop_. destruct (shape_eqb (shape a) (shape b)).
  - intros H. inversion H. auto.
  - destruct (broadcast_shapes (shape a) (shape b)) as [s|]; [|discriminate].
    destruct (shape_eqb s (shape a)); [|discriminate].
    intros H. inversion H. auto.
Qed.

Lemma interpolate_inv (t t' : tensor) (B C H W h w : nat) (m : interp_mode) :
  shape t = [B; C; H; W] -> interpolate t h w m = Ok t' ->
  shape t' = [B; C; h; w] /\ dtype_of t' = dtype_of t.
Proof.
  intros Hs. unfold interpolate. rewrite Hs.
  destruct (_ || _)%bool; [discriminate|].
  intros E. inversion E. auto.
Qed.

Lemma transpose12_length {A} (d : A) (B M N : nat) (xs : list A) :
  length (transpose12 d B M N xs) = B * (N * M).
Proof.
  unfold transpose12.
  rewrite (flat_map_length_const _ _ (N * M)), length_seq; [reflexivity|].
  intros b _.
  rewrite (flat_map_length_const _ _ M), length_seq; [reflexivity|].
  intros n _. rewrite length_map, length_seq. reflexivity.
Qed.

Lemma downsample_tokens_sized (t tok : tensor) (B C H W pn : nat) :
  shape t = [B; C; H; W] -> dtype_of t = float32 ->
  downsample_tokens t B C pn = Ok tok ->
  sized3 B C (pn * pn) tok.
Proof.
  intros Hs Hd. unfold downsample_tokens. intros E.
  apply bind_Ok in E. destruct E as (a & Ha & E).
  apply bind_Ok in E. destruct E as (v & Hv & E).
  destruct (interpolate_inv t a B C H W pn pn area Hs Ha) as [Has Had].
  unfold view_B_C_rest in Hv.
  destruct (Nat.eqb_spec (B * C) 0) as [|HBC]; [discriminate|].
  destruct (Nat.eqb (numel a mod (B * C)) 0); [|discriminate].
  inversion Hv; subst v. clear Hv.
  assert (Hn : numel a = pn * pn * (B * C))
    by (unfold numel; rewrite Has; simpl; ring).
  rewrite Hn, Nat.div_mul in E by exact HBC.
  unfold transpose_1_2 in E. cbn [shape dtype_of data] in E.
  inversion E; subst tok. unfold sized3. cbn [shape dtype_of data].
  split; [reflexivity|]. split; [congruence|].
  apply transpose12_length.
Qed.

Lemma Forall2_app_one {A B} (P : A -> B -> Prop) (l : list A) (l' : list B) a b :
  Forall2 P l l' -> P a b -> Forall2 P (l ++ [a]) (l' ++ [b]).
Proof. intros H Hab. apply Forall2_app; [exact H | repeat constructor; exact Hab]. Qed.

Lemma Forall2_seq_shift {B} (P : nat -> B -> Prop) (a n : nat) (l : list B) :
  Forall2 (fun si => P (S si)) (seq a n) l -> Forall2 P (seq (S a) n) l.
Proof.
  revert a l. induction n as [|n IH]; intros a l H; simpl in *.
  - inversion H. constructor.
  - inversion H; subst. constructor; [assumption|]. apply IH. assumption.
Qed.

Lemma Forall2_nth_seq {B} (P : nat -> B -> Prop) (a n : nat) (l : list B) (k : nat) :
  Forall2 P (seq a n) l -> k < n ->
  exists b, nth_error l k = Some b /\ P (a + k) b.
Proof.
  revert a l k. induction n as [|n IH]; intros a l k H Hk; [lia|].
  simpl in H. inversion H; subst. destruct k as [|k].
  - rewrite Nat.add_0_r. eexists. split; [reflexivity | assumption].
  - destruct (IH (S a) l' k H4 ltac:(lia)) as (b & Hb & HP).
    exists b. split; [exact Hb|]. replace (a + S k) with (S a + k) by lia. exact HP.
Qed.

Lemma Forall2_sized_map (q : VectorQuantizer2) (B C a n : nat) (segs : list tensor) :
  Forall2 (fun si tok => sized3 B C (query_length q si) tok) (seq a n) segs ->
  Forall2 (fun l t => sized3 B C l t) (map (query_length q) (seq a n)) segs.
Proof.
  revert a segs. induction n as [|n IH]; intros a segs H; simpl in *.
  - inversion H. constructor.
  - inversion H; subst. constructor; [assumption|]. apply IH. assumption.
Qed.

Lemma query_offset_succ (q : VectorQuantizer2) (i : nat) :
  1 <= i -> query_offset q (S i) = query_offset q i + query_length q i.
Proof.
  intros Hi. unfold query_offset.
  replace (S i - 1) with (S (i - 1)) by lia.
  rewrite seq_S, map_app.
  replace (1 + (i - 1)) with i by lia.
  generalize (map (query_length q) (seq 1 (i - 1))).
  intros l. induction l as [|x l IH]; simpl in *; lia.
Qed.

Lemma firstn_seq_le (k a n : nat) : k <= n -> firstn k (seq a n) = seq a k.
Proof.
  revert a n. induction k as [|k IH]; intros a n H; [reflexivity|].
  destruct n as [|n]; [lia|]. simpl. f_equal. apply IH. lia.
Qed.

(** In a concatenation of the tokens of the scales 1..n, the segment
    of scale [i] is the [i]-th part. *)
Lemma narrow_cat_query (q : VectorQuantizer2) (B C n : nat)
    (segs : list tensor) (out : tensor) (i : nat) :
  Forall2 (fun si tok => sized3 B C (query_length q si) tok) (seq 1 n) segs ->
  cat_dim1 segs = Ok out ->
  1 <= i <= n ->
  exists tok, nth_error segs (i - 1) = Some tok /\ query_segment q out i = tok.
Proof.
  intros HF Hcat Hi.
  destruct (Forall2_nth_seq _ 1 n segs (i - 1) HF ltac:(lia)) as (tok & Htok & _).
  exists tok. split; [exact Htok|].
  pose proof (narrow_cat segs B C (map (query_length q) (seq 1 n)) out (i - 1) tok
                (Forall2_sized_map q B C 1 n segs HF) Hcat Htok) as Hn.
  unfold query_segment, query_offset.
  rewrite firstn_map, firstn_seq_le in Hn by lia.
  rewrite (nth_indep _ 0 (query_length q 0)) in Hn
    by (rewrite length_map, length_seq; lia).
  rewrite map_nth, seq_nth in Hn by lia.
  replace (1 + (i - 1)) with i in Hn by lia.
  exact Hn.
Qed.

(** *** The loop of [idxBl_to_ns_input] *)

Lemma ns_scale_gt (q : VectorQuantizer2) (gt1 gt2 : list itensor)
    (B C H W SN si : nat) (st : ns_locals) :
  nth_error gt1 si = nth_error gt2 si ->
  ns_scale q gt1 B C H W SN si st = ns_scale q gt2 B C H W SN si st.
Proof.
  intros E. unfold ns_scale, getitem. rewrite E. reflexivity.
Qed.

Lemma ns_loop_gt (q : VectorQuantizer2) (gt1 gt2 : list itensor)
    (B C H W SN : nat) (sis : list nat) :
  (forall si, In si sis -> nth_error gt1 si = nth_error gt2 si) ->
  forall st, ns_loop q gt1 B C H W SN sis st = ns_loop q gt2 B C H W SN sis st.
Proof.
  induction sis as [|si sis IH]; intros Hgt st; simpl; [reflexivity|].
  rewrite (ns_scale_gt q gt1 gt2 B C H W SN si st) by (apply Hgt; left; reflexivity).
  destruct (ns_scale q gt2 B C H W SN si st); simpl; [|reflexivity].
  apply IH. intros sj Hsj. apply Hgt. right. exact Hsj.
Qed.

Lemma ns_loop_app (q : VectorQuantizer2) (gt : list itensor)
    (B C H W SN : nat) (sis1 sis2 : list nat) (st : ns_locals) :
  ns_loop q gt B C H W SN (sis1 ++ sis2) st
  = bind (ns_loop q gt B C H W SN sis1 st) (ns_loop q gt B C H W SN sis2).
Proof.
  revert st. induction sis1 as [|si sis1 IH]; intros st; simpl; [reflexivity|].
  destruct (ns_scale q gt B C H W SN si st); simpl; [apply IH | reflexivity].
Qed.

Lemma ns_scale_inv (q : VectorQuantizer2) (gt : list itensor)
    (B C H W SN si : nat) (st st' : ns_locals) :
  shape (ns_f_hat st) = [B; C; H; W] -> dtype_of (ns_f_hat st) = float32 ->
  ns_scale q gt B C H W SN si st = Ok st' ->
  shape (ns_f_hat st') = [B; C; H; W] /\ dtype_of (ns_f_hat st') = float32 /\
  exists tok, next_scales st' = next_scales st ++ [tok] /\
              sized3 B C (query_length q (S si)) tok.
Proof.
  intros Hs Hd E. unfold ns_scale in E.
  apply bind_Ok in E. destruct E as (g & _ & E).
  apply bind_Ok in E. destruct E as (h & _ & E).
  apply bind_Ok in E. destruct E as (r & _ & E).
  apply bind_Ok in E. destruct E as (fh & Hfh & E).
  apply bind_Ok in E. destruct E as (pn' & Hpn & E).
  apply bind_Ok in E. destruct E as (tok & Htok & E).
  inversion E; subst st'. cbn [ns_f_hat next_scales].
  destruct (binop__keeps sadd _ _ _ Hfh) as [Hfs Hfd].
  rewrite Hfs, Hfd. split; [exact Hs|]. split; [exact Hd|].
  exists tok. split; [reflexivity|].
  unfold query_length.
  apply getitem_Ok in Hpn. rewrite Nat.add_1_r in Hpn.
  rewrite (nth_error_nth _ _ 0 Hpn).
  apply (downsample_tokens_sized fh tok B C H W pn');
    [congruence | congruence | exact Htok].
Qed.

Lemma ns_loop_inv (q : VectorQuantizer2) (gt : list itensor) (B C H W SN : nat) :
  forall (n a : nat) (st st' : ns_locals),
    shape (ns_f_hat st) = [B; C; H; W] -> dtype_of (ns_f_hat st) = float32 ->
    ns_loop q gt B C H W SN (seq a n) st = Ok st' ->
    shape (ns_f_hat st') = [B; C; H; W] /\ dtype_of (ns_f_hat st') = float32 /\
    exists new, next_scales st' = next_scales st ++ new /\
                Forall2 (fun si tok => sized3 B C (query_length q si) tok)
                  (seq (S a) n) new.
Proof.
  induction n as [|n IH]; intros a st st' Hs Hd E; simpl in E.
  - inversion E; subst. split; [exact Hs|]. split; [exact Hd|].
    exists []. rewrite app_nil_r. split; [reflexivity | constructor].
  - apply bind_Ok in E. destruct E as (st1 & Hstep & E).
    destruct (ns_scale_inv q gt B C H W SN a st st1 Hs Hd Hstep)
      as (Hs1 & Hd1 & tok & Hn1 & Hsz).
    destruct (IH (S a) st1 st' Hs1 Hd1 E) as (Hs' & Hd' & new & Hn & HF).
    split; [exact Hs'|]. split; [exact Hd'|].
    exists (tok :: new). rewrite Hn, Hn1, <- app_assoc. split; [reflexivity|].
    simpl. constructor; assumption.
Qed.

Lemma firstn_eq_nth_error {A} (l1 l2 : list A) (i j : nat) :
  firstn i l1 = firstn i l2 -> j < i -> nth_error l1 j = nth_error l2 j.
Proof.
  revert l1 l2 j. induction i as [|i IH]; intros l1 l2 j H Hj; [lia|].
  destruct l1 as [|x l1], l2 as [|y l2]; simpl in H; try discriminate;
    [reflexivity|].
  inversion H; subst. destruct j as [|j]; [reflexivity|].
  simpl. apply IH; [assumption | lia].
Qed.

Lemma ns_input_inv (q : VectorQuantizer2) (gt : list itensor) (out : tensor) :
  idxBl_to_ns_input q gt = Ok (Some out) ->
  exists segs, ns_segments q gt = Ok segs /\ cat_dim1 segs = Ok out.
Proof.
  unfold idxBl_to_ns_input. intros E.
  apply bind_Ok in E. destruct E as (segs & Hsegs & E).
  exists segs. split; [exact Hsegs|].
  destruct segs as [|t segs]; [discriminate|].
  apply bind_Ok in E. destruct E as (o & Ho & E).
  inversion E; subst. exact Ho.
Qed.

(** The first [i] segments of the teacher-forcing input are the same
    for two lists of ground-truth indices that agree on the scales
    [0 .. i-1]. *)
Lemma ns_segments_prefix (q : VectorQuantizer2) (gt1 gt2 : list itensor)
    (segs1 segs2 : list tensor) (i : nat) :
  1 <= i <= length (v_patch_nums q) - 1 ->
  firstn i gt1 = firstn i gt2 ->
  ns_segments q gt1 = Ok segs1 ->
  ns_segments q gt2 = Ok segs2 ->
  nth_error segs1 (i - 1) = nth_error segs2 (i - 1) /\
  exists B,
    Forall2 (fun si tok => sized3 B (Cvae q) (query_length q si) tok)
      (seq 1 (length (v_patch_nums q) - 1)) segs1 /\
    Forall2 (fun si tok => sized3 B (Cvae q) (query_length q si) tok)
      (seq 1 (length (v_patch_nums q) - 1)) segs2.
Proof.
  intros Hi Hgt E1 E2. unfold ns_segments in E1, E2.
  assert (H0 : nth_error gt1 0 = nth_error gt2 0)
    by (apply (firstn_eq_nth_error gt1 gt2 i 0 Hgt); lia).
  unfold getitem at 1 in E1. unfold getitem at 1 in E2. rewrite H0 in E1.
  destruct (nth_error gt2 0) as [gt0|]; [|discriminate].
  cbn [bind] in E1, E2.
  apply bind_Ok in E1. destruct E1 as (B & HB & E1).
  rewrite HB in E2. cbn [bind] in E2.
  apply bind_Ok in E1. destruct E1 as (HW & HHW & E1).
  rewrite HHW in E2. cbn [bind] in E2.
  apply bind_Ok in E1. destruct E1 as (pn0 & Hpn0 & E1).
  rewrite Hpn0 in E2. cbn [bind] in E2.
  apply bind_Ok in E1. destruct E1 as (st1 & L1 & E1).
  apply bind_Ok in E2. destruct E2 as (st2 & L2 & E2).
  inversion E1; subst segs1. inversion E2; subst segs2. clear E1 E2.
  set (SN := length (v_patch_nums q)) in *.
  set (init := {| ns_f_hat := zeros float32 [B; Cvae q; HW; HW];
                  pn_next := pn0; next_scales := [] |}) in *.
  assert (Hs0 : shape (ns_f_hat init) = [B; Cvae q; HW; HW]) by reflexivity.
  assert (Hd0 : dtype_of (ns_f_hat init) = float32) by reflexivity.
  split.
  - replace (SN - 1) with (i + (SN - 1 - i)) in L1, L2 by lia.
    rewrite seq_app, ns_loop_app in L1, L2.
    apply bind_Ok in L1. destruct L1 as (m1 & P1 & R1).
    apply bind_Ok in L2. destruct L2 as (m2 & P2 & R2).
    rewrite (ns_loop_gt q gt1 gt2) in P1.
    2:{ intros si Hsi. apply in_seq in Hsi.
        apply (firstn_eq_nth_error gt1 gt2 i si Hgt). lia. }
    rewrite P1 in P2. inversion P2; subst m2. clear P2.
    destruct (ns_loop_inv q gt2 B (Cvae q) HW HW SN i 0 init m1 Hs0 Hd0 P1)
      as (Hsm & Hdm & new & Hnew & HF).
    simpl in Hnew.
    destruct (ns_loop_inv q gt1 B (Cvae q) HW HW SN _ _ m1 st1 Hsm Hdm R1)
      as (_ & _ & new1 & Hnew1 & _).
    destruct (ns_loop_inv q gt2 B (Cvae q) HW HW SN _ _ m1 st2 Hsm Hdm R2)
      as (_ & _ & new2 & Hnew2 & _).
    rewrite Hnew1, Hnew2.
    assert (Hlen : length (next_scales m1) = i).
    { rewrite Hnew. apply Forall2_length in HF. rewrite length_seq in HF. lia. }
    rewrite !nth_error_app1 by lia. reflexivity.
  - exists B.
    destruct (ns_loop_inv q gt1 B (Cvae q) HW HW SN _ _ init st1 Hs0 Hd0 L1)
      as (_ & _ & new1 & Hnew1 & HF1).
    destruct (ns_loop_inv q gt2 B (Cvae q) HW HW SN _ _ init st2 Hs0 Hd0 L2)
      as (_ & _ & new2 & Hnew2 & HF2).
    simpl in Hnew1, Hnew2. rewrite Hnew1, Hnew2. split; assumption.
Qed.

End SequenceLemmas.

(** ** The loop of [idxBl_to_mask_input] *)

Section MaskLemmas.

Context {BE : Backend}.

Lemma mask_count_bounds (n : nat) (p : Q) :
  1 <= n -> (0 < p)%Q -> (p <= 1)%Q ->
  (1 <= Qceiling (Qnat n * p) <= Z.of_nat n)%Z.
Proof.
  intros Hn Hp0 Hp1.
  assert (Hn0 : (0 < Qnat n)%Q).
  { unfold Qnat. replace 0%Q with (inject_Z 0) by reflexivity.
    rewrite <- Zlt_Qlt. lia. }
  split.
  - assert (Hpos : (0 < Qnat n * p)%Q) by (apply Qmult_lt_0_compat; assumption).
    pose proof (Qle_ceiling (Qnat n * p)) as Hc.
    assert (H0 : (inject_Z 0 < inject_Z (Qceiling (Qnat n * p)))%Q)
      by (eapply Qlt_le_trans; [exact Hpos | exact Hc]).
    rewrite <- Zlt_Qlt in H0. lia.
  - rewrite <- (Qceiling_Z (Z.of_nat n)). apply Qceiling_resp_le.
    fold (Qnat n).
    rewrite <- (Qmult_1_r (Qnat n)) at 2.
    apply Qmult_le_l; assumption.
Qed.

Lemma transpose_1_2_ok (t : tensor) (B M N : nat) :
  shape t = [B; M; N] ->
  exists t', transpose_1_2 t = Ok t' /\ shape t' = [B; N; M] /\
             dtype_of t' = dtype_of t.
Proof.
  intros Hs. unfold transpose_1_2. rewrite Hs.
  eexists. split; [reflexivity|]. split; reflexivity.
Qed.

Lemma view_ok (t : tensor) (s : list nat) :
  prod_shape s = numel t ->
  exists t', view t s = Ok t' /\ shape t' = s /\ dtype_of t' = dtype_of t.
Proof.
  intros H. unfold view. rewrite H, Nat.eqb_refl.
  eexists. split; [reflexivity|]. split; reflexivity.
Qed.

Lemma downsample_tokens_ok (t : tensor) (B C H W pn : nat) :
  shape t = [B; C; H; W] -> H <> 0 -> W <> 0 -> pn <> 0 -> B <> 0 -> C <> 0 ->
  exists tok, downsample_tokens t B C pn = Ok tok.
Proof.
  intros Hs HH HW Hpn HB HC. unfold downsample_tokens.
  destruct (interpolate_ok t B C H W pn pn area Hs HH HW Hpn Hpn)
    as (a & Ha & Has & _).
  rewrite Ha. cbn [bind]. unfold view_B_C_rest.
  assert (Hn : numel a = pn * pn * (B * C))
    by (unfold numel; rewrite Has; simpl; ring).
  destruct (Nat.eqb_spec (B * C) 0) as [E|HBC]; [nia|].
  rewrite Hn, Nat.Div0.mod_mul, Nat.div_mul by exact HBC.
  cbn [Nat.eqb bind]. unfold transpose_1_2. cbn [shape].
  eexists. reflexivity.
Qed.

Lemma mask_contribution_ok (q : VectorQuantizer2) (gt : itensor)
    (B HW si pn : nat) :
  well_formed q ->
  ishape gt = [B; pn * pn] ->
  Forall (fun i => i < vocab_size q) (idata gt) ->
  B <> 0 -> HW <> 0 -> pn <> 0 ->
  exists tok,
    mask_contribution q gt B (Cvae q) HW HW (length (v_patch_nums q)) si pn = Ok tok /\
    sized3 B (Cvae q) (pn * pn) tok.
Proof.
  intros Hwf Hs Hi HB HHW Hpn.
  unfold mask_contribution, embed_upsample.
  destruct (embedding_lookup_ok q gt) as (e & He & Hes & Hed);
    [rewrite (wf_embedding q Hwf); exact Hi|].
  rewrite He. cbn [bind]. rewrite Hs in Hes. simpl in Hes.
  destruct (transpose_1_2_ok e B (pn * pn) (Cvae q) Hes) as (e' & He' & Hes' & Hed').
  rewrite He'. cbn [bind].
  destruct (view_ok e' [B; Cvae q; pn; pn]) as (v & Hv & Hvs & Hvd);
    [unfold numel; rewrite Hes'; simpl; ring|].
  rewrite Hv. cbn [bind].
  destruct (interpolate_ok v B (Cvae q) pn pn HW HW bicubic Hvs Hpn Hpn HHW HHW)
    as (h & Hh & Hhs & Hhd).
  rewrite Hh. cbn [bind].
  pose proof (wf_scales q Hwf) as Hsc.
  destruct (refine_ok q si (length (v_patch_nums q)) h B HW HW
              (wf_policy q Hwf) (wf_units q Hwf) ltac:(lia) Hhs ltac:(congruence))
    as (r & Hr & Hrs & Hrd).
  rewrite Hr. cbn [bind].
  destruct (downsample_tokens_ok r B (Cvae q) HW HW pn Hrs HHW HHW Hpn HB
              (wf_channels q Hwf)) as (tok & Htok).
  exists tok. split; [exact Htok|].
  eapply downsample_tokens_sized; eauto.
Qed.

Lemma NoDup_shift (l : list nat) (c : nat) :
  NoDup l -> NoDup (map (fun i => i + c) l).
Proof.
  induction 1 as [|x l Hx Hl IH]; simpl; constructor; [|exact IH].
  intros Hin. apply in_map_iff in Hin. destruct Hin as (y & E & Hy).
  assert (y = x) by lia. subst y. contradiction.
Qed.

(** One scale of the loop. *)
Lemma mask_scale_ok (G : Generator) (q : VectorQuantizer2) (gt : list itensor)
    (p : Q) (B HW si : nat) (st : mask_locals G) :
  samples_without_replacement G -> well_formed q ->
  (0 < p)%Q -> (p <= 1)%Q ->
  valid_gt q gt B -> B <> 0 ->
  last_item (v_patch_nums q) = Ok HW ->
  1 <= si < length (v_patch_nums q) ->
  cur_l st = query_offset q si ->
  exists st' sel tok,
    mask_scale q gt p B (Cvae q) HW HW (length (v_patch_nums q)) si st = Ok st' /\
    idx_to_mask st' = idx_to_mask st ++ [sel] /\
    mk_next_scales st' = mk_next_scales st ++ [tok] /\
    cur_l st' = query_offset q (S si) /\
    mask_ok q p si sel /\
    own_contribution q gt B HW si tok.
Proof.
  intros HG Hwf Hp0 Hp1 [Hglen Hgt] HB Hlast Hsi Hcur.
  pose proof (wf_positive q Hwf) as Hpos. rewrite Forall_forall in Hpos.
  assert (HHW : HW <> 0) by (apply Hpos, last_item_In, Hlast).
  destruct (getitem_lt (v_patch_nums q) si ltac:(lia)) as (pn & Hpn).
  pose proof Hpn as Hpn'. apply getitem_Ok in Hpn'.
  assert (Hpn0 : pn <> 0) by (eapply Hpos, nth_error_In, Hpn').
  assert (Hnth : nth si (v_patch_nums q) 0 = pn) by (apply nth_error_nth; exact Hpn').
  assert (Hql : query_length q si = pn * pn) by (unfold query_length; rewrite Hnth; reflexivity).
  destruct (getitem_lt gt si ltac:(lia)) as (g_si & Hg).
  pose proof Hg as Hg'. apply getitem_Ok in Hg'.
  destruct (Hgt si g_si Hg') as [Hgs Hgi]. rewrite Hql in Hgs.
  destruct (mask_count_bounds (pn * pn) p ltac:(nia) Hp0 Hp1) as [Hk1 Hk2].
  set (k := Qceiling (Qnat (pn * pn) * p)) in *.
  destruct (HG (mk_gen st) (pn * pn) (Z.to_nat k) ltac:(lia)) as (Hlen & Hnd & Hrange).
  destruct (mask_contribution_ok q g_si B HW si pn Hwf Hgs Hgi HB HHW Hpn0)
    as (tok & Htok & Hsz).
  unfold mask_scale. rewrite Hpn. cbn [bind]. fold k.
  unfold multinomial. rewrite repeat_length.
  destruct (Z.leb_spec k 0); [lia|].
  destruct (Z.ltb_spec (Z.of_nat (pn * pn)) k); [lia|].
  cbn [bind].
  destruct (draw G (mk_gen st) (repeat 1%Q (pn * pn)) (Z.to_nat k)) as [sel g'] eqn:Ed.
  cbn [fst] in Hlen, Hnd, Hrange.
  rewrite Hg. cbn [bind]. rewrite Htok. cbn [bind].
  eexists. exists (map (fun i => i + cur_l st) sel), tok.
  split; [reflexivity|]. cbn [idx_to_mask mk_next_scales cur_l].
  split; [reflexivity|]. split; [reflexivity|].
  split; [rewrite query_offset_succ, Hcur, Hql by lia; reflexivity|].
  split.
  - unfold mask_ok. rewrite Hql. fold k. rewrite length_map, Hlen.
    split; [lia|]. split; [apply NoDup_shift; exact Hnd|].
    rewrite Forall_forall in *. intros pos Hin.
    apply in_map_iff in Hin. destruct Hin as (i & <- & Hi).
    specialize (Hrange i Hi). lia.
  - exists g_si. rewrite Hnth, Hql. auto.
Qed.

Lemma mask_loop_ok (G : Generator) (q : VectorQuantizer2) (gt : list itensor)
    (p : Q) (B HW : nat) :
  samples_without_replacement G -> well_formed q ->
  (0 < p)%Q -> (p <= 1)%Q ->
  valid_gt q gt B -> B <> 0 ->
  last_item (v_patch_nums q) = Ok HW ->
  forall (n a : nat) (st : mask_locals G),
    1 <= a -> a + n <= length (v_patch_nums q) ->
    cur_l st = query_offset q a ->
    exists st' sels toks,
      mask_loop q gt p B (Cvae q) HW HW (length (v_patch_nums q)) (seq a n) st
        = Ok st' /\
      idx_to_mask st' = idx_to_mask st ++ sels /\
      mk_next_scales st' = mk_next_scales st ++ toks /\
      Forall2 (mask_ok q p) (seq a n) sels /\
      Forall2 (own_contribution q gt B HW) (seq a n) toks.
Proof.
  intros HG Hwf Hp0 Hp1 Hgt HB Hlast.
  induction n as [|n IH]; intros a st Ha Hn Hcur.
  - exists st, [], []. simpl. rewrite !app_nil_r.
    repeat split; constructor.
  - destruct (mask_scale_ok G q gt p B HW a st HG Hwf Hp0 Hp1 Hgt HB Hlast
                ltac:(lia) Hcur)
      as (st1 & sel & tok & Hstep & Hi1 & Ht1 & Hc1 & Hsel & Htok).
    destruct (IH (S a) st1 ltac:(lia) ltac:(lia) Hc1)
      as (st' & sels & toks & Hrest & Hi & Ht & HFs & HFt).
    exists st', (sel :: sels), (tok :: toks).
    simpl. rewrite Hstep. cbn [bind]. rewrite Hrest.
    rewrite Hi, Hi1, Ht, Ht1, <- !app_assoc.
    repeat split; try reflexivity; constructor; assumption.
Qed.

End MaskLemmas.

(** ** The three-scale quantizer and the samplers *)

Lemma quantizer3_well_formed : well_formed Exact.quantizer3.
Proof.
  constructor; simpl; try lia; try discriminate.
  - split; [discriminate | reflexivity].
  - repeat constructor.
  - repeat constructor; discriminate.
  - split; [reflexivity | repeat constructor].
Qed.

Lemma first_k_samples : samples_without_replacement Exact.first_k.
Proof.
  intros g n k Hk. simpl. split; [apply length_seq|].
  split; [apply seq_NoDup|].
  apply Forall_forall. intros i Hi. apply in_seq in Hi. lia.
Qed.

Lemma gt_a_valid : valid_gt Exact.quantizer3 Exact.gt_a 1.
Proof.
  split; [reflexivity|].
  intros [|[|[|si]]] gt H; simpl in H; try (destruct si; discriminate);
    inversion H; subst; split; try reflexivity; repeat constructor.
Qed.

(** ** Modules built by [__init__] *)

Section InitLemmas.

Context {BE : Backend}.

Lemma make_ticks_Ok (K : nat) (tk : list Q) :
  make_ticks K = Ok tk -> K <> 0 /\ length tk = K.
Proof.
  intros E. destruct (Nat.eq_dec K 0) as [->|HK]; [discriminate|].
  split; [exact HK|].
  destruct (make_ticks_closed_form K HK) as (tk' & E' & Hlen & _).
  congruence.
Qed.

Lemma make_unit_fits (w : conv_weight) (C : nat) (r : Q) :
  unit_fits C (make_unit w C r).
Proof.
  unfold make_unit, Phi_init. destruct (Np.Qltb _ _); simpl; auto.
Qed.

Lemma map_make_unit_fits (f : nat -> conv_weight) (C : nat) (r : Q) (l : list nat) :
  Forall (unit_fits C) (map (fun i => make_unit (f i) C r) l).
Proof.
  induction l as [|i l IH]; simpl; constructor; [apply make_unit_fits | exact IH].
Qed.

(** [__init__] leaves a well-formed module when the codebook is not
    empty and the pyramid has at least two positive scales. *)
Lemma init_well_formed (V C : nat) (znorm : bool) (b : Q) (cnt : nat)
    (pyramid : list nat) (r : Q) (share : nat)
    (conv_init : nat -> conv_weight) (emb : list (list scalar))
    (q : VectorQuantizer2) :
  V <> 0 -> C <> 0 -> length emb = V ->
  2 <= length pyramid -> Forall (fun pn => pn <> 0) pyramid ->
  VectorQuantizer2_init V C znorm b cnt pyramid r share conv_init emb = Ok q ->
  well_formed q /\ record_hit q = 0 /\ training q = true.
Proof.
  intros HV HC Hemb Hlen Hpos E. unfold VectorQuantizer2_init in E.
  apply bind_Ok in E. destruct E as (policy & Hpol & E).
  inversion E; subst q. clear E.
  assert (Hp : policy_ready policy /\ Forall (unit_fits C) (units_of policy)).
  { destruct (Nat.eqb share 0).
    - apply bind_Ok in Hpol. destruct Hpol as (p & Hp & Hpol).
      inversion Hpol; subst policy. unfold PhiNonShared_init in Hp.
      apply bind_Ok in Hp. destruct Hp as (tk & Htk & Hp).
      inversion Hp; subst p. simpl.
      apply make_ticks_Ok in Htk. destruct Htk as [HK Hl].
      split; [split; [|exact Hl]|apply map_make_unit_fits].
      intros Hnil. rewrite Hnil in HK. apply HK. reflexivity.
    - destruct (Nat.eqb share 1).
      + inversion Hpol; subst policy. simpl.
        split; [exact I | repeat constructor; apply make_unit_fits].
      + apply bind_Ok in Hpol. destruct Hpol as (p & Hp & Hpol).
        inversion Hpol; subst policy. unfold PhiPartiallyShared_init in Hp.
        apply bind_Ok in Hp. destruct Hp as (tk & Htk & Hp).
        inversion Hp; subst p. simpl.
        apply make_ticks_Ok in Htk. destruct Htk as [HK Hl].
        split; [split; [|exact Hl]|apply map_make_unit_fits].
        intros Hnil. rewrite Hnil in HK. apply HK. reflexivity. }
  destruct Hp as [Hready Hfits].
  split; [|split; reflexivity].
  constructor; simpl; try assumption.
  split; [apply repeat_length|].
  apply Forall_forall. intros row Hrow. apply repeat_spec in Hrow. subst row.
  apply repeat_length.
Qed.

End InitLemmas.

(* ================================================================= *)
(** ** [forward] and [f_to_idxBl_or_fhat] in lock-step *)

Section EncoderLemmas.

Context {BE : Backend}.

Lemma code_map_tokens (q : VectorQuantizer2) (B pn : nat) (idx : list nat)
    (H W : nat) (is_last : bool) :
  code_map q {| ishape := [B; pn; pn]; idata := idx |} H W is_last
  = (h <- embed_tokens q (idx_Bl_of B pn idx) B (Cvae q) pn ;;
     if is_last then Ok h else interpolate h H W bicubic).
Proof.
  unfold code_map, embed_tokens, embedding_lookup, idx_Bl_of. cbn [idata ishape].
  destruct (mapM (getitem (embedding q)) idx) as [rows|e]; [|reflexivity].
  cbn [bind]. unfold permute_0312, transpose_1_2, view. cbn [shape app dtype_of data].
  cbn [bind]. unfold numel. cbn [shape].
  replace (Nat.eqb (prod_shape [B; Cvae q; pn; pn]) (prod_shape [B; Cvae q; pn * pn]))
    with true by (symmetry; apply Nat.eqb_eq; simpl; ring).
  cbn [dtype_of data bind]. reflexivity.
Qed.

Lemma before_last_not_last (si SN : nat) :
  before_last si SN = negb (Nat.eqb si (SN - 1)) \/ SN <= si.
Proof.
  unfold before_last.
  destruct (Nat.eqb_spec si (SN - 1)) as [E|E];
    destruct (Z.ltb_spec (Z.of_nat si) (Z.of_nat SN - 1)); simpl; auto; lia.
Qed.

Lemma embed_tokens_sized (q : VectorQuantizer2) (i : itensor) (B C pn : nat) (h : tensor) :
  embed_tokens q i B C pn = Ok h -> sized4 B C pn pn h.
Proof.
  unfold embed_tokens, embedding_lookup. intros H.
  destruct (mapM _ _) as [rows|]; [|discriminate]. cbn [bind] in H.
  unfold transpose_1_2 in H. cbn [shape] in H.
  destruct (ishape i ++ [Cvae q]) as [|a [|b [|c [|]]]]; try discriminate.
  cbn [bind] in H. unfold view in H.
  destruct (Nat.eqb _ _); [|discriminate].
  inversion H; subst. split; reflexivity.
Qed.

(** One scale of [forward] on a valid state, written out: the codes it
    finds, the locals it leaves, the update it makes; the same scale of
    [f_to_idxBl_or_fhat] computes the same reconstruction and residual. *)
Lemma forward_scale_run (env : DistEnv) (ws : nat) (q : VectorQuantizer2)
    (x : tensor) (B HW si pn : nat) (st : fwd_locals) :
  well_formed q -> env_ready env ws ->
  shape x = [B; Cvae q; HW; HW] -> dtype_of x = float32 ->
  HW <> 0 -> pn <> 0 ->
  (si = length (v_patch_nums q) - 1 -> pn = HW) ->
  si < length (v_patch_nums q) ->
  locals_ok q B HW st -> loss_ok (mean_vq_loss st) ->
  exists idx st',
    length idx = B * pn * pn /\
    Forall (fun i => i < vocab_size q) idx /\
    (forall to_fhat,
       f_to_idx_scale q to_fhat B (Cvae q) HW HW (length (v_patch_nums q))
         si pn pn (f_hat st, f_rest st)
       = Ok (f_hat st', f_rest st',
             if to_fhat then Fhat (f_hat st')
             else IdxBl {| ishape := [B; pn * pn]; idata := idx |})) /\
    forward_scale env x (detach x) B (Cvae q) HW HW
      (length (v_patch_nums q)) si pn st q
    = (Ok st',
       if training q && initialized env
       then snd (ema_update si (all_reduce env (bincount idx (vocab_size q))) q)
       else q) /\
    locals_ok q B HW st' /\
    loss_is_tensor (mean_vq_loss st') /\
    (exists h_si,
       embed_tokens q (idx_Bl_of B pn idx) B (Cvae q) pn = Ok h_si) /\
    (forall ms_h last_one ls h_si,
       getitem ms_h si = Ok h_si ->
       embed_tokens q (idx_Bl_of B pn idx) B (Cvae q) pn = Ok h_si ->
       embed_scale_max q ms_h last_one HW HW (length (v_patch_nums q)) si
         (f_hat st, ls)
       = (ls' <- record_fhat last_one ls (f_hat st') (clone (f_hat st')) ;;
          Ok (f_hat st', ls'))).
Proof.
  intros Hwf [Hred Hws] Hxs Hxd HHW Hpn Hlast Hsi Hlo Hloss.
  destruct Hlo as [Hfs Hfd Hfl Hrs Hrd Hhits].
  pose proof Hwf as [Hpol Hunits Hemb Hvoc Hch Hsc Hpos Hema].
  assert (Hne : embedding q <> [])
    by (destruct (embedding q); simpl in Hemb; [lia | discriminate]).
  set (is_last := Nat.eqb si (length (v_patch_nums q) - 1)).
  destruct (residual_rows_ok (f_rest st) B (Cvae q) HW HW pn pn is_last
              Hrs Hch HHW HHW Hpn Hpn (is_last_scale _ _ _ _ Hlast))
    as (rest & Hrest & Hrests).
  destruct (nearest_code_ok q rest (B * pn * pn) Hrests Hne)
    as (idx & Hidx & Hil & Hib).
  set (hit_V := if training q && initialized env
                then all_reduce env (bincount idx (vocab_size q))
                else bincount idx (vocab_size q)).
  assert (Hhl : length hit_V = vocab_size q).
  { unfold hit_V. destruct (training q && initialized env);
      rewrite ?Hred; apply bincount_length; rewrite <- Hemb; exact Hib. }
  destruct (code_map_ok q {| ishape := [B; pn; pn]; idata := idx |}
              B pn pn HW HW is_last eq_refl Hib Hpn Hpn HHW HHW
              (is_last_scale _ _ _ _ Hlast))
    as (h & Hh & Hhs & Hhd).
  destruct (refine_ok q si (length (v_patch_nums q)) h B HW HW
              Hpol Hunits ltac:(lia) Hhs Hhd) as (r & Hr & Hrs' & Hrd').
  destruct (binop_float32 sadd (f_hat st) r _ Hfs Hrs' Hfd Hrd')
    as (fh & Hfh & Hfhs & Hfhd & Hfhdata).
  destruct (binop__float32 ssub (f_rest st) r _ Hrs Hrs' Hrd)
    as (fr & Hfr & Hfrs & Hfrd & _).
  assert (Hfh_ : add_ (f_hat st) r = Ok fh).
  { unfold add_. rewrite binop__same_shape by congruence.
    unfold add in Hfh. rewrite binop_same_shape in Hfh by congruence.
    rewrite Hfd, Hrd' in Hfh. simpl in Hfh. rewrite Hfd. exact Hfh. }
  destruct (mse_loss_ok fh x _ Hfhs Hxs Hfhd Hxd) as (l1 & Hl1 & Hl1s & Hl1d).
  destruct (binop_float32 sadd (mul_scalar l1 (beta q)) l1 [] Hl1s Hl1s Hl1d Hl1d)
    as (term & Hterm & Hts & Htd & _).
  assert (Hacc : exists loss', pyval_iadd (mean_vq_loss st) term = Ok loss' /\
                               loss_is_tensor loss').
  { destruct (mean_vq_loss st) as [c|a]; simpl.
    - eexists. split; [reflexivity|]. simpl. auto.
    - destruct Hloss as [Has Had].
      destruct (binop__float32 sadd a term [] Has Hts Had) as (s & Hs & Hss & Hsd & _).
      unfold add_. rewrite Hs. simpl. eexists. split; [reflexivity|]. simpl. auto. }
  destruct Hacc as (loss' & Hloss' & Hlt).
  exists idx.
  exists {| f_hat := fh; f_rest := fr; mean_vq_loss := loss';
            vocab_hit_V := map2 sadd (vocab_hit_V st) hit_V |}.
  cbn [f_hat f_rest mean_vq_loss].
  split; [exact Hil|]. split; [rewrite <- Hemb; exact Hib|].
  split.
  { intros to_fhat. unfold f_to_idx_scale. fold is_last.
    rewrite Hrest. cbn [bind]. rewrite Hidx. cbn [bind].
    rewrite iview_ok by (simpl; rewrite Hil; ring). cbn [bind idata].
    rewrite Hh. cbn [bind]. rewrite Hr. cbn [bind]. rewrite Hfh_. cbn [bind].
    unfold sub_. rewrite Hfr. cbn [bind].
    destruct to_fhat; [reflexivity|].
    rewrite iview_ok by (simpl; rewrite Hil; ring). reflexivity. }
  split.
  { unfold forward_scale. rewrite bindM_self. cbv zeta. fold is_last.
    rewrite bindM_lift, Hrest, bindM_lift, Hidx. fold hit_V.
    rewrite bindM_lift, iview_ok by (simpl; rewrite Hil; ring).
    cbn [idata].
    rewrite bindM_lift, Hh, bindM_lift, Hr.
    unfold add at 1. rewrite bindM_lift, Hfh.
    unfold sub_. rewrite bindM_lift, Hfr.
    assert (Htail : forall q1,
      bindM (lift (vec_binop_ sadd (vocab_hit_V st) hit_V))
        (fun vocab_hit_V' =>
         bindM (lift (mse_loss fh x)) (fun l1 =>
         bindM (lift (mse_loss fh (detach x))) (fun l2 =>
         bindM (lift (add (mul_scalar l1 (beta q)) l2)) (fun term =>
         bindM (lift (pyval_iadd (mean_vq_loss st) term)) (fun loss' =>
         ret {| f_hat := fh; f_rest := fr; mean_vq_loss := loss';
                vocab_hit_V := vocab_hit_V' |}))))) q1
      = (Ok {| f_hat := fh; f_rest := fr; mean_vq_loss := loss';
               vocab_hit_V := map2 sadd (vocab_hit_V st) hit_V |}, q1)).
    { intros q1.
      rewrite bindM_lift, vec_binop__same_length by congruence.
      unfold detach. rewrite !bindM_lift, Hl1. unfold add. rewrite bindM_lift, Hterm.
      rewrite bindM_lift, Hloss'. reflexivity. }
    unfold hit_V in *.
    destruct (training q && initialized env) eqn:Eflag.
    - destruct (ema_update_fits q _ _ si _ Hema Hsi Hhl)
        as (q' & Hup & _).
      unfold bindM at 1. rewrite Hup. rewrite Htail. reflexivity.
    - rewrite bindM_ret, Htail. reflexivity. }
  split.
  { constructor; cbn [f_hat f_rest vocab_hit_V]; try assumption.
    - rewrite Hfhdata, map2_length. lia.
    - rewrite map2_length. lia. }
  split; [exact Hlt|].
  rewrite code_map_tokens in Hh.
  split.
  { destruct (embed_tokens q (idx_Bl_of B pn idx) B (Cvae q) pn) as [h_si|];
      [eauto | discriminate]. }
  intros ms_h last_one ls h_si Hget Htok.
  rewrite Htok in Hh. cbn [bind] in Hh.
  unfold embed_scale_max. rewrite Hget. cbn [bind].
  destruct (before_last_not_last si (length (v_patch_nums q))) as [E|E]; [|lia].
  rewrite E. fold is_last.
  destruct is_last; cbn [negb].
  - inversion Hh; subst h. cbn [bind]. rewrite Hr. cbn [bind].
    rewrite Hfh_. reflexivity.
  - rewrite Hh. cbn [bind]. rewrite Hr. cbn [bind]. rewrite Hfh_. reflexivity.
Qed.

Lemma f_to_idx_scale_same (q q' : VectorQuantizer2) to_fhat B C H W SN si ph pw st :
  same_module q q' ->
  f_to_idx_scale q' to_fhat B C H W SN si ph pw st
  = f_to_idx_scale q to_fhat B C H W SN si ph pw st.
Proof. intros (e & n & ->). reflexivity. Qed.

Lemma f_to_idx_loop_same (q q' : VectorQuantizer2) to_fhat B C H W SN :
  same_module q q' ->
  forall scales st acc,
    f_to_idx_loop q' to_fhat B C H W SN scales st acc
    = f_to_idx_loop q to_fhat B C H W SN scales st acc.
Proof.
  intros Hs. induction scales as [|[si [ph pw]] scales IH]; intros st acc; simpl;
    [reflexivity|].
  rewrite (f_to_idx_scale_same q q') by exact Hs.
  destruct (f_to_idx_scale q to_fhat B C H W SN si ph pw st) as [[[a b] c]|]; simpl;
    [apply IH | reflexivity].
Qed.

Lemma last_cons_default {A} (l : list A) (a d : A) : last (a :: l) d = last l a.
Proof.
  revert a d. induction l as [|b l IH]; intros a d; [reflexivity|].
  change (last (a :: b :: l) d) with (last (b :: l) d).
  rewrite (IH b d), (IH b a). reflexivity.
Qed.

Lemma forward_loop_run (env : DistEnv) (ws : nat) (x : tensor) (B HW : nat) :
  forall (scales : list nat) (i : nat) (q : VectorQuantizer2) (st : fwd_locals),
    well_formed q -> env_ready env ws ->
    shape x = [B; Cvae q; HW; HW] -> dtype_of x = float32 ->
    skipn i (v_patch_nums q) = scales ->
    last_item (v_patch_nums q) = Ok HW ->
    locals_ok q B HW st -> loss_ok (mean_vq_loss st) ->
    exists idxs fhats st',
      Forall2 (codes_of_scale q B) scales idxs /\
      length fhats = length scales /\
      Forall (sized4 B (Cvae q) HW HW) fhats /\
      (forall acc,
         f_to_idx_loop q true B (Cvae q) HW HW (length (v_patch_nums q))
           (enumerate_from i (map (fun pn => (pn, pn)) scales))
           (f_hat st, f_rest st) acc
         = Ok (acc ++ map Fhat fhats)) /\
      (forall acc,
         f_to_idx_loop q false B (Cvae q) HW HW (length (v_patch_nums q))
           (enumerate_from i (map (fun pn => (pn, pn)) scales))
           (f_hat st, f_rest st) acc
         = Ok (acc ++ map IdxBl (map2 (idx_Bl_of B) scales idxs))) /\
      f_hat st' = last fhats (f_hat st) /\
      forward_loop env x (detach x) B (Cvae q) HW HW
        (length (v_patch_nums q)) (enumerate_from i scales) st q
      = (Ok st',
         if training q && initialized env
         then run_updates (combine (seq i (length scales))
                             (map (reduced_hits env q) idxs)) q
         else q) /\
      locals_ok q B HW st' /\
      (scales <> [] -> loss_is_tensor (mean_vq_loss st')) /\
      (exists hs,
         mapM (fun pi => embed_tokens q (idx_Bl_of B (fst pi) (snd pi)) B (Cvae q)
                           (fst pi))
           (combine scales idxs) = Ok hs) /\
      (forall ms_h last_one ls,
         (forall k pn idx,
            nth_error scales k = Some pn -> nth_error idxs k = Some idx ->
            exists h, nth_error ms_h (i + k) = Some h /\
                      embed_tokens q (idx_Bl_of B pn idx) B (Cvae q) pn = Ok h) ->
         (last_one = false -> exists l, ls = FhatList l) ->
         embed_loop
           (fun si _ => embed_scale_max q ms_h last_one HW HW
                          (length (v_patch_nums q)) si)
           (enumerate_from i scales) (f_hat st, ls)
         = Ok (f_hat st', after_record last_one ls fhats)).
Proof.
  induction scales as [|pn scales IH]; intros i q st Hwf Henv Hxs Hxd Hsk Hlast Hlo Hloss.
  - exists [], [], st. simpl.
    assert (Hrec : forall last_one ls,
              (last_one = false -> exists l, ls = FhatList l) ->
              after_record last_one ls [] = ls).
    { intros [|] ls Hls; [reflexivity|].
      destruct (Hls eq_refl) as (l & ->). simpl. rewrite app_nil_r. reflexivity. }
    split; [constructor|]. split; [reflexivity|]. split; [constructor|].
    split; [intros acc; rewrite app_nil_r; reflexivity|].
    split; [intros acc; rewrite app_nil_r; reflexivity|].
    split; [reflexivity|].
    split; [destruct (training q && initialized env); reflexivity|].
    split; [exact Hlo|]. split; [congruence|].
    split; [exists []; reflexivity|].
    intros ms_h last_one ls _ Hls. rewrite Hrec by exact Hls. reflexivity.
  - destruct (skipn_cons_nth _ _ _ _ Hsk) as (Hnth & Hsk' & Hlt).
    assert (HHW : HW <> 0).
    { pose proof (wf_positive q Hwf) as Hp. rewrite Forall_forall in Hp.
      apply Hp, last_item_In, Hlast. }
    assert (Hpn : pn <> 0).
    { pose proof (wf_positive q Hwf) as Hp. rewrite Forall_forall in Hp.
      eapply Hp, nth_error_In, Hnth. }
    destruct (forward_scale_run env ws q x B HW i pn st Hwf Henv Hxs Hxd HHW Hpn)
      as (idx & st1 & Hil & Hib & Henc & Hstep & Hlo1 & Hlt1 & Htok1 & Hemb1);
      [intros Hi; eapply last_item_skipn; eauto | exact Hlt | exact Hlo | exact Hloss |].
    set (hit := reduced_hits env q idx).
    assert (Hq1 : exists q1,
      q1 = (if training q && initialized env then snd (ema_update i hit q) else q) /\
      same_module q q1 /\ well_formed q1).
    { destruct (training q && initialized env).
      - destruct Henv as [Hred _].
        destruct (ema_update_fits q _ _ i hit (wf_ema q Hwf) Hlt) as
          (q' & Hup & _ & Hsh & Hsame).
        { unfold hit, reduced_hits. rewrite Hred. apply bincount_length. exact Hib. }
        exists q'. rewrite Hup. split; [reflexivity|]. split; [exact Hsame|].
        eapply same_module_well_formed; eauto.
      - exists q. split; [reflexivity|]. split; [apply same_module_refl | exact Hwf]. }
    destruct Hq1 as (q1 & Eq1 & Hsame1 & Hwf1).
    fold (reduced_hits env q idx) in Hstep. fold hit in Hstep. rewrite <- Eq1 in Hstep.
    pose proof Hsame1 as (e1 & n1 & Es).
    assert (Hloss1 : loss_ok (mean_vq_loss st1))
      by (destruct (mean_vq_loss st1); [contradiction | exact Hlt1]).
    destruct (IH (S i) q1 st1 Hwf1 Henv) as
      (idxs & fhats & st2 & Hcodes & Hlen & Hsz & Hft & Hfi & Hlastf & Hrest & Hlo2 & Hlt2
       & Htoks & Hemb).
    + rewrite Es. exact Hxs.
    + exact Hxd.
    + rewrite Es. exact Hsk'.
    + rewrite Es. exact Hlast.
    + eapply locals_ok_same_module; eauto.
    + exact Hloss1.
    + exists (idx :: idxs), (f_hat st1 :: fhats), st2.
      split.
      { constructor; [split; assumption|].
        rewrite Es in Hcodes. exact Hcodes. }
      split; [simpl; congruence|].
      split.
      { constructor.
        - destruct Hlo1 as [H1 H2 _ _ _ _]. split; assumption.
        - rewrite Es in Hsz. exact Hsz. }
      split.
      { intros acc. cbn [f_to_idx_loop enumerate_from map]. rewrite (Henc true). cbn [bind].
        rewrite <- (f_to_idx_loop_same q q1) by exact Hsame1.
        specialize (Hft (acc ++ [Fhat (f_hat st1)])).
        rewrite Es in Hft |- *. cbn [Cvae v_patch_nums set_record_hit set_ema] in Hft |- *.
        rewrite Hft, <- app_assoc. reflexivity. }
      split.
      { intros acc. cbn [f_to_idx_loop enumerate_from map map2]. rewrite (Henc false). cbn [bind].
        rewrite <- (f_to_idx_loop_same q q1) by exact Hsame1.
        specialize (Hfi (acc ++ [IdxBl {| ishape := [B; pn * pn]; idata := idx |}])).
        rewrite Es in Hfi |- *. cbn [Cvae v_patch_nums set_record_hit set_ema] in Hfi |- *.
        rewrite Hfi, <- app_assoc. reflexivity. }
      split.
      { rewrite Hlastf. symmetry. apply last_cons_default. }
      split.
      { simpl. unfold bindM at 1. rewrite Hstep.
        assert (Hrest' :
          forward_loop env x (detach x) B (Cvae q) HW HW (length (v_patch_nums q))
            (enumerate_from (S i) scales) st1 q1
          = (Ok st2,
             if training q && initialized env
             then run_updates (combine (seq (S i) (length scales))
                                 (map (reduced_hits env q) idxs)) q1
             else q1)).
        { rewrite Es in Hrest |- *. exact Hrest. }
        rewrite Hrest'. f_equal.
        destruct (training q && initialized env); [|exact Eq1].
        rewrite Eq1. reflexivity. }
      split.
      { destruct Hlo2. rewrite Es in *. constructor; assumption. }
      split.
      { intros _. destruct scales as [|pn' scales'].
        * simpl in Hrest. inversion Hrest; subst. exact Hlt1.
        * apply Hlt2. discriminate. }
      split.
      { destruct Htok1 as (h1 & Hh1). destruct Htoks as (hs & Hhs).
        exists (h1 :: hs). cbn [combine mapM fst snd].
        rewrite Hh1. cbn [bind].
        assert (Hhs' :
          mapM (fun pi => embed_tokens q (idx_Bl_of B (fst pi) (snd pi)) B (Cvae q)
                            (fst pi))
            (combine scales idxs) = Ok hs)
          by (rewrite Es in Hhs; exact Hhs).
        rewrite Hhs'. reflexivity. }
      intros ms_h last_one ls Hms Hls.
      destruct (Hms 0 pn idx eq_refl eq_refl) as (h1 & Hget1 & Hh1).
      rewrite Nat.add_0_r in Hget1.
      cbn [embed_loop enumerate_from].
      rewrite (Hemb1 ms_h last_one ls h1)
        by (try (unfold getitem; rewrite Hget1; reflexivity); exact Hh1).
      assert (Hrec : exists ls1,
                record_fhat last_one ls (f_hat st1) (clone (f_hat st1)) = Ok ls1 /\
                (last_one = false -> exists l, ls1 = FhatList l) /\
                after_record last_one ls1 fhats
                = after_record last_one ls (f_hat st1 :: fhats)).
      { destruct last_one.
        - exists (FhatLast (f_hat st1)). split; [reflexivity|].
          split; [discriminate|]. unfold after_record.
          destruct fhats as [|t ts]; [reflexivity|].
          rewrite (last_cons_default ts t (f_hat st1)). reflexivity.
        - destruct (Hls eq_refl) as (l & ->).
          exists (FhatList (l ++ [f_hat st1])). split; [reflexivity|].
          split; [eauto|]. simpl. rewrite <- app_assoc. reflexivity. }
      destruct Hrec as (ls1 & Hr1 & Hls1 & Hafter).
      rewrite Hr1. cbn [bind].
      assert (Hemb' :
        (forall k pn idx,
           nth_error scales k = Some pn -> nth_error idxs k = Some idx ->
           exists h, nth_error ms_h (S i + k) = Some h /\
                     embed_tokens q (idx_Bl_of B pn idx) B (Cvae q) pn = Ok h) ->
        embed_loop
          (fun si _ => embed_scale_max q ms_h last_one HW HW
                         (length (v_patch_nums q)) si)
          (enumerate_from (S i) scales) (f_hat st1, ls1)
        = Ok (f_hat st2, after_record last_one ls1 fhats)).
      { intros Hms'. specialize (Hemb ms_h last_one ls1).
        rewrite Es in Hemb. apply Hemb; [exact Hms' | exact Hls1]. }
      rewrite Hemb'; [rewrite Hafter; reflexivity|].
      intros k pn' idx' Hk Hk'.
      destruct (Hms (S k) pn' idx' Hk Hk') as (h & Hget & Hh).
      exists h. split; [|exact Hh].
      replace (S i + k) with (i + S k) by lia. exact Hget.
Qed.

Lemma last_item_map {A B} (f : A -> B) (l : list A) (a : A) :
  last_item l = Ok a -> last_item (map f l) = Ok (f a).
Proof.
  destruct l as [|x l]; simpl; intros H; inversion H as [E]; clear H E.
  f_equal. revert x. induction l as [|y l IH]; intros x; [reflexivity|].
  cbn [map]. rewrite !last_cons_default. apply IH.
Qed.

Lemma own_pyramid (q : VectorQuantizer2) :
  map patch_hw (pyramid_in_effect q None) = map (fun pn => (pn, pn)) (v_patch_nums q).
Proof. unfold pyramid_in_effect. rewrite map_map. reflexivity. Qed.

Lemma forward_run (env : DistEnv) (ws : nat) (q : VectorQuantizer2)
    (x : tensor) (B HW : nat) (ret_usages : bool) :
  well_formed q -> env_ready env ws -> valid_input q x B HW ->
  exists idxs fhats out loss,
    Forall2 (codes_of_scale q B) (v_patch_nums q) idxs /\
    length fhats = length (v_patch_nums q) /\
    Forall (sized4 B (Cvae q) HW HW) fhats /\
    f_to_idxBl_or_fhat q (as_float32 x) true None = Ok (map Fhat fhats) /\
    f_to_idxBl_or_fhat q (as_float32 x) false None
    = Ok (map IdxBl (map2 (idx_Bl_of B) (v_patch_nums q) idxs)) /\
    (let q' := if training q && initialized env
               then run_updates (combine (seq 0 (length (v_patch_nums q)))
                                   (map (reduced_hits env q) idxs)) q
               else q in
     forward env x ret_usages q
     = (Ok (out,
            (if ret_usages
             then Some (map (fun row =>
                               usage_percent row
                                 (margin_of ws B (Cvae q) HW HW (vocab_size q)))
                            (ema_vocab_hit_SV q'))
             else None),
            loss), q') /\
     well_formed q' /\ same_module q q') /\
    sized4 B (Cvae q) HW HW out /\
    data out = map2 sadd (map2 ssub (data (last fhats (zeros_like (as_float32 x))))
                            (data (as_float32 x)))
                 (data (as_float32 x)) /\
    length (data (last fhats (zeros_like (as_float32 x))))
    <= length (data (as_float32 x)) /\
    loss_is_tensor loss.
Proof.
  intros Hwf Henv Hvalid.
  destruct (forward_ok env ws q x B HW ret_usages Hwf Henv Hvalid)
    as (st & q' & out & loss & Hloc & Hfw & Hos & Hod & Hdata & Hlen & Hloss
        & Hsame & Hwf' & _ & _).
  destruct Hvalid as (Hxs & Hlast & Hxl).
  pose proof (as_float32_shape x) as Hs32. rewrite Hxs in Hs32.
  pose proof (as_float32_dtype x) as Hd32.
  destruct (forward_loop_run env ws (as_float32 x) B HW (v_patch_nums q) 0 q
              (forward_init (as_float32 x) (vocab_size q)) Hwf Henv Hs32 Hd32
              eq_refl Hlast (forward_init_ok q _ B HW Hs32 Hd32) I)
    as (idxs & fhats & st' & Hcodes & Hfl & Hsz & Hft & Hfi & Hlastf & Hloop & _ & _
        & _ & _).
  unfold forward_locals, enumerate in Hloc. rewrite Hloop in Hloc.
  inversion Hloc as [[Est Eq]]. subst st'. clear Hloc.
  cbn [forward_init f_hat f_rest] in Hft, Hfi, Hlastf.
  exists idxs, fhats, out, loss.
  split; [exact Hcodes|]. split; [exact Hfl|]. split; [exact Hsz|].
  assert (Henc : forall to_fhat,
    f_to_idxBl_or_fhat q (as_float32 x) to_fhat None
    = f_to_idx_loop q to_fhat B (Cvae q) HW HW (length (v_patch_nums q))
        (enumerate_from 0 (map (fun pn => (pn, pn)) (v_patch_nums q)))
        (zeros_like (clone (detach (as_float32 x))), clone (detach (as_float32 x))) []).
  { intros to_fhat. unfold f_to_idxBl_or_fhat. rewrite Hs32. cbv zeta.
    rewrite own_pyramid.
    rewrite (last_item_map (fun pn => (pn, pn)) _ _ Hlast). cbn [bind fst snd].
    rewrite Nat.eqb_refl. cbn [andb]. rewrite length_map. reflexivity. }
  split; [rewrite Henc; apply (Hft [])|].
  split; [rewrite Henc; apply (Hfi [])|].
  split.
  { cbv zeta. rewrite Eq. split; [exact Hfw|]. split; assumption. }
  split; [split; assumption|].
  unfold clone, detach in Hlastf. rewrite <- Hlastf.
  split; [exact Hdata|]. split; assumption.
Qed.

End EncoderLemmas.

(* ================================================================= *)
(** ** What [forward] may change in the module *)

Section ModuleStateLemmas.

Context {BE : Backend}.

Lemma stats_only_refl (q : VectorQuantizer2) : stats_only q q.
Proof. unfold stats_only. repeat split; reflexivity || lia. Qed.

Lemma stats_only_trans (q1 q2 q3 : VectorQuantizer2) :
  stats_only q1 q2 -> stats_only q2 q3 -> stats_only q1 q3.
Proof.
  unfold stats_only.
  intros (A1 & A2 & A3 & A4 & A5 & A6 & A7 & A8 & A9 & A10 & A11)
         (B1 & B2 & B3 & B4 & B5 & B6 & B7 & B8 & B9 & B10 & B11).
  repeat split; try congruence. lia.
Qed.

Lemma keeps_bindM {A B} (m : M A) (k : A -> M B) :
  keeps_module m -> (forall a, keeps_module (k a)) -> keeps_module (bindM m k).
Proof.
  intros Hm Hk q. unfold bindM. specialize (Hm q).
  destruct (m q) as [[a|e] q1]; simpl in Hm.
  - eapply stats_only_trans; [exact Hm | apply Hk].
  - exact Hm.
Qed.

Lemma keeps_lift {A} (r : result A) : keeps_module (lift r).
Proof. intros q. apply stats_only_refl. Qed.

Lemma keeps_ret {A} (a : A) : keeps_module (ret a).
Proof. intros q. apply stats_only_refl. Qed.

Lemma keeps_self : keeps_module self.
Proof. intros q. apply stats_only_refl. Qed.

Lemma keeps_ema_row si : keeps_module (ema_row si).
Proof. intros q. apply stats_only_refl. Qed.

Lemma keeps_store_ema_row si row : keeps_module (store_ema_row si row).
Proof.
  intros q. unfold store_ema_row, modify, stats_only. simpl.
  rewrite set_nth_length. repeat split; reflexivity || lia.
Qed.

Lemma keeps_ema_update si hit_V : keeps_module (ema_update si hit_V).
Proof.
  unfold ema_update.
  apply keeps_bindM; [apply keeps_self|]. intros q0.
  apply keeps_bindM.
  - destruct (Nat.eqb _ _); [|destruct (Nat.ltb _ _)];
      repeat (apply keeps_bindM; [first [apply keeps_ema_row | apply keeps_lift
                                        | apply keeps_store_ema_row]|intros ?]);
      apply keeps_store_ema_row.
  - intros _ q. unfold modify, stats_only. simpl. repeat split; reflexivity || lia.
Qed.

Lemma keeps_forward_scale env x x' B C H W SN si pn st :
  keeps_module (forward_scale env x x' B C H W SN si pn st).
Proof.
  unfold forward_scale.
  apply keeps_bindM; [apply keeps_self|]. intros q0. cbv zeta.
  repeat (apply keeps_bindM; [apply keeps_lift|intros ?]).
  apply keeps_bindM.
  { destruct (training q0 && initialized env); [apply keeps_ema_update | apply keeps_ret]. }
  intros _.
  repeat (apply keeps_bindM; [apply keeps_lift|intros ?]).
  apply keeps_ret.
Qed.

Lemma keeps_forward_loop env x x' B C H W SN scales :
  forall st, keeps_module (forward_loop env x x' B C H W SN scales st).
Proof.
  induction scales as [|[si pn] scales IH]; intros st; simpl.
  - apply keeps_ret.
  - apply keeps_bindM; [apply keeps_forward_scale | intros st'; apply IH].
Qed.

Lemma keeps_mapMM {A B} (f : A -> M B) (xs : list A) :
  (forall a, keeps_module (f a)) -> keeps_module (mapMM f xs).
Proof.
  intros Hf. induction xs as [|a xs IH]; simpl; [apply keeps_ret|].
  apply keeps_bindM; [apply Hf|]. intros y.
  apply keeps_bindM; [exact IH|]. intros ys. apply keeps_ret.
Qed.

Lemma keeps_forward env x r : keeps_module (forward env x r).
Proof.
  unfold forward. cbv zeta.
  destruct (shape _) as [|B [|C [|H [|W [|]]]]]; try apply keeps_lift.
  apply keeps_bindM; [apply keeps_self|]. intros q0.
  apply keeps_bindM; [apply keeps_forward_loop|]. intros st.
  repeat (apply keeps_bindM; [apply keeps_lift|intros ?]).
  apply keeps_bindM.
  - destruct r; [|apply keeps_ret].
    apply keeps_bindM; [|intros; apply keeps_ret].
    apply keeps_mapMM. intros sp.
    apply keeps_bindM; [apply keeps_ema_row | intros; apply keeps_ret].
  - intros us. apply keeps_ret.
Qed.

(** Outside training mode, or without a process group, no scale touches
    the module. *)
Lemma forward_scale_frozen (env : DistEnv) (x x' : tensor)
    (B C H W SN si pn : nat) (st : fwd_locals) (q : VectorQuantizer2) :
  training q && initialized env = false ->
  snd (forward_scale env x x' B C H W SN si pn st q) = q.
Proof.
  intros Hflag. unfold forward_scale. rewrite bindM_self. cbv zeta.
  rewrite Hflag.
  repeat (apply bindM_state; [reflexivity | intros ?]).
  reflexivity.
Qed.

Lemma forward_loop_frozen (env : DistEnv) (x x' : tensor) (B C H W SN : nat)
    (q : VectorQuantizer2) :
  training q && initialized env = false ->
  forall (scales : list (nat * nat)) (st : fwd_locals),
    snd (forward_loop env x x' B C H W SN scales st q) = q.
Proof.
  intros Hflag. induction scales as [|[si pn] scales IH]; intros st; simpl.
  - reflexivity.
  - apply bindM_state; [apply forward_scale_frozen; exact Hflag|].
    intros st'. apply IH.
Qed.

Lemma forward_frozen (env : DistEnv) (x : tensor) (ret_usages : bool)
    (q : VectorQuantizer2) :
  training q && initialized env = false ->
  snd (forward env x ret_usages q) = q.
Proof.
  intros Hflag. unfold forward. cbv zeta.
  destruct (shape _) as [|B [|C [|H [|W [|]]]]]; try reflexivity.
  rewrite bindM_self.
  apply bindM_state; [apply forward_loop_frozen; exact Hflag|]. intros st.
  repeat (apply bindM_state; [reflexivity | intros ?]).
  apply bindM_state.
  - destruct ret_usages; [|reflexivity].
    apply bindM_state; [|intros; reflexivity].
    apply mapMM_state. intros sp.
    apply bindM_state; [reflexivity | intros; reflexivity].
  - intros us. reflexivity.
Qed.

End ModuleStateLemmas.

(* ================================================================= *)
(** ** The decoder on the indices of the encoder *)

Section DecoderLemmas.

Context {BE : Backend}.

Lemma mapM_nth {A B} (f : A -> result B) (xs : list A) (ys : list B) :
  mapM f xs = Ok ys ->
  length ys = length xs /\
  forall k x, nth_error xs k = Some x ->
    exists y, nth_error ys k = Some y /\ f x = Ok y.
Proof.
  revert ys. induction xs as [|a xs IH]; intros ys H; simpl in H.
  - inversion H; subst. split; [reflexivity|]. intros [|k] x Hk; discriminate.
  - destruct (f a) as [b|] eqn:Ea; [|discriminate]. cbn [bind] in H.
    destruct (mapM f xs) as [bs|]; [|discriminate]. cbn [bind] in H.
    inversion H; subst. destruct (IH bs eq_refl) as [Hl Hn].
    split; [simpl; congruence|].
    intros [|k] x Hk; simpl in Hk.
    + inversion Hk; subst. exists b. split; [reflexivity | exact Ea].
    + apply Hn. exact Hk.
Qed.

Lemma nth_error_combine {A B} (l1 : list A) (l2 : list B) (k : nat) (a : A) (b : B) :
  nth_error l1 k = Some a -> nth_error l2 k = Some b ->
  nth_error (combine l1 l2) k = Some (a, b).
Proof.
  revert l2 k. induction l1 as [|x l1 IH]; intros [|y l2] [|k] H1 H2;
    simpl in *; try discriminate.
  - congruence.
  - apply IH; assumption.
Qed.

Lemma Forall2_length_eq {A B} (P : A -> B -> Prop) (l1 : list A) (l2 : list B) :
  Forall2 P l1 l2 -> length l1 = length l2.
Proof. induction 1; simpl; congruence. Qed.

(** The encoder on a valid float32 input, and the decoder on the code
    maps of the indices it returns. *)
Lemma decoder_run (q : VectorQuantizer2) (x : tensor) (B HW : nat) :
  well_formed q -> valid_input q x B HW -> dtype_of x = float32 ->
  exists idxs fhats ms_h,
    Forall2 (codes_of_scale q B) (v_patch_nums q) idxs /\
    length fhats = length (v_patch_nums q) /\
    f_to_idxBl_or_fhat q x false None
    = Ok (map IdxBl (map2 (idx_Bl_of B) (v_patch_nums q) idxs)) /\
    f_to_idxBl_or_fhat q x true None = Ok (map Fhat fhats) /\
    token_maps q B idxs = Ok ms_h /\
    length ms_h = length (v_patch_nums q) /\
    forall last_one,
      embed_to_fhat q ms_h true last_one
      = Ok (after_record last_one (FhatList []) fhats).
Proof.
  intros Hwf Hvalid Hd.
  pose (env := {| initialized := false; get_world_size := Ok 1;
                  all_reduce := fun v : list scalar => v |}).
  assert (Henv : env_ready env 1) by (split; reflexivity).
  destruct Hvalid as (Hxs & Hlast & Hxl).
  destruct (forward_loop_run env 1 x B HW (v_patch_nums q) 0 q
              (forward_init x (vocab_size q)) Hwf Henv Hxs Hd
              eq_refl Hlast (forward_init_ok q _ B HW Hxs Hd) I)
    as (idxs & fhats & st' & Hcodes & Hfl & Hsz & Hft & Hfi & Hlastf & _ & _ & _
        & (ms_h & Hms) & Hemb).
  cbn [forward_init f_hat f_rest] in Hft, Hfi, Hlastf, Hemb.
  assert (Henc : forall to_fhat,
    f_to_idxBl_or_fhat q x to_fhat None
    = f_to_idx_loop q to_fhat B (Cvae q) HW HW (length (v_patch_nums q))
        (enumerate_from 0 (map (fun pn => (pn, pn)) (v_patch_nums q)))
        (zeros_like (clone (detach x)), clone (detach x)) []).
  { intros to_fhat. unfold f_to_idxBl_or_fhat. rewrite Hxs. cbv zeta.
    rewrite own_pyramid.
    rewrite (last_item_map (fun pn => (pn, pn)) _ _ Hlast). cbn [bind fst snd].
    rewrite Nat.eqb_refl. cbn [andb]. rewrite length_map. reflexivity. }
  exists idxs, fhats, ms_h.
  split; [exact Hcodes|]. split; [exact Hfl|].
  split; [rewrite Henc; apply (Hfi [])|].
  split; [rewrite Henc; apply (Hft [])|].
  split; [exact Hms|].
  destruct (mapM_nth _ _ _ Hms) as [Hmsl Hmsn].
  pose proof (Forall2_length_eq _ _ _ Hcodes) as Hcl.
  assert (Hml : length ms_h = length (v_patch_nums q)).
  { rewrite Hmsl, length_combine. lia. }
  split; [exact Hml|].
  intros last_one.
  pose proof (wf_scales q Hwf) as Hsc.
  assert (Hh0 : exists h0, nth_error ms_h 0 = Some h0 /\ exists pn0,
                  sized4 B (Cvae q) pn0 pn0 h0).
  { destruct (v_patch_nums q) as [|pn0 pyr] eqn:Ep; [simpl in Hsc; lia|].
    destruct idxs as [|idx0 idxs']; [simpl in Hcl; discriminate|].
    destruct (Hmsn 0 (pn0, idx0) eq_refl) as (h0 & Hn0 & Hh0).
    exists h0. split; [exact Hn0|]. exists pn0.
    eapply embed_tokens_sized. exact Hh0. }
  destruct Hh0 as (h0 & Hn0 & pn0 & Hs0 & _).
  unfold embed_to_fhat, getitem. rewrite Hn0. cbn [bind]. rewrite Hs0.
  cbn [nth_error bind]. rewrite Hlast. cbn [bind].
  unfold enumerate.
  assert (Ez : zeros float32 [B; Cvae q; HW; HW] = zeros_like (clone (detach x))).
  { unfold zeros_like, clone, detach. rewrite Hd, Hxs. reflexivity. }
  rewrite Ez.
  rewrite (Hemb ms_h last_one (FhatList [])); [reflexivity| |eauto].
  intros k pn idx Hk Hk'.
  destruct (Hmsn k (pn, idx) (nth_error_combine _ _ _ _ _ Hk Hk')) as (h & Hh & Hhe).
  exists h. split; [exact Hh | exact Hhe].
Qed.

End DecoderLemmas.

(* ================================================================= *)
(** ** Teacher forcing and the decode steps *)

Section TeacherForcingLemmas.

Context {BE : Backend}.

Lemma downsample_as_tokens (t : tensor) (B C pn : nat) :
  downsample_tokens t B C pn = (a <- interpolate t pn pn area ;; as_tokens a B C).
Proof. reflexivity. Qed.

Lemma embed_upsample_tokens (q : VectorQuantizer2) (i : itensor) (B C pn H W : nat) :
  embed_upsample q i B C pn H W
  = (h <- embed_tokens q i B C pn ;; interpolate h H W bicubic).
Proof.
  unfold embed_upsample, embed_tokens.
  destruct (embedding_lookup q i) as [e|]; [|reflexivity]. cbn [bind].
  destruct (transpose_1_2 e) as [e'|]; [|reflexivity]. cbn [bind].
  destruct (view e' [B; C; pn; pn]); reflexivity.
Qed.

Lemma embed_tokens_ok (q : VectorQuantizer2) (gt : itensor) (B pn : nat) :
  well_formed q ->
  ishape gt = [B; pn * pn] ->
  Forall (fun i => i < vocab_size q) (idata gt) ->
  exists h, embed_tokens q gt B (Cvae q) pn = Ok h /\ sized4 B (Cvae q) pn pn h.
Proof.
  intros Hwf Hs Hi. unfold embed_tokens.
  destruct (embedding_lookup_ok q gt) as (e & He & Hes & Hed);
    [rewrite (wf_embedding q Hwf); exact Hi|].
  rewrite He. cbn [bind]. rewrite Hs in Hes. simpl in Hes.
  destruct (transpose_1_2_ok e B (pn * pn) (Cvae q) Hes) as (e' & He' & Hes' & Hed').
  rewrite He'. cbn [bind].
  destruct (view_ok e' [B; Cvae q; pn; pn]) as (v & Hv & Hvs & Hvd);
    [unfold numel; rewrite Hes'; simpl; ring|].
  exists v. split; [exact Hv|]. split; [exact Hvs | congruence].
Qed.

Lemma not_last_lt (si SN : nat) : S si < SN -> not_last si SN = true.
Proof.
  intros H. unfold not_last. apply negb_true_iff. apply Z.eqb_neq. lia.
Qed.

Lemma as_tokens_ok (t : tensor) (B C h w : nat) :
  shape t = [B; C; h; w] -> dtype_of t = float32 -> B <> 0 -> C <> 0 ->
  exists tok, as_tokens t B C = Ok tok /\ sized3 B C (h * w) tok.
Proof.
  intros Hs Hd HB HC. unfold as_tokens, view_B_C_rest.
  assert (Hn : numel t = h * w * (B * C))
    by (unfold numel; rewrite Hs; simpl; ring).
  destruct (Nat.eqb_spec (B * C) 0) as [E|HBC]; [nia|].
  rewrite Hn, Nat.Div0.mod_mul, Nat.div_mul by exact HBC.
  cbn [Nat.eqb bind]. unfold transpose_1_2. cbn [shape].
  eexists. split; [reflexivity|].
  split; [reflexivity|]. split; [exact Hd|].
  cbn [data]. apply transpose12_length.
Qed.

(** One scale of [idxBl_to_ns_input] next to the decode step on the
    code map of the ground truth. *)
Lemma ns_scale_run (q : VectorQuantizer2) (gt : list itensor)
    (B HW si : nat) (st : ns_locals) :
  well_formed q -> valid_gt q gt B -> B <> 0 ->
  last_item (v_patch_nums q) = Ok HW ->
  S si < length (v_patch_nums q) ->
  sized4 B (Cvae q) HW HW (ns_f_hat st) ->
  pn_next st = nth si (v_patch_nums q) 0 ->
  exists h f_hat' nxt tok,
    gt_map q gt B si = Ok h /\
    get_next_autoregressive_input q si (length (v_patch_nums q)) (ns_f_hat st) h
    = (Ok (f_hat', nxt), f_hat') /\
    as_tokens nxt B (Cvae q) = Ok tok /\
    sized4 B (Cvae q) HW HW f_hat' /\
    sized3 B (Cvae q) (query_length q (S si)) tok /\
    ns_scale q gt B (Cvae q) HW HW (length (v_patch_nums q)) si st
    = Ok {| ns_f_hat := f_hat'; pn_next := nth (S si) (v_patch_nums q) 0;
            next_scales := next_scales st ++ [tok] |}.
Proof.
  intros Hwf [Hglen Hgt] HB Hlast Hsi [Hfs Hfd] Hpn.
  pose proof Hwf as [Hpol Hunits Hemb Hvoc Hch Hsc Hpos Hema].
  assert (HHW : HW <> 0).
  { rewrite Forall_forall in Hpos. apply Hpos, last_item_In, Hlast. }
  destruct (getitem_lt gt si ltac:(lia)) as (g & Hg).
  pose proof Hg as Hg'. apply getitem_Ok in Hg'.
  destruct (Hgt si g Hg') as [Hgs Hgi].
  assert (Hpsi : nth si (v_patch_nums q) 0 <> 0).
  { rewrite Forall_forall in Hpos. apply Hpos, nth_In. lia. }
  assert (Hpsi' : nth (S si) (v_patch_nums q) 0 <> 0).
  { rewrite Forall_forall in Hpos. apply Hpos, nth_In. lia. }
  set (pn := nth si (v_patch_nums q) 0) in *.
  set (pn' := nth (S si) (v_patch_nums q) 0) in *.
  destruct (embed_tokens_ok q g B pn Hwf Hgs Hgi) as (h & Hh & Hhs & Hhd).
  destruct (interpolate_ok h B (Cvae q) pn pn HW HW bicubic Hhs Hpsi Hpsi HHW HHW)
    as (up & Hup & Hups & Hupd).
  destruct (refine_ok q si (length (v_patch_nums q)) up B HW HW
              Hpol Hunits ltac:(lia) Hups ltac:(congruence))
    as (r & Hr & Hrs & Hrd).
  destruct (binop__float32 sadd (ns_f_hat st) r _ Hfs Hrs Hfd)
    as (f' & Hf' & Hf's & Hf'd & _).
  assert (Hgp : getitem (v_patch_nums q) (si + 1) = Ok pn').
  { apply getitem_Ok. replace (si + 1) with (S si) by lia.
    unfold pn'. apply nth_error_nth'. lia. }
  destruct (interpolate_ok f' B (Cvae q) HW HW pn' pn' area Hf's HHW HHW Hpsi' Hpsi')
    as (nxt & Hnxt & Hnxts & Hnxtd).
  destruct (as_tokens_ok nxt B (Cvae q) pn' pn' Hnxts ltac:(congruence) HB Hch)
    as (tok & Htok & Htoks).
  exists h, f', nxt, tok.
  split; [unfold gt_map; rewrite Hg; exact Hh|].
  split.
  { unfold get_next_autoregressive_input. rewrite Hlast.
    rewrite not_last_lt by exact Hsi.
    apply refine_split in Hr. destruct Hr as (u & Hu & Hur).
    rewrite Hu. cbn [bind]. rewrite Hup. cbn [bind]. rewrite Hur. cbn [bind].
    unfold add_. rewrite Hf'. rewrite Hgp. cbn [bind]. rewrite Hnxt. reflexivity. }
  split; [exact Htok|]. split; [split; assumption|].
  split; [exact Htoks|].
  unfold ns_scale. rewrite Hg. cbn [bind]. rewrite Hpn.
  rewrite embed_upsample_tokens, Hh. cbn [bind]. rewrite Hup. cbn [bind].
  rewrite Hr. cbn [bind]. unfold add_. rewrite Hf'. cbn [bind].
  rewrite Hgp. cbn [bind]. rewrite downsample_as_tokens, Hnxt. cbn [bind].
  rewrite Htok. reflexivity.
Qed.

Lemma ns_loop_run (q : VectorQuantizer2) (gt : list itensor) (B HW : nat) :
  well_formed q -> valid_gt q gt B -> B <> 0 ->
  last_item (v_patch_nums q) = Ok HW ->
  forall (n a : nat) (st : ns_locals),
    a + n < length (v_patch_nums q) ->
    sized4 B (Cvae q) HW HW (ns_f_hat st) ->
    pn_next st = nth a (v_patch_nums q) 0 ->
    exists outs toks st',
      ns_loop q gt B (Cvae q) HW HW (length (v_patch_nums q)) (seq a n) st = Ok st' /\
      next_scales st' = next_scales st ++ toks /\
      decode_run q (length (v_patch_nums q)) (gt_map q gt B) (seq a n) (ns_f_hat st)
      = Ok outs /\
      Forall2 (fun out tok => as_tokens (snd out) B (Cvae q) = Ok tok) outs toks /\
      Forall2 (fun si tok => sized3 B (Cvae q) (query_length q si) tok)
        (seq (S a) n) toks.
Proof.
  intros Hwf Hgt HB Hlast.
  induction n as [|n IH]; intros a st Han Hsz Hpn.
  - exists [], [], st. simpl. rewrite app_nil_r.
    repeat split; constructor.
  - destruct (ns_scale_run q gt B HW a st Hwf Hgt HB Hlast ltac:(lia) Hsz Hpn)
      as (h & f' & nxt & tok & Hh & Hstep & Htok & Hsz' & Htoks & Hns).
    destruct (IH (S a) {| ns_f_hat := f'; pn_next := nth (S a) (v_patch_nums q) 0;
                          next_scales := next_scales st ++ [tok] |}
                ltac:(lia) Hsz' eq_refl)
      as (outs & toks & st' & Hloop & Hnext & Hdec & Hout & Hsized).
    cbn [ns_f_hat next_scales] in *.
    exists ((f', nxt) :: outs), (tok :: toks), st'.
    split; [cbn [seq ns_loop]; rewrite Hns; exact Hloop|].
    split; [rewrite Hnext, <- app_assoc; reflexivity|].
    split.
    { cbn [seq decode_run]. rewrite Hh. cbn [bind]. rewrite Hstep, Hdec. reflexivity. }
    split; constructor; assumption.
Qed.

End TeacherForcingLemmas.

(* ================================================================= *)
(** ** The masked sequence *)

Section MaskSequenceLemmas.

Context {BE : Backend}.

Lemma own_contribution_functional (q : VectorQuantizer2) (gt : list itensor)
    (B HW si : nat) (t1 t2 : tensor) :
  own_contribution q gt B HW si t1 -> own_contribution q gt B HW si t2 -> t1 = t2.
Proof.
  intros (g1 & Hg1 & Hc1 & _) (g2 & Hg2 & Hc2 & _).
  rewrite Hg1 in Hg2. inversion Hg2; subst g2.
  rewrite Hc1 in Hc2. inversion Hc2. reflexivity.
Qed.

Lemma Forall2_functional {A B} (P : A -> B -> Prop) (l : list A) (l1 l2 : list B) :
  (forall a b1 b2, P a b1 -> P a b2 -> b1 = b2) ->
  Forall2 P l l1 -> Forall2 P l l2 -> l1 = l2.
Proof.
  intros Hf H1. revert l2. induction H1 as [|a b l l1 Hab H1 IH]; intros l2 H2;
    inversion H2; subst; [reflexivity|].
  f_equal; [eapply Hf; eauto | apply IH; assumption].
Qed.

(** [idxBl_to_mask_input] on valid ground truth: the sequence is the
    concatenation of the contributions of the scales after the first. *)
Lemma mask_input_run (G : Generator) (g : gen_state G) (q : VectorQuantizer2)
    (gt : list itensor) (p : Q) (B HW : nat) :
  samples_without_replacement G -> well_formed q ->
  (0 < p)%Q -> (p <= 1)%Q ->
  valid_gt q gt B -> B <> 0 ->
  last_item (v_patch_nums q) = Ok HW ->
  exists out sels g' toks,
    idxBl_to_mask_input G g q gt p = Ok (out, sels, g') /\
    Forall2 (own_contribution q gt B HW) (seq 1 (length (v_patch_nums q) - 1)) toks /\
    Forall2 (fun si tok => sized3 B (Cvae q) (query_length q si) tok)
      (seq 1 (length (v_patch_nums q) - 1)) toks /\
    cat_dim1 toks = Ok out /\
    shape out
    = [B; fold_right Nat.add 0
            (map (query_length q) (seq 1 (length (v_patch_nums q) - 1)));
       Cvae q] /\
    dtype_of out = float32.
Proof.
  intros HG Hwf Hp0 Hp1 Hgt HB Hlast.
  pose proof (wf_scales q Hwf) as Hsc.
  set (SN := length (v_patch_nums q)) in *.
  set (init := {| mk_gen := g; idx_to_mask := []; cur_l := 0;
                  mk_next_scales := @nil tensor |}).
  destruct (mask_loop_ok G q gt p B HW HG Hwf Hp0 Hp1 Hgt HB Hlast
              (SN - 1) 1 init ltac:(lia) ltac:(fold SN; lia) eq_refl)
    as (st & sels & toks & Hloop & Hsels & Htoks & HFs & HFt).
  fold SN in Hloop. simpl in Hsels, Htoks.
  assert (HFsz : Forall2 (fun si tok => sized3 B (Cvae q) (query_length q si) tok)
                   (seq 1 (SN - 1)) toks).
  { clear -HFt. induction HFt as [|si tok sis toks (g0 & _ & _ & Hsz) HF IH];
      constructor; assumption. }
  assert (Hne : toks <> []).
  { apply Forall2_length in HFt. rewrite length_seq in HFt.
    destruct toks; [simpl in HFt; lia | discriminate]. }
  destruct (cat_dim1_sized toks B (Cvae q) (map (query_length q) (seq 1 (SN - 1)))
              Hne (Forall2_sized_map q B (Cvae q) 1 (SN - 1) toks HFsz))
    as (out & Hcat & Hos & Hod & _).
  destruct Hgt as [Hglen Hgt].
  destruct (getitem_lt gt 0 ltac:(fold SN in Hglen; lia)) as (gt0 & Hg0).
  pose proof Hg0 as Hg0'. apply getitem_Ok in Hg0'.
  destruct (Hgt 0 gt0 Hg0') as [Hs0 _].
  exists out, sels, (mk_gen st), toks.
  split.
  - unfold idxBl_to_mask_input, mask_run. rewrite Hg0. cbn [bind].
    rewrite Hs0. cbn [getitem nth_error bind]. rewrite Hlast. cbn [bind].
    fold SN. fold init. rewrite Hloop. cbn [bind].
    rewrite Htoks, Hcat, Hsels. reflexivity.
  - repeat split; assumption.
Qed.

End MaskSequenceLemmas.

(** ** The second sampler *)

Lemma last_k_samples : samples_without_replacement Exact.last_k.
Proof.
  intros g n k Hk. cbn [Exact.last_k draw fst]. rewrite repeat_length.
  split; [rewrite length_map; apply length_seq|].
  split.
  - assert (H : forall k, k <= n -> NoDup (map (fun i => n - 1 - i) (seq 0 k))).
    { clear. induction k as [|k IH]; intros Hk; [constructor|].
      rewrite seq_S, map_app. simpl.
      apply NoDup_app_remove_l with (l := []). simpl.
      apply NoDup_incl_NoDup with (l := (n - 1 - k) :: map (fun i => n - 1 - i) (seq 0 k)).
      - constructor; [|apply IH; lia].
        intros Hin. apply in_map_iff in Hin. destruct Hin as (i & E & Hi).
        apply in_seq in Hi. lia.
      - simpl. rewrite length_app. simpl. lia.
      - intros x [Hx|Hx]; apply in_or_app; [right; left; exact Hx | left; exact Hx]. }
    apply H. lia.
  - apply Forall_forall. intros i Hi. apply in_map_iff in Hi.
    destruct Hi as (j & E & Hj). apply in_seq in Hj. lia.
Qed.

Lemma single_scale_quantizer_from_init :
  Exact.make [2] (1 # 2) 4 = Ok single_scale_quantizer.
Proof. reflexivity. Qed.

(* ================================================================= *)
(** ** Decoding step by step and [embed_to_fhat] *)

Section DecodeRunLemmas.

Context {BE : Backend}.

Lemma last_item_nth {A} (l : list A) (a d : A) :
  last_item l = Ok a -> nth (length l - 1) l d = a.
Proof.
  assert (G : forall (l0 : list A) (x0 : A), nth (length l0) (x0 :: l0) d = last l0 x0).
  { induction l0 as [|y l0 IH]; intros x0; [reflexivity|].
    cbn [length]. change (nth (S (length l0)) (x0 :: y :: l0) d)
      with (nth (length l0) (y :: l0) d).
    rewrite IH. symmetry. apply last_cons_default. }
  destruct l as [|x l]; cbn [last_item]; intros H; inversion H.
  cbn [length]. rewrite Nat.sub_succ, Nat.sub_0_r. apply G.
Qed.

Lemma not_last_eq (si SN : nat) : S si = SN -> not_last si SN = false.
Proof.
  intros H. unfold not_last. apply negb_false_iff. apply Z.eqb_eq. lia.
Qed.

(** One decode step on a map of the right size, next to the same scale
    of [embed_to_fhat]. *)
Lemma decode_step_run (q : VectorQuantizer2) (B HW si : nat) (f h : tensor) :
  well_formed q -> last_item (v_patch_nums q) = Ok HW ->
  si < length (v_patch_nums q) ->
  sized4 B (Cvae q) (nth si (v_patch_nums q) 0) (nth si (v_patch_nums q) 0) h ->
  sized4 B (Cvae q) HW HW f ->
  exists f' nxt,
    get_next_autoregressive_input q si (length (v_patch_nums q)) f h
    = (Ok (f', nxt), f') /\
    sized4 B (Cvae q) HW HW f' /\
    (S si = length (v_patch_nums q) -> nxt = f') /\
    (S si < length (v_patch_nums q) ->
     interpolate f' (nth (S si) (v_patch_nums q) 0) (nth (S si) (v_patch_nums q) 0) area
     = Ok nxt /\
     sized4 B (Cvae q) (nth (S si) (v_patch_nums q) 0) (nth (S si) (v_patch_nums q) 0)
       nxt) /\
    (forall ms_h last_one ls,
       getitem ms_h si = Ok h ->
       embed_scale_max q ms_h last_one HW HW (length (v_patch_nums q)) si (f, ls)
       = (ls' <- record_fhat last_one ls f' (clone f') ;; Ok (f', ls'))).
Proof.
  intros Hwf Hlast Hsi [Hhs Hhd] [Hfs Hfd].
  pose proof Hwf as [Hpol Hunits Hemb Hvoc Hch Hsc Hpos Hema].
  rewrite Forall_forall in Hpos.
  assert (HHW : HW <> 0) by (apply Hpos, last_item_In, Hlast).
  assert (Hpn : nth si (v_patch_nums q) 0 <> 0) by (apply Hpos, nth_In; lia).
  set (pn := nth si (v_patch_nums q) 0) in *.
  set (SN := length (v_patch_nums q)) in *.
  destruct (Nat.eq_dec (S si) SN) as [Elast|Hnl].
  - (* the last scale *)
    assert (Epn : pn = HW).
    { unfold pn. replace si with (SN - 1) by lia. apply last_item_nth. exact Hlast. }
    rewrite Epn in Hhs.
    destruct (refine_ok q si SN h B HW HW Hpol Hunits ltac:(lia) Hhs Hhd)
      as (r & Hr & Hrs & Hrd).
    destruct (binop__float32 sadd f r _ Hfs Hrs Hfd) as (f' & Hf' & Hf's & Hf'd & _).
    exists f', f'.
    split.
    { unfold get_next_autoregressive_input. rewrite Hlast.
      rewrite not_last_eq by exact Elast. rewrite Hr. cbn [bind].
      unfold add_. rewrite Hf'. reflexivity. }
    split; [split; assumption|]. split; [reflexivity|]. split; [lia|].
    intros ms_h last_one ls Hget. unfold embed_scale_max. rewrite Hget. cbn [bind].
    destruct (before_last_not_last si SN) as [E|E]; [|lia].
    rewrite E. replace (Nat.eqb si (SN - 1)) with true
      by (symmetry; apply Nat.eqb_eq; lia).
    cbn [negb bind]. rewrite Hr. cbn [bind]. unfold add_. rewrite Hf'. reflexivity.
  - (* a scale before the last *)
    assert (Hlt : S si < SN) by lia.
    assert (Hpn' : nth (S si) (v_patch_nums q) 0 <> 0) by (apply Hpos, nth_In; lia).
    set (pn' := nth (S si) (v_patch_nums q) 0) in *.
    destruct (interpolate_ok h B (Cvae q) pn pn HW HW bicubic Hhs Hpn Hpn HHW HHW)
      as (up & Hup & Hups & Hupd).
    destruct (refine_ok q si SN up B HW HW Hpol Hunits ltac:(lia) Hups
                ltac:(congruence)) as (r & Hr & Hrs & Hrd).
    destruct (binop__float32 sadd f r _ Hfs Hrs Hfd) as (f' & Hf' & Hf's & Hf'd & _).
    assert (Hgp : getitem (v_patch_nums q) (si + 1) = Ok pn').
    { apply getitem_Ok. replace (si + 1) with (S si) by lia.
      unfold pn'. apply nth_error_nth'. exact Hlt. }
    destruct (interpolate_ok f' B (Cvae q) HW HW pn' pn' area Hf's HHW HHW Hpn' Hpn')
      as (nxt & Hnxt & Hnxts & Hnxtd).
    exists f', nxt.
    split.
    { unfold get_next_autoregressive_input. rewrite Hlast.
      rewrite not_last_lt by exact Hlt.
      pose proof Hr as Hr'. apply refine_split in Hr'. destruct Hr' as (u & Hu & Hur).
      rewrite Hu. cbn [bind]. rewrite Hup. cbn [bind]. rewrite Hur. cbn [bind].
      unfold add_. rewrite Hf'. rewrite Hgp. cbn [bind]. rewrite Hnxt. reflexivity. }
    split; [split; assumption|]. split; [lia|].
    split; [intros _; split; [exact Hnxt | split; congruence]|].
    intros ms_h last_one ls Hget. unfold embed_scale_max. rewrite Hget. cbn [bind].
    destruct (before_last_not_last si SN) as [E|E]; [|lia].
    rewrite E. replace (Nat.eqb si (SN - 1)) with false
      by (symmetry; apply Nat.eqb_neq; lia).
    cbn [negb]. rewrite Hup. cbn [bind]. rewrite Hr. cbn [bind].
    unfold add_. rewrite Hf'. reflexivity.
Qed.

(** The decoding run over the scales [a, a+1, ...], next to the loop of
    [embed_to_fhat]. *)
Lemma decode_loop_run (q : VectorQuantizer2) (B HW : nat) (ms_h : list tensor) :
  well_formed q -> last_item (v_patch_nums q) = Ok HW ->
  Forall2 (fun pn h => sized4 B (Cvae q) pn pn h) (v_patch_nums q) ms_h ->
  forall (n a : nat) (f : tensor),
    a + n <= length (v_patch_nums q) ->
    sized4 B (Cvae q) HW HW f ->
    exists outs,
      decode_run q (length (v_patch_nums q)) (getitem ms_h) (seq a n) f = Ok outs /\
      length outs = n /\
      Forall (sized4 B (Cvae q) HW HW) (map fst outs) /\
      (forall k out, nth_error outs k = Some out ->
         (S (a + k) = length (v_patch_nums q) -> snd out = fst out) /\
         (S (a + k) < length (v_patch_nums q) ->
          interpolate (fst out) (nth (S (a + k)) (v_patch_nums q) 0)
            (nth (S (a + k)) (v_patch_nums q) 0) area = Ok (snd out))) /\
      (forall last_one ls,
         (last_one = false -> exists l, ls = FhatList l) ->
         embed_loop
           (fun si _ => embed_scale_max q ms_h last_one HW HW
                          (length (v_patch_nums q)) si)
           (enumerate_from a (firstn n (skipn a (v_patch_nums q)))) (f, ls)
         = Ok (last (map fst outs) f, after_record last_one ls (map fst outs))).
Proof.
  intros Hwf Hlast Hms.
  pose proof (Forall2_length_eq _ _ _ Hms) as Hml.
  induction n as [|n IH]; intros a f Han Hf.
  - exists []. cbn [seq decode_run length map firstn enumerate_from embed_loop last].
    split; [reflexivity|]. split; [reflexivity|]. split; [constructor|].
    split; [intros [|k] out Hk; discriminate|].
    intros [|] ls Hls; [reflexivity|].
    destruct (Hls eq_refl) as (l & ->). simpl. rewrite app_nil_r. reflexivity.
  - assert (Hsi : a < length (v_patch_nums q)) by lia.
    assert (Hh : exists h, getitem ms_h a = Ok h /\
              sized4 B (Cvae q) (nth a (v_patch_nums q) 0) (nth a (v_patch_nums q) 0) h).
    { destruct (getitem_lt ms_h a ltac:(lia)) as (h & Hh). exists h.
      split; [exact Hh|]. apply getitem_Ok in Hh.
      clear -Hms Hh Hsi. revert a Hh Hsi.
      induction Hms as [|pn h' pyr hs Hp HF IH]; intros [|a] Hh Hsi; simpl in *;
        try discriminate; try lia.
      - inversion Hh; subst. exact Hp.
      - apply IH; [exact Hh | lia]. }
    destruct Hh as (h & Hget & Hhsz).
    destruct (decode_step_run q B HW a f h Hwf Hlast Hsi Hhsz Hf)
      as (f' & nxt & Hstep & Hf' & Hlastout & Hnext & Hemb).
    destruct (IH (S a) f' ltac:(lia) Hf')
      as (outs & Hdec & Hlen & Hsz & Hnth & Hloop).
    exists ((f', nxt) :: outs).
    split.
    { cbn [seq decode_run]. rewrite Hget. cbn [bind]. rewrite Hstep, Hdec. reflexivity. }
    split; [simpl; congruence|].
    split; [constructor; assumption|].
    split.
    { intros [|k] out Hk; simpl in Hk.
      - inversion Hk; subst out. rewrite Nat.add_0_r. cbn [fst snd].
        split; [exact Hlastout | intros Hlt; apply Hnext; exact Hlt].
      - replace (a + S k) with (S a + k) by lia. apply Hnth. exact Hk. }
    intros last_one ls Hls.
    assert (Hsk : firstn (S n) (skipn a (v_patch_nums q))
                  = nth a (v_patch_nums q) 0 :: firstn n (skipn (S a) (v_patch_nums q))).
    { clear -Hsi. revert a Hsi.
      induction (v_patch_nums q) as [|x l IHl]; intros [|a] Hsi; simpl in *; try lia.
      - reflexivity.
      - apply IHl. lia. }
    rewrite Hsk. cbn [enumerate_from embed_loop].
    rewrite (Hemb ms_h last_one ls Hget).
    assert (Hrec : exists ls1,
              record_fhat last_one ls f' (clone f') = Ok ls1 /\
              (last_one = false -> exists l, ls1 = FhatList l) /\
              after_record last_one ls1 (map fst outs)
              = after_record last_one ls (f' :: map fst outs)).
    { destruct last_one.
      - exists (FhatLast f'). split; [reflexivity|].
        split; [discriminate|]. unfold after_record.
        destruct (map fst outs) as [|t ts]; [reflexivity|].
        rewrite (last_cons_default ts t f'). reflexivity.
      - destruct (Hls eq_refl) as (l & ->).
        exists (FhatList (l ++ [f'])). split; [reflexivity|].
        split; [eauto|]. simpl. rewrite <- app_assoc. reflexivity. }
    destruct Hrec as (ls1 & Hr1 & Hls1 & Hafter).
    rewrite Hr1. cbn [bind]. rewrite (Hloop last_one ls1 Hls1).
    cbn [map fst]. rewrite Hafter, last_cons_default. reflexivity.
Qed.

Lemma Forall2_nth_sized (B C : nat) (pyr : list nat) (ms_h : list tensor) (a : nat) :
  Forall2 (fun pn h => sized4 B C pn pn h) pyr ms_h ->
  a < length pyr ->
  exists h, getitem ms_h a = Ok h /\ sized4 B C (nth a pyr 0) (nth a pyr 0) h.
Proof.
  intros Hms. revert a.
  induction Hms as [|pn h' pyr hs Hp HF IH]; intros [|a] Hsi; simpl in *; try lia.
  - exists h'. split; [reflexivity | exact Hp].
  - destruct (IH a ltac:(lia)) as (h & Hh & Hs). exists h. split; assumption.
Qed.

(** The loop of [embed_to_fhat] when the reconstruction follows the
    scales instead. *)
Lemma embed_own_loop_run (q : VectorQuantizer2) (B : nat) (ms_h : list tensor) :
  well_formed q ->
  Forall2 (fun pn h => sized4 B (Cvae q) pn pn h) (v_patch_nums q) ms_h ->
  forall (n a p : nat) (f : tensor),
    a + n <= length (v_patch_nums q) ->
    sized4 B (Cvae q) p p f -> p <> 0 ->
    exists fs,
      Forall2 (fun pn t => sized4 B (Cvae q) pn pn t)
        (firstn n (skipn a (v_patch_nums q))) fs /\
      forall (last_one : bool) (ls : fhat_ls),
        (last_one = false -> exists l, ls = FhatList l) ->
        embed_loop (embed_scale_own q ms_h last_one (length (v_patch_nums q)))
          (enumerate_from a (firstn n (skipn a (v_patch_nums q)))) (f, ls)
        = Ok (last fs f, after_record last_one ls fs).
Proof.
  intros Hwf Hms.
  pose proof Hwf as [Hpol Hunits Hemb Hvoc Hch Hsc Hpos Hema].
  rewrite Forall_forall in Hpos.
  induction n as [|n IH]; intros a p f Han Hf Hp.
  - exists []. cbn [firstn enumerate_from embed_loop last].
    split; [constructor|]. intros last_one ls Hls.
    destruct last_one; [reflexivity|].
    destruct (Hls eq_refl) as (l & ->). simpl. rewrite app_nil_r. reflexivity.
  - assert (Hsi : a < length (v_patch_nums q)) by lia.
    assert (Hsk : firstn (S n) (skipn a (v_patch_nums q))
                  = nth a (v_patch_nums q) 0 :: firstn n (skipn (S a) (v_patch_nums q))).
    { clear -Hsi. revert a Hsi.
      induction (v_patch_nums q) as [|x l IHl]; intros [|a] Hsi; simpl in *; try lia.
      - reflexivity.
      - apply IHl. lia. }
    rewrite Hsk.
    set (pn := nth a (v_patch_nums q) 0) in *.
    assert (Hpn : pn <> 0) by (apply Hpos, nth_In; lia).
    destruct (Forall2_nth_sized B (Cvae q) _ ms_h a Hms Hsi) as (h & Hget & [Hhs Hhd]).
    fold pn in Hhs.
    destruct Hf as [Hfs Hfd].
    destruct (interpolate_ok f B (Cvae q) p p pn pn bicubic Hfs Hp Hp Hpn Hpn)
      as (f1 & Hf1 & Hf1s & Hf1d).
    destruct (refine_ok q a (length (v_patch_nums q)) h B pn pn Hpol Hunits
                ltac:(lia) Hhs Hhd) as (r & Hr & Hrs & Hrd).
    apply refine_split in Hr. destruct Hr as (u & Hu & Hur).
    destruct (binop__float32 sadd f1 r _ Hf1s Hrs ltac:(congruence))
      as (f' & Hf' & Hf's & Hf'd & _).
    destruct (IH (S a) pn f' ltac:(lia) ltac:(split; assumption) Hpn)
      as (fs & Hfsz & Hloop).
    exists (f' :: fs).
    split; [constructor; [split; assumption | exact Hfsz]|].
    intros last_one ls Hls.
    assert (Hrec : exists ls1,
              record_fhat last_one ls f' f' = Ok ls1 /\
              (last_one = false -> exists l, ls1 = FhatList l) /\
              after_record last_one ls1 fs = after_record last_one ls (f' :: fs)).
    { destruct last_one.
      - exists (FhatLast f'). split; [reflexivity|].
        split; [discriminate|]. unfold after_record.
        destruct fs as [|t ts]; [reflexivity|].
        rewrite (last_cons_default ts t f'). reflexivity.
      - destruct (Hls eq_refl) as (l & ->).
        exists (FhatList (l ++ [f'])). split; [reflexivity|].
        split; [eauto|]. simpl. rewrite <- app_assoc. reflexivity. }
    destruct Hrec as (ls1 & Hr1 & Hls1 & Hafter).
    cbn [enumerate_from embed_loop]. unfold embed_scale_own at 1.
    rewrite Hf1. cbn [bind]. rewrite Hu. cbn [bind]. rewrite Hget. cbn [bind].
    rewrite Hur. cbn [bind]. unfold add_. rewrite Hf'. cbn [bind].
    rewrite Hr1. cbn [bind]. rewrite (Hloop last_one ls1 Hls1), Hafter, last_cons_default.
    reflexivity.
Qed.

End DecodeRunLemmas.

(* ================================================================= *)
(** ** Pyramids of fewer than two scales *)

Section SingleScaleLemmas.

Context {BE : Backend}.

Lemma fails_bind_r {A B} (m : result A) (k : A -> result B) :
  (forall a, is_ok (k a) = false) -> is_ok (bind m k) = false.
Proof. intros H. destruct m; simpl; [apply H | reflexivity]. Qed.

Lemma fails_bindM_r {A B} (m : M A) (k : A -> M B) (q : VectorQuantizer2) :
  (forall a q', is_ok (fst (k a q')) = false) ->
  is_ok (fst (bindM m k q)) = false.
Proof.
  intros H. unfold bindM. destruct (m q) as [[a|e] q']; [apply H | reflexivity].
Qed.

Lemma fails_bindM_l {A B} (m : M A) (k : A -> M B) (q : VectorQuantizer2) :
  is_ok (fst (m q)) = false -> is_ok (fst (bindM m k q)) = false.
Proof.
  intros H. unfold bindM. destruct (m q) as [[a|e] q']; [discriminate | reflexivity].
Qed.

Lemma scale_position_single (si : nat) : scale_position si 1 = Raise ZeroDivisionError.
Proof. reflexivity. Qed.

Lemma lookup_unit_single (q : VectorQuantizer2) (si : nat) :
  lookup_unit q si 1 = Raise ZeroDivisionError.
Proof. reflexivity. Qed.

Lemma refine_single (q : VectorQuantizer2) (si : nat) (h : tensor) :
  refine q si 1 h = Raise ZeroDivisionError.
Proof. reflexivity. Qed.

Lemma forward_scale_single env x x' B C H W si pn st q :
  is_ok (fst (forward_scale env x x' B C H W 1 si pn st q)) = false.
Proof.
  unfold forward_scale. rewrite bindM_self. cbv zeta.
  do 4 (apply fails_bindM_r; intros ? ?).
  apply fails_bindM_l. reflexivity.
Qed.

Lemma f_to_idx_scale_single q to_fhat B C H W si ph pw st :
  is_ok (f_to_idx_scale q to_fhat B C H W 1 si ph pw st) = false.
Proof.
  unfold f_to_idx_scale. destruct st as [f_hat f_rest].
  do 4 (apply fails_bind_r; intros ?).
  reflexivity.
Qed.

Lemma embed_scale_max_single q ms_h last_one H W si st :
  is_ok (embed_scale_max q ms_h last_one H W 1 si st) = false.
Proof.
  unfold embed_scale_max. destruct st as [f_hat ls].
  do 2 (apply fails_bind_r; intros ?).
  reflexivity.
Qed.

Lemma embed_scale_own_single q ms_h last_one si pn st :
  is_ok (embed_scale_own q ms_h last_one 1 si pn st) = false.
Proof.
  unfold embed_scale_own. destruct st as [f_hat ls].
  apply fails_bind_r; intros ?. reflexivity.
Qed.

End SingleScaleLemmas.

(* ================================================================= *)
(** ** Ticks and scale positions *)

From Stdlib Require Import Lqa.

Lemma Qnat_pred (K : nat) : 1 <= K -> (Qnat (K - 1) == Qnat K - 1)%Q.
Proof.
  intros H. unfold Qnat. rewrite Nat2Z.inj_sub by exact H.
  unfold Z.sub. rewrite inject_Z_plus, inject_Z_opp. reflexivity.
Qed.

Lemma Qnat_pos (K : nat) : 1 <= K -> (0 < Qnat K)%Q.
Proof.
  intros H. unfold Qnat. replace 0%Q with (inject_Z 0) by reflexivity.
  rewrite <- Zlt_Qlt. lia.
Qed.

Lemma Qnat_le (a b : nat) : a <= b -> (Qnat a <= Qnat b)%Q.
Proof. intros H. unfold Qnat. rewrite <- Zle_Qle. lia. Qed.

Lemma Qnat_S (a : nat) : (Qnat (S a) == Qnat a + 1)%Q.
Proof.
  unfold Qnat. rewrite Nat2Z.inj_succ. unfold Z.succ.
  rewrite inject_Z_plus. reflexivity.
Qed.

Lemma nth_map_seq {A} (f : nat -> A) (n j : nat) (d : A) :
  j < n -> nth j (map f (seq 0 n)) d = f j.
Proof.
  intros H. rewrite (nth_indep _ d (f 0)) by (rewrite length_map, length_seq; exact H).
  rewrite map_nth, seq_nth by exact H. reflexivity.
Qed.

(** The samples of [np.linspace] with at least two of them. *)
Lemma linspace_nth (a b : Q) (K j : nat) :
  2 <= K -> j < K ->
  (nth j (Np.linspace a b K) 0 == a + Qnat j * ((b - a) / Qnat (K - 1)))%Q.
Proof.
  intros HK Hj. destruct K as [|[|n]]; try lia.
  unfold Np.linspace.
  assert (Hn0 : ~ (Qnat (S (S n) - 1) == 0)%Q).
  { apply Qnat_neq0. lia. }
  destruct (Nat.eq_dec j (S n)) as [->|Hne].
  - rewrite app_nth2 by (rewrite length_map, length_seq; lia).
    rewrite length_map, length_seq.
    replace (S n - (S (S n) - 1)) with 0 by lia. cbn [nth].
    replace (S (S n) - 1) with (S n) in * by lia. field. exact Hn0.
  - rewrite app_nth1 by (rewrite length_map, length_seq; lia).
    rewrite nth_map_seq by lia. ring.
Qed.

Lemma Forall2_Qeq_nth (l1 l2 : list Q) (j : nat) :
  Forall2 Qeq l1 l2 -> (nth j l1 0 == nth j l2 0)%Q.
Proof.
  intros H. revert j. induction H as [|x y l1 l2 Hxy H IH]; intros [|j]; simpl;
    try reflexivity; [exact Hxy | apply IH].
Qed.

Lemma tick_offset (K j si : nat) (c : Q) :
  2 <= K -> (2 <= c)%Q ->
  let k := Qnat K in
  let a := (1 / (c * k))%Q in
  let x := (a + Qnat j * ((1 - a - a) / Qnat (K - 1))
            - Qnat si / inject_Z (Z.of_nat K - 1))%Q in
  (x * (c * k * (k - 1)) == (k - 1) + Qnat j * (c * k - 2) - Qnat si * (c * k))%Q.
Proof.
  intros HK Hc k a x. unfold x, a.
  assert (Hk : (2 <= k)%Q).
  { unfold k. change 2%Q with (Qnat 2). apply Qnat_le. exact HK. }
  rewrite (Qnat_pred K) by lia. fold k.
  assert (E : (inject_Z (Z.of_nat K - 1) == k - 1)%Q).
  { unfold k, Qnat, Z.sub. rewrite inject_Z_plus, inject_Z_opp. reflexivity. }
  rewrite E. field. repeat split; lra.
Qed.
(** Among the ticks of [K >= 2] units, the one of index [si] is strictly
    the nearest to the position [si / (K - 1)]. *)
Lemma own_tick_is_nearest (K j si : nat) (c : Q) :
  2 <= K -> (2 <= c)%Q -> j < K -> si < K -> j <> si ->
  let a := (1 / (c * Qnat K))%Q in
  let t := (Qnat si / inject_Z (Z.of_nat K - 1))%Q in
  let tick i := (a + Qnat i * ((1 - a - a) / Qnat (K - 1)))%Q in
  (Qabs (tick si - t) < Qabs (tick j - t))%Q.
Proof.
  intros HK Hc Hj Hsi Hne a t tick.
  pose proof (tick_offset K j si c HK Hc) as Ej.
  pose proof (tick_offset K si si c HK Hc) as Es.
  cbv zeta in Ej, Es. fold a in Ej, Es. fold t in Ej, Es.
  fold (tick j) in Ej. fold (tick si) in Es.
  set (k := Qnat K) in *. set (s := Qnat si) in *. set (jq := Qnat j) in *.
  assert (Hk : (2 <= k)%Q).
  { unfold k. change 2%Q with (Qnat 2). apply Qnat_le. exact HK. }
  assert (Hs0 : (0 <= s)%Q).
  { unfold s. change 0%Q with (Qnat 0). apply Qnat_le. lia. }
  assert (Hj0 : (0 <= jq)%Q).
  { unfold jq. change 0%Q with (Qnat 0). apply Qnat_le. lia. }
  assert (Hsk : (s + 1 <= k)%Q).
  { unfold s, k. rewrite <- Qnat_S. apply Qnat_le. lia. }
  assert (Hjk : (jq + 1 <= k)%Q).
  { unfold jq, k. rewrite <- Qnat_S. apply Qnat_le. lia. }
  set (D := (c * k * (k - 1))%Q) in *.
  assert (HD : (0 < D)%Q).
  { unfold D. apply Qmult_lt_0_compat; [apply Qmult_lt_0_compat|]; lra. }
  assert (Hck : (0 < c * k - 2)%Q).
  { assert (H2 : (0 <= (c - 2) * k)%Q) by (apply Qmult_le_0_compat; lra).
    nra. }
  set (xs := (tick si - t)%Q) in *. set (xj := (tick j - t)%Q) in *.
  destruct (Nat.lt_ge_cases si j) as [Hlt|Hge].
  - (* a later tick lies above *)
    assert (Hd : (s + 1 <= jq)%Q).
    { unfold s, jq. rewrite <- Qnat_S. apply Qnat_le. lia. }
    assert (HP : (0 <= (jq - s - 1) * (c * k - 2))%Q)
      by (apply Qmult_le_0_compat; lra).
    assert (HQ : (0 <= (c - 2) * k)%Q) by (apply Qmult_le_0_compat; lra).
    assert (H1 : (xs * D < xj * D)%Q) by (rewrite Es, Ej; nra).
    assert (H2 : (- (xj * D) < xs * D)%Q) by (rewrite Es, Ej; nra).
    assert (L1 : (xs < xj)%Q) by (apply (Qmult_lt_r _ _ D HD); exact H1).
    assert (L2 : (- xj < xs)%Q).
    { apply (Qmult_lt_r _ _ D HD). setoid_replace (- xj * D)%Q with (- (xj * D))%Q by ring.
      exact H2. }
    eapply Qlt_le_trans; [|apply Qle_Qabs].
    apply Qabs_Qlt_condition. split; assumption.
  - (* an earlier tick lies below *)
    assert (Hd : (jq + 1 <= s)%Q).
    { unfold s, jq. rewrite <- Qnat_S. apply Qnat_le. lia. }
    assert (HP : (0 <= (s - jq - 1) * (c * k - 2))%Q)
      by (apply Qmult_le_0_compat; lra).
    assert (HQ : (0 <= (c - 2) * k)%Q) by (apply Qmult_le_0_compat; lra).
    assert (H1 : (xj * D < xs * D)%Q) by (rewrite Es, Ej; nra).
    assert (H2 : (xs * D < - (xj * D))%Q) by (rewrite Es, Ej; nra).
    assert (L1 : (xj < xs)%Q) by (apply (Qmult_lt_r _ _ D HD); exact H1).
    assert (L2 : (xs < - xj)%Q).
    { apply (Qmult_lt_r _ _ D HD). setoid_replace (- xj * D)%Q with (- (xj * D))%Q by ring.
      exact H2. }
    rewrite <- (Qabs_opp xj).
    eapply Qlt_le_trans; [|apply Qle_Qabs].
    apply Qabs_Qlt_condition. split; [|exact L2].
    setoid_replace (- - xj)%Q with xj by ring. exact L1.
Qed.
Lemma nth_map_in {A B} (f : A -> B) (l : list A) (j : nat) (d : A) (d' : B) :
  j < length l -> nth j (map f l) d' = f (nth j l d).
Proof.
  intros H. rewrite (nth_indep _ d' (f d)) by (rewrite length_map; exact H).
  apply map_nth.
Qed.

(** With at least two units, scale [si] of as many scales is served by
    the tick of index [si]. *)
Lemma nearest_tick_own (K si : nat) (tk : list Q) :
  2 <= K -> si < K -> make_ticks K = Ok tk ->
  nearest_tick tk (Qnat si / inject_Z (Z.of_nat K - 1)) = Ok si.
Proof.
  intros HK Hsi Htk.
  destruct (make_ticks_closed_form K ltac:(lia)) as (tk' & Htk' & Hlen & Hcf).
  rewrite Htk in Htk'. inversion Htk'; subst tk'. clear Htk'.
  set (t := (Qnat si / inject_Z (Z.of_nat K - 1))%Q).
  destruct (nearest_tick_first_min tk t) as (i & Hi & Hmin);
    [destruct tk; [simpl in Hlen; lia | discriminate]|].
  rewrite Hi. f_equal.
  destruct (Nat.eq_dec i si) as [E|Hne]; [exact E | exfalso].
  destruct Hmin as [Hil Hmin]. rewrite length_map in Hil, Hmin.
  destruct (Hmin si ltac:(lia)) as [Hle _].
  rewrite (nth_map_in _ tk i 0%Q) in Hle by exact Hil.
  rewrite (nth_map_in _ tk si 0%Q) in Hle by lia.
  set (c := if Nat.eqb K 4 then 3%Q else 2%Q).
  assert (Hc : (2 <= c)%Q) by (unfold c; destruct (Nat.eqb K 4); discriminate).
  assert (Hform : forall j, j < K ->
            (nth j tk 0 == 1 / (c * Qnat K)
                           + Qnat j * ((1 - 1 / (c * Qnat K) - 1 / (c * Qnat K))
                                       / Qnat (K - 1)))%Q).
  { intros j Hj. rewrite (Forall2_Qeq_nth tk _ j Hcf).
    unfold ticks_closed_form, c.
    destruct (Nat.eqb K 4); rewrite linspace_nth by lia; reflexivity. }
  pose proof (own_tick_is_nearest K i si c HK Hc ltac:(lia) Hsi Hne) as Hstrict.
  cbv zeta in Hstrict. fold t in Hstrict.
  rewrite <- (Hform i) in Hstrict by lia.
  rewrite <- (Hform si) in Hstrict by lia.
  exact (Qlt_not_le _ _ Hstrict Hle).
Qed.
(** The ticks of [K >= 2] units lie strictly inside (0, 1) and increase. *)
Lemma ticks_increasing (K : nat) (tk : list Q) :
  2 <= K -> make_ticks K = Ok tk ->
  length tk = K /\
  (forall j, j < K -> (0 < nth j tk 0 /\ nth j tk 0 < 1)%Q) /\
  (forall i j, i < j -> j < K -> (nth i tk 0 < nth j tk 0)%Q).
Proof.
  intros HK Htk.
  destruct (make_ticks_closed_form K ltac:(lia)) as (tk' & Htk' & Hlen & Hcf).
  rewrite Htk in Htk'. inversion Htk'; subst tk'. clear Htk'.
  set (c := if Nat.eqb K 4 then 3%Q else 2%Q).
  assert (Hc : (2 <= c)%Q) by (unfold c; destruct (Nat.eqb K 4); discriminate).
  set (k := Qnat K).
  assert (Hk : (2 <= k)%Q).
  { unfold k. change 2%Q with (Qnat 2). apply Qnat_le. exact HK. }
  assert (Hck : (4 <= c * k)%Q).
  { assert (H2 : (0 <= (c - 2) * (k - 2))%Q) by (apply Qmult_le_0_compat; lra).
    nra. }
  set (a := (1 / (c * k))%Q).
  assert (Ha : (0 < a /\ a <= 1 # 4)%Q).
  { unfold a. split.
    - apply Qlt_shift_div_l; lra.
    - apply Qle_shift_div_r; lra. }
  set (step := ((1 - a - a) / Qnat (K - 1))%Q).
  assert (Hk1 : (Qnat (K - 1) == k - 1)%Q) by (apply Qnat_pred; lia).
  assert (Hstep : (0 < step)%Q).
  { unfold step. apply Qlt_shift_div_l; rewrite Hk1; lra. }
  assert (Hform : forall j, j < K -> (nth j tk 0 == a + Qnat j * step)%Q).
  { intros j Hj. rewrite (Forall2_Qeq_nth tk _ j Hcf).
    unfold ticks_closed_form, a, step, c, k.
    destruct (Nat.eqb K 4); rewrite linspace_nth by lia; reflexivity. }
  assert (Htop : ((k - 1) * step == 1 - a - a)%Q).
  { unfold step. rewrite Hk1. field. lra. }
  split; [exact Hlen|]. split.
  - intros j Hj. rewrite (Hform j Hj).
    assert (Hj0 : (0 <= Qnat j)%Q) by (change 0%Q with (Qnat 0); apply Qnat_le; lia).
    assert (Hj1 : (Qnat j <= k - 1)%Q).
    { rewrite <- Hk1. apply Qnat_le. lia. }
    assert (H1 : (0 <= Qnat j * step)%Q) by (apply Qmult_le_0_compat; lra).
    assert (H2 : (0 <= (k - 1 - Qnat j) * step)%Q) by (apply Qmult_le_0_compat; lra).
    split; nra.
  - intros i j Hij Hj. rewrite (Hform i ltac:(lia)), (Hform j Hj).
    assert (Hd : (Qnat i + 1 <= Qnat j)%Q).
    { rewrite <- Qnat_S. apply Qnat_le. lia. }
    assert (H1 : (0 <= (Qnat j - Qnat i - 1) * step)%Q)
      by (apply Qmult_le_0_compat; lra).
    nra.
Qed.

(** On increasing ticks the nearest tick moves with the position. *)
Lemma nearest_tick_monotone (tk : list Q) (t1 t2 : Q) (i1 i2 : nat) :
  (forall i j, i < j -> j < length tk -> (nth i tk 0 < nth j tk 0)%Q) ->
  (t1 <= t2)%Q ->
  nearest_tick tk t1 = Ok i1 -> nearest_tick tk t2 = Ok i2 ->
  i1 <= i2.
Proof.
  intros Hinc Ht H1 H2.
  assert (Hne : tk <> []).
  { intros E. subst tk. discriminate H1. }
  destruct (nearest_tick_first_min tk t1 Hne) as (j1 & Hj1 & Hm1).
  destruct (nearest_tick_first_min tk t2 Hne) as (j2 & Hj2 & Hm2).
  rewrite H1 in Hj1. inversion Hj1; subst j1.
  rewrite H2 in Hj2. inversion Hj2; subst j2.
  destruct (Nat.le_gt_cases i1 i2) as [Hle|Hgt]; [exact Hle | exfalso].
  destruct Hm1 as [Hl1 Hm1]. destruct Hm2 as [Hl2 Hm2].
  rewrite length_map in Hl1, Hl2, Hm1, Hm2.
  destruct (Hm1 i2 Hl2) as [_ Hs]. specialize (Hs Hgt).
  destruct (Hm2 i1 Hl1) as [Hw _].
  rewrite !(nth_map_in _ tk _ 0%Q) in Hs by assumption.
  rewrite !(nth_map_in _ tk _ 0%Q) in Hw by assumption.
  pose proof (Hinc i2 i1 Hgt Hl1) as Hxy.
  set (x := nth i2 tk 0%Q) in *. set (y := nth i1 tk 0%Q) in *.
  (* |y - t1| < |x - t1| forces t1 above the midpoint *)
  assert (A1 : (x + y < 2 * t1)%Q).
  { apply Qnot_le_lt. intros Hmid.
    apply (Qlt_not_le _ _ Hs).
    eapply Qle_trans; [|apply (Qle_Qabs (y - t1)%Q)].
    apply Qabs_Qle_condition. split; lra. }
  (* |x - t2| <= |y - t2| forces t2 not above it *)
  assert (A2 : (2 * t2 <= x + y)%Q).
  { apply Qnot_lt_le. intros Hmid.
    apply (Qle_not_lt _ _ Hw).
    rewrite <- (Qabs_opp (x - t2)%Q).
    eapply Qlt_le_trans; [|apply (Qle_Qabs (- (x - t2))%Q)].
    apply Qabs_Qlt_condition. split; lra. }
  lra.
Qed.

(** A position at or below the first tick selects it; one at or above
    the last tick selects that one. *)
Lemma nearest_tick_ends (tk : list Q) (t : Q) :
  tk <> [] ->
  (forall i j, i < j -> j < length tk -> (nth i tk 0 < nth j tk 0)%Q) ->
  ((t <= nth 0 tk 0)%Q -> nearest_tick tk t = Ok 0) /\
  ((nth (length tk - 1) tk 0 <= t)%Q -> nearest_tick tk t = Ok (length tk - 1)).
Proof.
  intros Hne Hinc.
  destruct (nearest_tick_first_min tk t Hne) as (i & Hi & [Hl Hm]).
  rewrite length_map in Hl, Hm. rewrite Hi.
  split; intros Ht; f_equal.
  - destruct (Nat.eq_dec i 0) as [E|E]; [exact E | exfalso].
    destruct (Hm 0 ltac:(lia)) as [_ Hs]. specialize (Hs ltac:(lia)).
    rewrite !(nth_map_in _ tk _ 0%Q) in Hs by lia.
    pose proof (Hinc 0 i ltac:(lia) Hl) as Hxy.
    apply (Qlt_not_le _ _ Hs).
    eapply Qle_trans; [|apply (Qle_Qabs (nth i tk 0 - t)%Q)].
    apply Qabs_Qle_condition. split; lra.
  - destruct (Nat.eq_dec i (length tk - 1)) as [E|E]; [exact E | exfalso].
    destruct (Hm (length tk - 1) ltac:(lia)) as [Hw _].
    rewrite !(nth_map_in _ tk _ 0%Q) in Hw by lia.
    pose proof (Hinc i (length tk - 1) ltac:(lia) ltac:(lia)) as Hxy.
    apply (Qle_not_lt _ _ Hw).
    rewrite <- (Qabs_opp (nth i tk 0 - t)%Q).
    eapply Qlt_le_trans; [|apply (Qle_Qabs (- (nth i tk 0 - t))%Q)].
    apply Qabs_Qlt_condition. split; lra.
Qed.

(* ================================================================= *)
(** ** Utilization percentages and the [ret_usages] flag *)

Section UsagesFlag.
Context {BE : Backend}.

Lemma usage_percent_range (row : list scalar) (margin : Q) :
  row <> [] ->
  exists k : nat,
    k <= length row /\
    (usage_percent row margin == Qnat k / Qnat (length row) * 100)%Q /\
    (0 <= usage_percent row margin)%Q /\ (usage_percent row margin <= 100)%Q.
Proof.
  intros Hne. unfold usage_percent.
  set (k := length (filter (fun x => sleb (lit margin) x) row)).
  assert (Hk : k <= length row) by apply filter_length_le.
  assert (Hpos : (0 < Qnat (length row))%Q).
  { apply Qnat_pos. destruct row; [congruence | simpl; lia]. }
  assert (Hk0 : (0 <= Qnat k)%Q) by (apply (Qnat_le 0 k); lia).
  assert (Hkl : (Qnat k <= Qnat (length row))%Q) by (apply Qnat_le; exact Hk).
  exists k. split; [exact Hk|]. split; [reflexivity|].
  assert (Hq0 : (0 <= Qnat k / Qnat (length row))%Q).
  { apply Qle_shift_div_l; [exact Hpos | lra]. }
  assert (Hq1 : (Qnat k / Qnat (length row) <= 1)%Q).
  { apply Qle_shift_div_r; [exact Hpos | lra]. }
  split; lra.
Qed.

Lemma forward_without_usages (env : DistEnv) (x : tensor) (q q' : VectorQuantizer2)
    (out : tensor) (us : option (list Q)) (loss : pyval) :
  forward env x true q = (Ok (out, us, loss), q') ->
  forward env x false q = (Ok (out, None, loss), q').
Proof.
  unfold forward.
  destruct (shape (if dtype_eqb (dtype_of x) float32 then x else to_float x))
    as [|B [|C [|H [|W [|? ?]]]]]; try (unfold lift; discriminate).
  rewrite !bindM_self. intros E.
  unfold bindM at 1 in E. unfold bindM at 1.
  destruct (forward_loop _ _ _ _ _ _ _ _ _ _ _) as [[st|e] q1]; [|discriminate].
  rewrite bindM_lift in E. rewrite bindM_lift.
  destruct (truediv 1 (Qnat (length (v_patch_nums q)))) as [inv|e]; [|discriminate].
  cbn [bind] in E |- *.
  rewrite bindM_lift in E. rewrite bindM_lift.
  destruct (straight_through _ _ _) as [fh|e]; [|discriminate].
  rewrite bindM_lift in E. rewrite bindM_lift.
  destruct (usage_margin _ _ _) as [m|e]; [|discriminate].
  rewrite bindM_ret.
  unfold bindM at 1 in E. unfold bindM at 1 in E.
  match type of E with
  | context [mapMM ?f ?xs q1] =>
      assert (Hst : snd (mapMM f xs q1) = q1)
        by (apply mapMM_state; intros a; unfold bindM, ema_row, ret;
            destruct (getitem (ema_vocab_hit_SV q1) (fst a)); reflexivity);
      destruct (mapMM f xs q1) as [[l|e] q2]; [|discriminate]
  end.
  cbn [snd] in Hst. subst q2.
  unfold ret in E |- *. inversion E; subst. reflexivity.
Qed.

End UsagesFlag.

(* ================================================================= *)
(** * The claims *)



(** C4 (as amended).  The histogram update follows three regimes driven
    by the single counter [record_hit], which every update of every
    scale increments: starting from a module that has made no update,
    after any sequence [us] of updates the next one is update number
    [n = length us + 1]; it rewrites only its own row, and that row
    becomes the hit counts themselves when [n = 1], [old * 0.9 + new *
    0.1] when [2 <= n <= 100] (so at the 50th update), and [old * 0.99 +
    new * 0.01] when [n >= 101] (so at the 150th update). *)
Theorem C4_ema_three_regimes :
  forall (BE : Backend) (q0 : VectorQuantizer2) (scales codes : nat)
         (us : list (nat * list scalar)) (si : nat) (hit_V : list scalar),
    record_hit q0 = 0 ->
    ema_shape q0 scales codes ->
    Forall (update_fits scales codes) us ->
    si < scales -> length hit_V = codes ->
    let n := S (length us) in
    let q := run_updates us q0 in
    exists (old : list scalar) (q' : VectorQuantizer2),
      record_hit q = length us /\
      nth_error (ema_vocab_hit_SV q) si = Some old /\
      ema_update si hit_V q = (Ok tt, q') /\
      record_hit q' = n /\
      (forall sj, sj <> si ->
         nth_error (ema_vocab_hit_SV q') sj = nth_error (ema_vocab_hit_SV q) sj) /\
      (n = 1 -> nth_error (ema_vocab_hit_SV q') si = Some hit_V) /\
      (2 <= n <= 100 ->
         nth_error (ema_vocab_hit_SV q') si
         = Some (blend old hit_V (9 # 10) (1 # 10))) /\
      (101 <= n ->
         nth_error (ema_vocab_hit_SV q') si
         = Some (blend old hit_V (99 # 100) (1 # 100))).
Proof.
  intros BE q0 scales codes us si hit_V H0 Hs Hus Hsi Hlen n q.
  destruct (run_updates_counter us q0 scales codes Hs Hus) as [Hcnt Hsq].
  fold q in Hcnt, Hsq. rewrite H0 in Hcnt. simpl in Hcnt.
  destruct (ema_shape_row q scales codes si Hsq Hsi) as (old & Hold & Hol).
  assert (Hin : si < length (ema_vocab_hit_SV q)) by (destruct Hsq; lia).
  exists old. eexists.
  split; [exact Hcnt|]. split; [exact Hold|].
  split; [apply (ema_update_run q si hit_V old Hold); congruence|].
  simpl. split; [unfold n; congruence|].
  split; [intros sj Hsj; apply set_nth_other; exact Hsj|].
  rewrite (set_nth_same _ _ _ Hin), Hcnt. unfold n.
  split; [|split]; intros Hn.
  - assert (E : length us = 0) by lia. rewrite E. reflexivity.
  - destruct (Nat.eqb_spec (length us) 0); [lia|].
    destruct (Nat.ltb_spec (length us) 100); [reflexivity|lia].
  - destruct (Nat.eqb_spec (length us) 0); [lia|].
    destruct (Nat.ltb_spec (length us) 100); [lia|reflexivity].
Qed.

(** C4 at the 50th update of a two-scale module. *)
Lemma C4_witness :
  let us := repeat (0, Exact.counts [1; 1]%Q) 49 in
  let q := run_updates us Exact.quantizer in
  exists (old : list scalar) (q' : VectorQuantizer2),
    record_hit q = length us /\
    nth_error (ema_vocab_hit_SV q) 1 = Some old /\
    ema_update 1 (Exact.counts [3; 1]%Q) q = (Ok tt, q') /\
    record_hit q' = 50 /\
    (forall sj, sj <> 1 ->
       nth_error (ema_vocab_hit_SV q') sj = nth_error (ema_vocab_hit_SV q) sj) /\
    (50 = 1 -> nth_error (ema_vocab_hit_SV q') 1 = Some (Exact.counts [3; 1]%Q)) /\
    (2 <= 50 <= 100 ->
       nth_error (ema_vocab_hit_SV q') 1
       = Some (blend old (Exact.counts [3; 1]%Q) (9 # 10) (1 # 10))) /\
    (101 <= 50 ->
       nth_error (ema_vocab_hit_SV q') 1
       = Some (blend old (Exact.counts [3; 1]%Q) (99 # 100) (1 # 100))).
Proof.
  apply (C4_ema_three_regimes Exact.backend Exact.quantizer 2 2
           (repeat (0, Exact.counts [1; 1]%Q) 49) 1 (Exact.counts [3; 1]%Q)).
  - reflexivity.
  - split; [reflexivity | repeat constructor].
  - apply Forall_forall. intros u Hu. apply repeat_spec in Hu. subst u.
    split; simpl; lia.
  - lia.
  - reflexivity.
Defined.

(** C4 as stated fails at the 100th update.  Each call of [forward] on
    the two-scale module makes two updates, so after 49 training calls
    the counter is 98 and the second scale of the 50th call makes the
    100th update, with the counter at 99: still below 100.  Its row
    becomes the 0.9/0.1 blend of the old row with the hit counts (4, 0)
    of that scale, which is not the 0.99/0.01 blend. *)
Lemma C4_counterexample :
  let q := Nat.iter 49 Exact.training_pass Exact.quantizer in
  let out := forward Exact.single_rank Exact.sample false q in
  let hit_V := Exact.counts [4; 0]%Q in
  let old := nth 1 (ema_vocab_hit_SV q) [] in
  let new := nth 1 (ema_vocab_hit_SV (snd out)) [] in
  record_hit q = 98 /\
  is_ok (fst out) = true /\
  record_hit (snd out) = 100 /\
  Exact.fractions new
    = Exact.fractions (blend old hit_V (9 # 10) (1 # 10)) /\
  Exact.fractions new
    <> Exact.fractions (blend old hit_V (99 # 100) (1 # 100)).
Proof.
  cbv zeta.
  do 4 (split; [vm_compute; reflexivity|]).
  vm_compute. discriminate.
Qed.

(** C1 (as amended).  When distributed mode is not initialized, a call
    to [forward] (in training mode or not) skips the histogram update
    together with the cross-process reduction: the module, and so every
    row of the EMA usage histogram and the times-updated counter, is
    what it was before the call, whether the call returns or raises.
    On a valid input to a well-formed module, with the world size query
    answered, the call runs to its end. *)
Theorem C1_no_histogram_update_without_distributed :
  forall (BE : Backend) (env : DistEnv) (q : VectorQuantizer2)
         (f_BChw : tensor) (ret_usages : bool),
    initialized env = false ->
    snd (forward env f_BChw ret_usages q) = q /\
    ema_vocab_hit_SV (snd (forward env f_BChw ret_usages q)) = ema_vocab_hit_SV q /\
    record_hit (snd (forward env f_BChw ret_usages q)) = record_hit q /\
    (forall ws B HW,
        well_formed q -> env_ready env ws -> valid_input q f_BChw B HW ->
        exists out, fst (forward env f_BChw ret_usages q) = Ok out).
Proof.
  intros BE env q x r Hinit.
  pose proof (forward_state env x r q Hinit) as Hst.
  split; [exact Hst|]. rewrite Hst.
  split; [reflexivity|]. split; [reflexivity|].
  intros ws B HW Hwf Henv Hval.
  destruct (forward_ok env ws q x B HW r Hwf Henv Hval)
    as (st & q' & out & loss & _ & Hrun & _).
  rewrite Hrun. eexists. reflexivity.
Qed.

(** C1 on a training-mode module with no process group. *)
Lemma C1_witness :
  snd (forward Exact.not_distributed Exact.sample false Exact.quantizer)
    = Exact.quantizer /\
  exists out,
    fst (forward Exact.not_distributed Exact.sample false Exact.quantizer) = Ok out.
Proof.
  destruct (C1_no_histogram_update_without_distributed
              Exact.backend Exact.not_distributed Exact.quantizer
              Exact.sample false eq_refl) as (Hst & _ & _ & Hrun).
  split; [exact Hst|].
  exact (Hrun 1 1 2 quantizer_well_formed not_distributed_ready sample_valid).
Defined.

(** C1 as stated fails: a training-mode call without a process group
    returns, its first scale counts one hit of code 1, and yet both
    histogram rows stay zero and the counter stays 0; with a process
    group of one rank the same call writes the rows and counts two
    updates. *)
Lemma C1_counterexample :
  let q := Exact.quantizer in
  let out := forward Exact.not_distributed Exact.sample false q in
  let ref := forward Exact.single_rank Exact.sample false q in
  training q = true /\
  initialized Exact.not_distributed = false /\
  is_ok (fst out) = true /\
  match local_hits q (as_float32 Exact.sample) 1 false with
  | Ok hit_V => Exact.fractions hit_V = [0; 1]%Q
  | Raise _ => False
  end /\
  map Exact.fractions (ema_vocab_hit_SV (snd out)) = [[0; 0]; [0; 0]]%Q /\
  record_hit (snd out) = 0 /\
  map Exact.fractions (ema_vocab_hit_SV (snd ref)) = [[0; 1]; [2 # 5; 0]]%Q /\
  record_hit (snd ref) = 2.
Proof.
  repeat split; vm_compute; reflexivity.
Qed.



(** C5 (as amended).  On a valid input, [forward] called with
    [ret_usages=True] returns one utilization per scale: for each row of
    the EMA histogram, as this call leaves it, the fraction of codes
    whose count is at least the margin, times 100.  The margin is
    [world_size * (numel / C) / vocab_size * 0.08], that is world size
    times the tokens of the whole local batch, [B * H * W], over the
    vocabulary size, times 0.08. *)
Theorem C5_usages_against_batch_margin :
  forall (BE : Backend) (env : DistEnv) (ws : nat) (q : VectorQuantizer2)
         (f_BChw : tensor) (B HW : nat),
    well_formed q -> env_ready env ws -> valid_input q f_BChw B HW ->
    exists q' out usages loss margin,
      forward env f_BChw true q = (Ok (out, Some usages, loss), q') /\
      margin = margin_of ws B (Cvae q) HW HW (vocab_size q) /\
      (margin == Qnat ws * Qnat (B * HW * HW) / Qnat (vocab_size q) * (8 # 100))%Q /\
      length usages = length (v_patch_nums q) /\
      usages =
        map (fun row =>
               (Qnat (length (filter (fun c => sleb (lit margin) c) row))
                / Qnat (length row) * 100)%Q)
            (ema_vocab_hit_SV q').
Proof.
  intros BE env ws q x B HW Hwf Henv Hval.
  destruct (forward_ok env ws q x B HW true Hwf Henv Hval)
    as (st & q' & out & loss & _ & Hrun & _ & _ & _ & _ & _ & Hsame & Hwf' & _).
  exists q', out. eexists. exists loss. eexists.
  split; [exact Hrun|]. split; [reflexivity|].
  split; [apply margin_of_closed_form, (wf_channels q Hwf)|].
  split; [|reflexivity].
  rewrite length_map. destruct Hsame as (e & n & ->).
  destruct (wf_ema _ Hwf') as [Hl _]. exact Hl.
Qed.

(** C5 on a batch of two 2x2 maps. *)
Lemma C5_witness :
  exists q' out usages loss,
    forward Exact.single_rank Exact.pair true Exact.plain_quantizer
      = (Ok (out, Some usages, loss), q') /\
    length usages = 2.
Proof.
  destruct (C5_usages_against_batch_margin
              Exact.backend Exact.single_rank 1 Exact.plain_quantizer Exact.pair
              2 2 plain_quantizer_well_formed single_rank_ready pair_valid)
    as (q' & out & us & loss & m & H1 & _ & _ & H2 & _).
  exists q', out, us, loss. split; [exact H1 | exact H2].
Defined.

(** C5 as stated fails on a batch of two samples: after one training
    pass the second histogram row is (3/5, 1/5); the code compares with
    the margin of the batch, 0.32, and reports 50 percent, where the
    margin of one sample, 0.16, would give 100 percent. *)
Lemma C5_counterexample :
  match forward Exact.single_rank Exact.pair true Exact.plain_quantizer with
  | (Ok (_, Some usages, _), q') =>
      map Exact.fractions (ema_vocab_hit_SV q') = [[2; 0]; [3 # 5; 1 # 5]]%Q /\
      Qred (margin_of 1 2 1 2 2 2) = (8 # 25)%Q /\
      Qred (spec_margin 1 2 2 2) = (4 # 25)%Q /\
      map Qred usages = [50; 50]%Q /\
      map (fun row => Qred (spec_usage_percent row (spec_margin 1 2 2 2)))
          (ema_vocab_hit_SV q') = [50; 100]%Q
  | _ => False
  end.
Proof.
  vm_compute. repeat split; reflexivity.
Qed.

(** C10.  [forward] takes an input of any floating dtype and works on
    its float32 cast: the call is the call on the cast input.  On a
    valid input the returned reconstruction and the returned loss are
    float32 tensors, the reconstruction has the shape of the input, and
    its dtype differs from that of the input whenever the input is not
    float32. *)
Theorem C10_forward_returns_float32 :
  forall (BE : Backend) (env : DistEnv) (ws : nat) (q : VectorQuantizer2)
         (f_BChw : tensor) (B HW : nat) (ret_usages : bool),
    well_formed q -> env_ready env ws -> valid_input q f_BChw B HW ->
    dtype_of (as_float32 f_BChw) = float32 /\
    forward env f_BChw ret_usages q = forward env (as_float32 f_BChw) ret_usages q /\
    exists q' out us loss,
      forward env f_BChw ret_usages q = (Ok (out, us, PyTensor loss), q') /\
      dtype_of out = float32 /\
      dtype_of loss = float32 /\
      shape out = shape f_BChw /\
      (dtype_of f_BChw <> float32 -> dtype_of out <> dtype_of f_BChw).
Proof.
  intros BE env ws q x B HW r Hwf Henv Hval.
  split; [apply as_float32_dtype|]. split.
  - unfold forward.
    change (if dtype_eqb (dtype_of x) float32 then x else to_float x)
      with (as_float32 x).
    change (if dtype_eqb (dtype_of (as_float32 x)) float32
            then as_float32 x else to_float (as_float32 x))
      with (as_float32 (as_float32 x)).
    assert (E : as_float32 (as_float32 x) = as_float32 x)
      by (unfold as_float32 at 1; rewrite as_float32_dtype; reflexivity).
    rewrite E. reflexivity.
  - destruct (forward_ok env ws q x B HW r Hwf Henv Hval)
      as (st & q' & out & loss & _ & Hrun & Hs & Hd & _ & _ & Hl & _).
    destruct loss as [c|l]; [contradiction|]. destruct Hl as [_ Hld].
    exists q', out. eexists. exists l.
    split; [exact Hrun|]. split; [exact Hd|]. split; [exact Hld|].
    split; [destruct Hval as (Hxs & _); congruence|].
    intros Hne. congruence.
Qed.

(** C10 on a half-precision input. *)
Lemma C10_witness :
  dtype_of Exact.sample = float16 /\
  exists q' out us loss,
    forward Exact.single_rank Exact.sample false Exact.quantizer
      = (Ok (out, us, PyTensor loss), q') /\
    dtype_of out = float32 /\ dtype_of loss = float32.
Proof.
  split; [reflexivity|].
  destruct (C10_forward_returns_float32
              Exact.backend Exact.single_rank 1 Exact.quantizer Exact.sample
              1 2 false quantizer_well_formed single_rank_ready sample_valid)
    as (_ & _ & q' & out & us & loss & H1 & H2 & H3 & _).
  exists q', out, us, loss. auto.
Defined.




(** C3 (as amended).  [get_next_mask_input] computes the contribution
    of [get_next_autoregressive_input] at a scale that is not the last
    (the predicted map upsampled, bicubic, to full resolution, then
    refined) but does not accumulate it: the running reconstruction
    [f_hat] is left as it was, and the call returns that unchanged
    [f_hat] and the new contribution, each area-downsampled to the
    resolution of the current scale [si].  It returns whenever the
    module is well formed, [si] is a scale of the pyramid and the two
    maps are non-empty four-dimensional tensors of the right channels. *)
Theorem C3_mask_input_does_not_accumulate :
  forall (BE : Backend) (q : VectorQuantizer2) (si SN : nat)
         (f_hat h_BChw : tensor),
    snd (get_next_mask_input q si SN f_hat h_BChw) = f_hat /\
    (forall f_hat_int h_int,
        fst (get_next_mask_input q si SN f_hat h_BChw) = Ok (f_hat_int, h_int) ->
        exists HW pn up h,
          last_item (v_patch_nums q) = Ok HW /\
          getitem (v_patch_nums q) si = Ok pn /\
          interpolate h_BChw HW HW bicubic = Ok up /\
          refine q si SN up = Ok h /\
          interpolate f_hat pn pn area = Ok f_hat_int /\
          interpolate h pn pn area = Ok h_int /\
          (forall outs f_hat',
              not_last si SN = true ->
              get_next_autoregressive_input q si SN f_hat h_BChw = (Ok outs, f_hat') ->
              add_ f_hat h = Ok f_hat' /\ fst outs = f_hat')) /\
    (forall B ph pw B' C' H' W',
        well_formed q -> SN <> 1 -> si < length (v_patch_nums q) ->
        shape h_BChw = [B; Cvae q; ph; pw] -> ph <> 0 -> pw <> 0 ->
        dtype_of h_BChw = float32 ->
        shape f_hat = [B'; C'; H'; W'] -> H' <> 0 -> W' <> 0 ->
        exists f_hat_int h_int,
          fst (get_next_mask_input q si SN f_hat h_BChw) = Ok (f_hat_int, h_int)).
Proof.
  intros BE q si SN f_hat h_BChw.
  split; [reflexivity|]. split.
  - intros a b Hrun.
    destruct (get_next_mask_input_inv q si SN f_hat h_BChw a b Hrun)
      as (HW & pn & up & h & H1 & H2 & H3 & H4 & H5 & H6).
    exists HW, pn, up, h. repeat (split; [assumption|]).
    intros outs f' Hnl Har.
    destruct (get_next_autoregressive_input_inv q si SN f_hat h_BChw f' outs Hnl Har)
      as (HW' & up' & h' & G1 & G2 & G3 & G4 & G5).
    rewrite H1 in G1. inversion G1; subst HW'.
    rewrite H2 in G2. inversion G2; subst up'.
    rewrite H3 in G3. inversion G3; subst h'.
    split; assumption.
  - intros B ph pw B' C' H' W'. apply get_next_mask_input_ok.
Qed.

(** C3 at the first of two scales, in exact arithmetic. *)
Lemma C3_witness :
  exists f_hat_int h_int,
    fst (get_next_mask_input Exact.plain_quantizer 0 2
           Exact.empty_f_hat Exact.predicted) = Ok (f_hat_int, h_int) /\
    interpolate Exact.empty_f_hat 1 1 area = Ok f_hat_int.
Proof.
  destruct (C3_mask_input_does_not_accumulate Exact.backend
              Exact.plain_quantizer 0 2 Exact.empty_f_hat Exact.predicted)
    as (_ & Hinv & Hok).
  destruct (Hok 1 1 1 1 1 2 2 plain_quantizer_well_formed)
    as (a & b & Hrun); try reflexivity; try discriminate; [simpl; lia|].
  exists a, b. split; [exact Hrun|].
  destruct (Hinv a b Hrun) as (HW & pn & up & h & _ & Hpn & _ & _ & Ha & _).
  inversion Hpn; subst pn. exact Ha.
Defined.

(** C3 as stated fails: from an empty running reconstruction and a
    predicted map of value 1, the autoregressive step leaves [f_hat]
    equal to 1 everywhere, while the mask step leaves it empty and
    returns the downsampled empty [f_hat], 0, beside the downsampled
    contribution, 1. *)
Lemma C3_counterexample :
  let q := Exact.plain_quantizer in
  let ar := get_next_autoregressive_input q 0 2 Exact.empty_f_hat Exact.predicted in
  let mk := get_next_mask_input q 0 2 Exact.empty_f_hat Exact.predicted in
  Exact.values (snd ar) = [1; 1; 1; 1]%Q /\
  Exact.values (snd mk) = [0; 0; 0; 0]%Q /\
  match fst mk with
  | Ok (f_hat_int, h_int) =>
      Exact.values f_hat_int = [0]%Q /\ Exact.values h_int = [1]%Q
  | Raise _ => False
  end.
Proof.
  vm_compute. repeat split; reflexivity.
Qed.

(** C7.  The segment of the output of [idxBl_to_ns_input] that is the
    query for scale [i] is the same for any two lists of ground-truth
    indices that agree on the scales before [i], whatever they hold at
    scale [i] and at the later scales: in particular it is unchanged
    under any modification of the ground truth of the scales [i+1] and
    later. *)
Theorem C7_teacher_forcing_causality :
  forall (BE : Backend) (q : VectorQuantizer2) (gt1 gt2 : list itensor)
         (out1 out2 : tensor) (i : nat),
    1 <= i <= length (v_patch_nums q) - 1 ->
    firstn i gt1 = firstn i gt2 ->
    idxBl_to_ns_input q gt1 = Ok (Some out1) ->
    idxBl_to_ns_input q gt2 = Ok (Some out2) ->
    query_segment q out1 i = query_segment q out2 i.
Proof.
  intros BE q gt1 gt2 out1 out2 i Hi Hgt E1 E2.
  destruct (ns_input_inv q gt1 out1 E1) as (segs1 & S1 & C1).
  destruct (ns_input_inv q gt2 out2 E2) as (segs2 & S2 & C2).
  destruct (ns_segments_prefix q gt1 gt2 segs1 segs2 i Hi Hgt S1 S2)
    as (Hsame & B & HF1 & HF2).
  destruct (narrow_cat_query q B (Cvae q) _ segs1 out1 i HF1 C1 Hi)
    as (t1 & Ht1 & Q1).
  destruct (narrow_cat_query q B (Cvae q) _ segs2 out2 i HF2 C2 Hi)
    as (t2 & Ht2 & Q2).
  rewrite Q1, Q2. congruence.
Qed.

(** C7 on three scales: the ground truth of the scales 1 and 2 is
    replaced, the query for scale 1 stays. *)
Lemma C7_witness :
  exists out1 out2,
    idxBl_to_ns_input Exact.quantizer3 Exact.gt_a = Ok (Some out1) /\
    idxBl_to_ns_input Exact.quantizer3 Exact.gt_c = Ok (Some out2) /\
    query_segment Exact.quantizer3 out1 1 = query_segment Exact.quantizer3 out2 1.
Proof.
  pose (returned := fun r : result (option tensor) =>
                      match r with Ok (Some _) => true | _ => false end).
  assert (R1 : returned (idxBl_to_ns_input Exact.quantizer3 Exact.gt_a) = true)
    by (vm_compute; reflexivity).
  assert (R2 : returned (idxBl_to_ns_input Exact.quantizer3 Exact.gt_c) = true)
    by (vm_compute; reflexivity).
  destruct (idxBl_to_ns_input Exact.quantizer3 Exact.gt_a) as [[o1|]|e1] eqn:E1;
    try discriminate R1.
  destruct (idxBl_to_ns_input Exact.quantizer3 Exact.gt_c) as [[o2|]|e2] eqn:E2;
    try discriminate R2.
  exists o1, o2. split; [reflexivity|]. split; [reflexivity|].
  apply (C7_teacher_forcing_causality Exact.backend Exact.quantizer3
           Exact.gt_a Exact.gt_c o1 o2 1);
    [simpl; lia | reflexivity | exact E1 | exact E2].
Defined.



(* ================================================================= *)
(** * Further properties of the quantizer *)

(** X1.  In evaluation mode ([training] off) a call to [forward] leaves
    the module exactly as it was, histogram and counter included,
    whatever the input and the process group, and whether the call
    returns or raises. *)
Theorem forward_eval_mode_keeps_module :
  forall (BE : Backend) (env : DistEnv) (q : VectorQuantizer2)
         (f_BChw : tensor) (ret_usages : bool),
    training q = false ->
    snd (forward env f_BChw ret_usages q) = q.
Proof.
  intros BE env q x r Htr. apply forward_frozen. rewrite Htr. reflexivity.
Qed.

(** X1 on the small quantizer switched to evaluation mode, with an
    initialized process group. *)
Lemma forward_eval_mode_keeps_module_witness :
  snd (forward Exact.single_rank Exact.sample true (eval_mode Exact.quantizer))
  = eval_mode Exact.quantizer.
Proof.
  apply (forward_eval_mode_keeps_module Exact.backend Exact.single_rank
           (eval_mode Exact.quantizer) Exact.sample true).
  reflexivity.
Defined.

(** X2.  Whatever the mode, the input and the outcome, [forward] changes
    nothing in the module but the usage statistics: codebook, pyramid,
    refinement units and flags are untouched, the histogram keeps its
    number of rows and the counter never decreases. *)
Theorem forward_touches_only_usage_statistics :
  forall (BE : Backend) (env : DistEnv) (q : VectorQuantizer2)
         (f_BChw : tensor) (ret_usages : bool),
    stats_only q (snd (forward env f_BChw ret_usages q)).
Proof.
  intros BE env q x r. apply keeps_forward.
Qed.

(** X3.  On a float32 feature map of the module's resolution
    [f_to_idxBl_or_fhat] returns one entry per scale of the pyramid: with
    [to_fhat] off, a [B x pn^2] index tensor whose entries are valid
    codes; with [to_fhat] on, a float32 reconstruction of the shape of
    the input. *)
Theorem encoder_one_entry_per_scale :
  forall (BE : Backend) (q : VectorQuantizer2) (f_BChw : tensor) (B HW : nat),
    well_formed q -> valid_input q f_BChw B HW -> dtype_of f_BChw = float32 ->
    exists (idxs : list (list nat)) (fhats : list tensor),
      Forall2 (codes_of_scale q B) (v_patch_nums q) idxs /\
      f_to_idxBl_or_fhat q f_BChw false None
      = Ok (map IdxBl (map2 (idx_Bl_of B) (v_patch_nums q) idxs)) /\
      length fhats = length (v_patch_nums q) /\
      Forall (sized4 B (Cvae q) HW HW) fhats /\
      f_to_idxBl_or_fhat q f_BChw true None = Ok (map Fhat fhats).
Proof.
  intros BE q x B HW Hwf Hvalid Hd.
  pose (env := {| initialized := false; get_world_size := Ok 1;
                  all_reduce := fun v : list scalar => v |}).
  assert (Henv : env_ready env 1) by (split; reflexivity).
  destruct (forward_run env 1 q x B HW false Hwf Henv Hvalid)
    as (idxs & fhats & _ & _ & Hcodes & Hlen & Hsz & Hft & Hfi & _).
  assert (E : as_float32 x = x) by (unfold as_float32; rewrite Hd; reflexivity).
  rewrite E in Hft, Hfi.
  exists idxs, fhats. auto.
Qed.

Lemma encoder_one_entry_per_scale_witness :
  exists (idxs : list (list nat)) (fhats : list tensor),
    Forall2 (codes_of_scale Exact.plain_quantizer 2)
      (v_patch_nums Exact.plain_quantizer) idxs /\
    f_to_idxBl_or_fhat Exact.plain_quantizer Exact.pair false None
    = Ok (map IdxBl (map2 (idx_Bl_of 2) (v_patch_nums Exact.plain_quantizer) idxs)) /\
    length fhats = length (v_patch_nums Exact.plain_quantizer) /\
    Forall (sized4 2 (Cvae Exact.plain_quantizer) 2 2) fhats /\
    f_to_idxBl_or_fhat Exact.plain_quantizer Exact.pair true None
    = Ok (map Fhat fhats).
Proof.
  apply (encoder_one_entry_per_scale Exact.backend Exact.plain_quantizer
           Exact.pair 2 2 plain_quantizer_well_formed pair_valid eq_refl).
Defined.

(** X4.  The reconstruction [forward] returns is the one the encoder
    computes: on a valid input, [f_to_idxBl_or_fhat] with [to_fhat] on,
    applied to the float32 cast of the input, ends its list with a map
    [F], and the first output of [forward] is the straight-through
    combination [(F - input) + input] of that same [F]. *)
Theorem forward_reconstruction_is_encoder_fhat :
  forall (BE : Backend) (env : DistEnv) (ws : nat) (q : VectorQuantizer2)
         (f_BChw : tensor) (B HW : nat) (ret_usages : bool),
    well_formed q -> env_ready env ws -> valid_input q f_BChw B HW ->
    exists (fhats : list tensor) (F out : tensor) (usages : option (list Q))
           (loss : pyval) (q' : VectorQuantizer2),
      f_to_idxBl_or_fhat q (as_float32 f_BChw) true None = Ok (map Fhat fhats) /\
      last_item fhats = Ok F /\
      forward env f_BChw ret_usages q = (Ok (out, usages, loss), q') /\
      straight_through F (detach (as_float32 f_BChw)) (as_float32 f_BChw) = Ok out.
Proof.
  intros BE env ws q x B HW r Hwf Henv Hvalid.
  destruct (forward_run env ws q x B HW r Hwf Henv Hvalid)
    as (idxs & fhats & out & loss & _ & Hlen & Hsz & Hft & _ & (Hfw & _) & Hout
        & Hdata & _ & _).
  pose proof (wf_scales q Hwf) as Hsc.
  destruct fhats as [|t fhats]; [simpl in Hlen; lia|].
  exists (t :: fhats), (last fhats t), out. do 3 eexists.
  split; [exact Hft|]. split; [reflexivity|]. split; [exact Hfw|].
  rewrite last_cons_default in Hdata.
  assert (HF : sized4 B (Cvae q) HW HW (last fhats t)).
  { rewrite Forall_forall in Hsz. apply Hsz.
    rewrite <- (last_cons_default fhats t t). apply last_In. discriminate. }
  destruct HF as [HFs HFd]. destruct Hvalid as (Hxs & _ & _).
  pose proof (as_float32_shape x) as Hs32. rewrite Hxs in Hs32.
  unfold straight_through, sub, add_, detach.
  rewrite binop_same_shape by congruence. cbn [bind].
  rewrite binop__same_shape by (cbn [shape]; congruence).
  cbn [dtype_of shape data].
  destruct Hout as [Hos Hod]. destruct out as [od os odata].
  cbn [shape dtype_of data] in Hos, Hod, Hdata. subst.
  rewrite HFd, as_float32_dtype, HFs. reflexivity.
Qed.

Lemma forward_reconstruction_is_encoder_fhat_witness :
  exists (fhats : list tensor) (F out : tensor) (usages : option (list Q))
         (loss : pyval) (q' : VectorQuantizer2),
    f_to_idxBl_or_fhat Exact.quantizer (as_float32 Exact.sample) true None
    = Ok (map Fhat fhats) /\
    last_item fhats = Ok F /\
    forward Exact.single_rank Exact.sample true Exact.quantizer
    = (Ok (out, usages, loss), q') /\
    straight_through F (detach (as_float32 Exact.sample)) (as_float32 Exact.sample)
    = Ok out.
Proof.
  apply (forward_reconstruction_is_encoder_fhat Exact.backend Exact.single_rank 1
           Exact.quantizer Exact.sample 1 2 true
           quantizer_well_formed single_rank_ready sample_valid).
Defined.

(** X5.  A training call with an initialized process group makes one
    histogram update per scale, in the order of the scales, each with
    the reduced histogram of the codes the encoder assigns at that
    scale: the module it leaves is the one these updates produce, its
    counter is up by the number of scales, and it is again well formed. *)
Theorem forward_updates_histogram_once_per_scale :
  forall (BE : Backend) (env : DistEnv) (ws : nat) (q : VectorQuantizer2)
         (f_BChw : tensor) (B HW : nat) (ret_usages : bool),
    well_formed q -> env_ready env ws -> valid_input q f_BChw B HW ->
    training q = true -> initialized env = true ->
    exists idxs : list (list nat),
      Forall2 (codes_of_scale q B) (v_patch_nums q) idxs /\
      f_to_idxBl_or_fhat q (as_float32 f_BChw) false None
      = Ok (map IdxBl (map2 (idx_Bl_of B) (v_patch_nums q) idxs)) /\
      snd (forward env f_BChw ret_usages q)
      = run_updates (combine (seq 0 (length (v_patch_nums q)))
                       (map (reduced_hits env q) idxs)) q /\
      record_hit (snd (forward env f_BChw ret_usages q))
      = record_hit q + length (v_patch_nums q) /\
      well_formed (snd (forward env f_BChw ret_usages q)).
Proof.
  intros BE env ws q x B HW r Hwf Henv Hvalid Htr Hinit.
  destruct (forward_run env ws q x B HW r Hwf Henv Hvalid)
    as (idxs & fhats & out & loss & Hcodes & _ & _ & _ & Hfi & (Hfw & Hwf' & _) & _).
  destruct (forward_ok env ws q x B HW r Hwf Henv Hvalid)
    as (st & q' & out' & loss' & _ & Hfw' & _ & _ & _ & _ & _ & _ & _ & _ & Hcnt).
  rewrite Htr, Hinit in Hfw, Hwf', Hcnt. cbn [andb] in Hfw, Hwf', Hcnt.
  exists idxs. split; [exact Hcodes|]. split; [exact Hfi|].
  rewrite Hfw' in Hfw. inversion Hfw as [[E1 E2 E3 E4]].
  rewrite Hfw'. cbn [snd]. rewrite E4.
  split; [reflexivity|]. split; [|exact Hwf'].
  rewrite <- E4. apply Hcnt. reflexivity.
Qed.

Lemma forward_updates_histogram_once_per_scale_witness :
  exists idxs : list (list nat),
    Forall2 (codes_of_scale Exact.quantizer 1) (v_patch_nums Exact.quantizer) idxs /\
    f_to_idxBl_or_fhat Exact.quantizer (as_float32 Exact.sample) false None
    = Ok (map IdxBl (map2 (idx_Bl_of 1) (v_patch_nums Exact.quantizer) idxs)) /\
    snd (forward Exact.single_rank Exact.sample false Exact.quantizer)
    = run_updates (combine (seq 0 (length (v_patch_nums Exact.quantizer)))
                     (map (reduced_hits Exact.single_rank Exact.quantizer) idxs))
        Exact.quantizer /\
    record_hit (snd (forward Exact.single_rank Exact.sample false Exact.quantizer))
    = record_hit Exact.quantizer + length (v_patch_nums Exact.quantizer) /\
    well_formed (snd (forward Exact.single_rank Exact.sample false Exact.quantizer)).
Proof.
  apply (forward_updates_histogram_once_per_scale Exact.backend Exact.single_rank 1
           Exact.quantizer Exact.sample 1 2 false
           quantizer_well_formed single_rank_ready sample_valid eq_refl eq_refl).
Defined.

(** X6.  Decoding inverts encoding.  From the indices the encoder
    returns for a valid float32 input, the code maps of the scales can
    be built, and [embed_to_fhat] on them (every map brought to the
    largest scale) returns exactly the reconstructions the encoder
    returns with [to_fhat] on; with [last_one] set it returns the last
    of them alone. *)
Theorem decoder_inverts_encoder :
  forall (BE : Backend) (q : VectorQuantizer2) (f_BChw : tensor) (B HW : nat),
    well_formed q -> valid_input q f_BChw B HW -> dtype_of f_BChw = float32 ->
    exists (idxs : list (list nat)) (fhats ms_h : list tensor) (F : tensor),
      f_to_idxBl_or_fhat q f_BChw false None
      = Ok (map IdxBl (map2 (idx_Bl_of B) (v_patch_nums q) idxs)) /\
      f_to_idxBl_or_fhat q f_BChw true None = Ok (map Fhat fhats) /\
      token_maps q B idxs = Ok ms_h /\
      embed_to_fhat q ms_h true false = Ok (FhatList fhats) /\
      last_item fhats = Ok F /\
      embed_to_fhat q ms_h true true = Ok (FhatLast F).
Proof.
  intros BE q x B HW Hwf Hvalid Hd.
  destruct (decoder_run q x B HW Hwf Hvalid Hd)
    as (idxs & fhats & ms_h & _ & Hlen & Hfi & Hft & Hms & _ & Hdec).
  pose proof (wf_scales q Hwf) as Hsc.
  destruct fhats as [|t ts]; [simpl in Hlen; lia|].
  exists idxs, (t :: ts), ms_h, (last ts t).
  split; [exact Hfi|]. split; [exact Hft|]. split; [exact Hms|].
  split; [exact (Hdec false)|]. split; [reflexivity | exact (Hdec true)].
Qed.

Lemma decoder_inverts_encoder_witness :
  exists (idxs : list (list nat)) (fhats ms_h : list tensor) (F : tensor),
    f_to_idxBl_or_fhat Exact.plain_quantizer Exact.pair false None
    = Ok (map IdxBl (map2 (idx_Bl_of 2) (v_patch_nums Exact.plain_quantizer) idxs)) /\
    f_to_idxBl_or_fhat Exact.plain_quantizer Exact.pair true None
    = Ok (map Fhat fhats) /\
    token_maps Exact.plain_quantizer 2 idxs = Ok ms_h /\
    embed_to_fhat Exact.plain_quantizer ms_h true false = Ok (FhatList fhats) /\
    last_item fhats = Ok F /\
    embed_to_fhat Exact.plain_quantizer ms_h true true = Ok (FhatLast F).
Proof.
  apply (decoder_inverts_encoder Exact.backend Exact.plain_quantizer
           Exact.pair 2 2 plain_quantizer_well_formed pair_valid eq_refl).
Defined.

(** X7.  Teacher forcing is what inference computes.  For valid
    ground-truth indices of a non-empty batch, [idxBl_to_ns_input]
    returns a float32 [B x L x C] sequence, [L] the number of tokens of
    the scales after the first; and a decoding run that feeds
    [get_next_autoregressive_input] the code map of the ground truth at
    every scale but the last returns, as its next inputs, maps whose
    tokens are the segments of that sequence, scale by scale. *)
Theorem teacher_forcing_matches_decoding :
  forall (BE : Backend) (q : VectorQuantizer2) (gt_ms_idx_Bl : list itensor)
         (B HW : nat),
    well_formed q -> valid_gt q gt_ms_idx_Bl B -> B <> 0 ->
    last_item (v_patch_nums q) = Ok HW ->
    let SN := length (v_patch_nums q) in
    exists (out : tensor) (outs : list (tensor * tensor)),
      idxBl_to_ns_input q gt_ms_idx_Bl = Ok (Some out) /\
      shape out
      = [B; fold_right Nat.add 0 (map (query_length q) (seq 1 (SN - 1))); Cvae q] /\
      dtype_of out = float32 /\
      decode_run q SN (gt_map q gt_ms_idx_Bl B) (seq 0 (SN - 1))
        (zeros float32 [B; Cvae q; HW; HW]) = Ok outs /\
      length outs = SN - 1 /\
      forall si nxt, nth_error outs si = Some nxt ->
        as_tokens (snd nxt) B (Cvae q) = Ok (query_segment q out (S si)).
Proof.
  intros BE q gt B HW Hwf Hgt HB Hlast SN. subst SN.
  pose proof (wf_scales q Hwf) as Hsc.
  set (SN := length (v_patch_nums q)) in *.
  set (init := {| ns_f_hat := zeros float32 [B; Cvae q; HW; HW];
                  pn_next := nth 0 (v_patch_nums q) 0; next_scales := [] |}).
  destruct (ns_loop_run q gt B HW Hwf Hgt HB Hlast (SN - 1) 0 init
              ltac:(fold SN; lia) ltac:(split; reflexivity) eq_refl)
    as (outs & toks & st' & Hloop & Hnext & Hdec & Hout & Hsized).
  fold SN in Hloop, Hdec.
  cbn [init ns_f_hat next_scales app] in Hnext, Hdec.
  assert (Hne : toks <> []).
  { apply Forall2_length in Hsized. rewrite length_seq in Hsized.
    destruct toks; [simpl in Hsized; lia | discriminate]. }
  destruct (cat_dim1_sized toks B (Cvae q) (map (query_length q) (seq 1 (SN - 1)))
              Hne (Forall2_sized_map q B (Cvae q) 1 (SN - 1) toks Hsized))
    as (out & Hcat & Hos & Hod & Hodata).
  exists out, outs.
  assert (Hrun : ns_segments q gt = Ok toks).
  { destruct Hgt as [Hglen Hgt].
    destruct (getitem_lt gt 0 ltac:(fold SN in Hglen; lia)) as (gt0 & Hg0).
    pose proof Hg0 as Hg0'. apply getitem_Ok in Hg0'.
    destruct (Hgt 0 gt0 Hg0') as [Hs0 _].
    unfold ns_segments. rewrite Hg0. cbn [bind]. rewrite Hs0.
    cbn [getitem nth_error bind]. rewrite Hlast. cbn [bind].
    assert (Hp0 : getitem (v_patch_nums q) 0 = Ok (nth 0 (v_patch_nums q) 0))
      by (apply getitem_Ok, nth_error_nth'; fold SN; lia).
    cbv zeta. rewrite Hp0. cbn [bind]. fold SN. fold init. rewrite Hloop. cbn [bind].
    rewrite Hnext. reflexivity. }
  split.
  { unfold idxBl_to_ns_input. rewrite Hrun. cbn [bind].
    destruct toks; [congruence|]. rewrite Hcat. reflexivity. }
  split; [exact Hos|]. split; [exact Hod|].
  split; [exact Hdec|].
  split.
  { apply Forall2_length in Hout. apply Forall2_length in Hsized.
    rewrite length_seq in Hsized. lia. }
  intros si nxt Hn.
  assert (Hsi : si < SN - 1).
  { apply Forall2_length in Hout. apply Forall2_length in Hsized.
    rewrite length_seq in Hsized.
    assert (si < length outs) by (apply nth_error_Some; congruence). lia. }
  destruct (narrow_cat_query q B (Cvae q) (SN - 1) toks out (S si) Hsized Hcat
              ltac:(lia)) as (tok & Htok & Hseg).
  replace (S si - 1) with si in Htok by lia.
  rewrite Hseg.
  clear -Hout Hn Htok. revert si Hn Htok.
  induction Hout as [|o t os ts Hot HF IH]; intros [|si] Hn Htok; simpl in *;
    try discriminate.
  - inversion Hn; inversion Htok; subst. exact Hot.
  - eapply IH; eauto.
Qed.

Lemma teacher_forcing_matches_decoding_witness :
  let SN := length (v_patch_nums Exact.quantizer3) in
  exists (out : tensor) (outs : list (tensor * tensor)),
    idxBl_to_ns_input Exact.quantizer3 Exact.gt_a = Ok (Some out) /\
    shape out
    = [1; fold_right Nat.add 0
            (map (query_length Exact.quantizer3) (seq 1 (SN - 1)));
       Cvae Exact.quantizer3] /\
    dtype_of out = float32 /\
    decode_run Exact.quantizer3 SN (gt_map Exact.quantizer3 Exact.gt_a 1)
      (seq 0 (SN - 1)) (zeros float32 [1; Cvae Exact.quantizer3; 3; 3]) = Ok outs /\
    length outs = SN - 1 /\
    forall si nxt, nth_error outs si = Some nxt ->
      as_tokens (snd nxt) 1 (Cvae Exact.quantizer3)
      = Ok (query_segment Exact.quantizer3 out (S si)).
Proof.
  apply (teacher_forcing_matches_decoding Exact.backend Exact.quantizer3 Exact.gt_a
           1 3 quantizer3_well_formed gt_a_valid ltac:(discriminate) eq_refl).
Defined.

(** X8.  Masking only chooses positions.  The sequence
    [idxBl_to_mask_input] returns is the same whatever the sampler, its
    state and the mask fraction (in the range (0, 1]): its tokens are not
    altered at the recorded positions, and only the list of positions
    differs from one call to the next. *)
Theorem masked_sequence_ignores_the_draw :
  forall (BE : Backend) (G1 G2 : Generator) (g1 : gen_state G1) (g2 : gen_state G2)
         (q : VectorQuantizer2) (gt_ms_idx_Bl : list itensor) (p1 p2 : Q)
         (B HW : nat),
    samples_without_replacement G1 -> samples_without_replacement G2 ->
    well_formed q ->
    (0 < p1)%Q -> (p1 <= 1)%Q -> (0 < p2)%Q -> (p2 <= 1)%Q ->
    valid_gt q gt_ms_idx_Bl B -> B <> 0 ->
    last_item (v_patch_nums q) = Ok HW ->
    exists out sel1 sel2 g1' g2',
      idxBl_to_mask_input G1 g1 q gt_ms_idx_Bl p1 = Ok (out, sel1, g1') /\
      idxBl_to_mask_input G2 g2 q gt_ms_idx_Bl p2 = Ok (out, sel2, g2') /\
      shape out
      = [B; fold_right Nat.add 0
              (map (query_length q) (seq 1 (length (v_patch_nums q) - 1)));
         Cvae q] /\
      dtype_of out = float32.
Proof.
  intros BE G1 G2 g1 g2 q gt p1 p2 B HW HG1 HG2 Hwf Ha1 Hb1 Ha2 Hb2 Hgt HB Hlast.
  destruct (mask_input_run G1 g1 q gt p1 B HW HG1 Hwf Ha1 Hb1 Hgt HB Hlast)
    as (out1 & sel1 & g1' & toks1 & Hrun1 & Hown1 & _ & Hcat1 & Hs1 & Hd1).
  destruct (mask_input_run G2 g2 q gt p2 B HW HG2 Hwf Ha2 Hb2 Hgt HB Hlast)
    as (out2 & sel2 & g2' & toks2 & Hrun2 & Hown2 & _ & Hcat2 & _ & _).
  assert (E : toks1 = toks2).
  { eapply Forall2_functional; [|exact Hown1 | exact Hown2].
    intros si t1 t2. apply own_contribution_functional. }
  subst toks2. rewrite Hcat1 in Hcat2. inversion Hcat2; subst out2.
  exists out1, sel1, sel2, g1', g2'. auto.
Qed.

Lemma masked_sequence_ignores_the_draw_witness :
  exists out sel1 sel2 g1' g2',
    idxBl_to_mask_input Exact.first_k tt Exact.quantizer3 Exact.gt_a (1 # 2)
    = Ok (out, sel1, g1') /\
    idxBl_to_mask_input Exact.last_k tt Exact.quantizer3 Exact.gt_a 1
    = Ok (out, sel2, g2') /\
    shape out
    = [1; fold_right Nat.add 0
            (map (query_length Exact.quantizer3)
               (seq 1 (length (v_patch_nums Exact.quantizer3) - 1)));
       Cvae Exact.quantizer3] /\
    dtype_of out = float32.
Proof.
  apply (masked_sequence_ignores_the_draw Exact.backend Exact.first_k Exact.last_k
           tt tt Exact.quantizer3 Exact.gt_a (1 # 2) 1 1 3
           first_k_samples last_k_samples quantizer3_well_formed
           ltac:(reflexivity) ltac:(discriminate)
           ltac:(reflexivity) ltac:(discriminate)
           gt_a_valid ltac:(discriminate) eq_refl).
Defined.

(** X9.  A mask fraction outside (0, 1] is rejected.  With a pyramid of
    at least two scales (the second one not empty) and a ground-truth
    list whose first entry has a batch axis, [idxBl_to_mask_input]
    raises [RuntimeError] when [p_mask <= 0] (no sample can be drawn)
    and when [p_mask > 1] (more samples than tokens); it does so at the
    first draw, whatever the sampler and the rest of the ground truth,
    and never returns an unmasked sequence. *)
Theorem mask_fraction_out_of_range_raises :
  forall (BE : Backend) (G : Generator) (g : gen_state G)
         (q : VectorQuantizer2) (gt_ms_idx_Bl : list itensor) (p_mask : Q)
         (gt0 : itensor) (B pn1 : nat),
    nth_error gt_ms_idx_Bl 0 = Some gt0 ->
    nth_error (ishape gt0) 0 = Some B ->
    nth_error (v_patch_nums q) 1 = Some pn1 -> pn1 <> 0 ->
    (p_mask <= 0 \/ 1 < p_mask)%Q ->
    idxBl_to_mask_input G g q gt_ms_idx_Bl p_mask = Raise RuntimeError.
Proof.
  intros BE G g q gt p gt0 B pn1 Hg0 HB Hp1 Hpn Hp.
  assert (Hlen : 2 <= length (v_patch_nums q)).
  { assert (1 < length (v_patch_nums q)) by (apply nth_error_Some; congruence). lia. }
  assert (Hlast : exists HW, last_item (v_patch_nums q) = Ok HW).
  { destruct (v_patch_nums q); [simpl in Hlen; lia | eexists; reflexivity]. }
  destruct Hlast as (HW & Hlast).
  assert (Hn : (0 < Qnat (pn1 * pn1))%Q).
  { unfold Qnat. replace 0%Q with (inject_Z 0) by reflexivity.
    rewrite <- Zlt_Qlt. nia. }
  assert (Hdraw : forall st : gen_state G,
            multinomial G st (repeat 1%Q (pn1 * pn1))
              (Qceiling (Qnat (pn1 * pn1) * p)) = Raise RuntimeError).
  { intros st. unfold multinomial. rewrite repeat_length.
    destruct Hp as [Hle|Hgt].
    - assert (Hc : (Qceiling (Qnat (pn1 * pn1) * p) <= 0)%Z).
      { change 0%Z with (Qceiling 0). apply Qceiling_resp_le.
        rewrite <- (Qmult_0_r (Qnat (pn1 * pn1))).
        apply Qmult_le_l; assumption. }
      apply Z.leb_le in Hc. rewrite Hc. reflexivity.
    - assert (Hc : (Z.of_nat (pn1 * pn1) < Qceiling (Qnat (pn1 * pn1) * p))%Z).
      { rewrite Zlt_Qlt. eapply Qlt_le_trans; [|apply Qle_ceiling].
        fold (Qnat (pn1 * pn1)).
        rewrite <- (Qmult_1_r (Qnat (pn1 * pn1))) at 1.
        apply Qmult_lt_l; assumption. }
      destruct (Z.leb_spec (Qceiling (Qnat (pn1 * pn1) * p)) 0); [reflexivity|].
      apply Z.ltb_lt in Hc. rewrite Hc. reflexivity. }
  unfold idxBl_to_mask_input, mask_run, getitem.
  rewrite Hg0. cbn [bind]. rewrite HB. cbn [bind]. rewrite Hlast. cbn [bind].
  destruct (length (v_patch_nums q)) as [|[|n]] eqn:El; try lia.
  cbn [Nat.sub seq mask_loop]. unfold mask_scale, getitem.
  rewrite Hp1. cbn [bind]. cbv zeta. cbn [mk_gen].
  rewrite Hdraw. reflexivity.
Qed.

(** X9 on three scales with nothing to mask. *)
Lemma mask_fraction_out_of_range_raises_witness :
  idxBl_to_mask_input Exact.first_k tt Exact.quantizer3 Exact.gt_a 0
  = Raise RuntimeError.
Proof.
  apply (mask_fraction_out_of_range_raises Exact.backend Exact.first_k tt
           Exact.quantizer3 Exact.gt_a 0 (Exact.idx 1 [1]) 1 2
           eq_refl eq_refl eq_refl ltac:(discriminate)).
  left. discriminate.
Defined.

(** X10.  The masked training input is what the masked decode step
    computes.  For every scale [si] after the first, the segment of
    scale [si] in the sequence [idxBl_to_mask_input] returns is the
    token form of the second output of [get_next_mask_input], called at
    that scale on the code map of the ground truth of the scale, for
    any running reconstruction of the full resolution. *)
Theorem masked_segment_is_mask_step_contribution :
  forall (BE : Backend) (G : Generator) (g : gen_state G)
         (q : VectorQuantizer2) (gt_ms_idx_Bl : list itensor) (p_mask : Q)
         (B HW : nat) (f_hat : tensor) (si : nat),
    samples_without_replacement G -> well_formed q ->
    (0 < p_mask)%Q -> (p_mask <= 1)%Q ->
    valid_gt q gt_ms_idx_Bl B -> B <> 0 ->
    last_item (v_patch_nums q) = Ok HW ->
    sized4 B (Cvae q) HW HW f_hat ->
    1 <= si < length (v_patch_nums q) ->
    exists out sel g' h f_hat_int h_int,
      idxBl_to_mask_input G g q gt_ms_idx_Bl p_mask = Ok (out, sel, g') /\
      gt_map q gt_ms_idx_Bl B si = Ok h /\
      fst (get_next_mask_input q si (length (v_patch_nums q)) f_hat h)
      = Ok (f_hat_int, h_int) /\
      as_tokens h_int B (Cvae q) = Ok (query_segment q out si).
Proof.
  intros BE G g q gt p B HW f_hat si HG Hwf Hp0 Hp1 Hgt HB Hlast [Hfs Hfd] Hsi.
  destruct (mask_input_run G g q gt p B HW HG Hwf Hp0 Hp1 Hgt HB Hlast)
    as (out & sel & g' & toks & Hrun & Hown & Hsz & Hcat & _ & _).
  destruct (Forall2_nth_seq _ 1 (length (v_patch_nums q) - 1) toks (si - 1) Hown
              ltac:(lia)) as (tok & Htok & Hc).
  replace (1 + (si - 1)) with si in Hc by lia.
  destruct (narrow_cat_query q B (Cvae q) (length (v_patch_nums q) - 1) toks out si
              Hsz Hcat ltac:(lia)) as (tok' & Htok' & Hseg).
  assert (Etok : tok' = tok) by congruence.
  destruct Hc as (gsi & Hgsi & Hcontrib & _).
  unfold mask_contribution in Hcontrib.
  rewrite embed_upsample_tokens in Hcontrib.
  destruct (embed_tokens q gsi B (Cvae q) (nth si (v_patch_nums q) 0))
    as [h|] eqn:Eh; [|discriminate].
  cbn [bind] in Hcontrib.
  destruct (interpolate h HW HW bicubic) as [up|] eqn:Eup; [|discriminate].
  cbn [bind] in Hcontrib.
  destruct (refine q si (length (v_patch_nums q)) up) as [r|] eqn:Er; [|discriminate].
  cbn [bind] in Hcontrib.
  rewrite downsample_as_tokens in Hcontrib.
  destruct (interpolate r (nth si (v_patch_nums q) 0) (nth si (v_patch_nums q) 0) area)
    as [h_int|] eqn:Eint; [|discriminate].
  cbn [bind] in Hcontrib.
  pose proof (wf_positive q Hwf) as Hpos. rewrite Forall_forall in Hpos.
  assert (HHW : HW <> 0) by (apply Hpos, last_item_In, Hlast).
  assert (Hpn : nth si (v_patch_nums q) 0 <> 0) by (apply Hpos, nth_In; lia).
  destruct (interpolate_ok f_hat B (Cvae q) HW HW _ _ area Hfs HHW HHW Hpn Hpn)
    as (f_int & Hfint & _).
  exists out, sel, g', h, f_int, h_int.
  split; [exact Hrun|].
  split; [unfold gt_map, getitem; rewrite Hgsi; exact Eh|].
  split.
  - unfold get_next_mask_input. cbn [fst]. rewrite Hlast. cbn [bind].
    apply refine_split in Er. destruct Er as (u & Hu & Hur).
    rewrite Hu. cbn [bind]. rewrite Eup. cbn [bind]. rewrite Hur. cbn [bind].
    assert (Hgp : getitem (v_patch_nums q) si = Ok (nth si (v_patch_nums q) 0))
      by (apply getitem_Ok, nth_error_nth'; lia).
    rewrite Hgp. cbn [bind]. unfold clone. rewrite Hfint. cbn [bind].
    rewrite Eint. reflexivity.
  - rewrite Hseg, Etok. exact Hcontrib.
Qed.

Lemma masked_segment_is_mask_step_contribution_witness :
  exists out sel g' h f_hat_int h_int,
    idxBl_to_mask_input Exact.first_k tt Exact.quantizer3 Exact.gt_a (1 # 2)
    = Ok (out, sel, g') /\
    gt_map Exact.quantizer3 Exact.gt_a 1 2 = Ok h /\
    fst (get_next_mask_input Exact.quantizer3 2
           (length (v_patch_nums Exact.quantizer3))
           (zeros float32 [1; 1; 3; 3]) h)
    = Ok (f_hat_int, h_int) /\
    as_tokens h_int 1 (Cvae Exact.quantizer3)
    = Ok (query_segment Exact.quantizer3 out 2).
Proof.
  apply (masked_segment_is_mask_step_contribution Exact.backend Exact.first_k tt
           Exact.quantizer3 Exact.gt_a (1 # 2) 1 3 (zeros float32 [1; 1; 3; 3]) 2
           first_k_samples quantizer3_well_formed
           ltac:(reflexivity) ltac:(discriminate)
           gt_a_valid ltac:(discriminate) eq_refl
           ltac:(split; reflexivity)).
  simpl. lia.
Defined.

(** X11.  Decoding step by step is [embed_to_fhat].  Given one float32
    code map per scale, of the size of its scale, a decoding run that
    calls [get_next_autoregressive_input] once per scale from an empty
    reconstruction returns, as first outputs, exactly the list
    [embed_to_fhat] returns with every map brought to the largest scale:
    one float32 map of full resolution per scale.  At the last scale
    the step returns the final reconstruction twice, and it is what
    [embed_to_fhat] returns with [last_one] set. *)
Theorem stepwise_decoding_is_embed_to_fhat :
  forall (BE : Backend) (q : VectorQuantizer2) (ms_h_BChw : list tensor)
         (B HW : nat),
    well_formed q -> last_item (v_patch_nums q) = Ok HW ->
    Forall2 (fun pn h => sized4 B (Cvae q) pn pn h) (v_patch_nums q) ms_h_BChw ->
    exists (outs : list (tensor * tensor)) (F : tensor),
      decode_run q (length (v_patch_nums q)) (getitem ms_h_BChw)
        (seq 0 (length (v_patch_nums q))) (zeros float32 [B; Cvae q; HW; HW])
      = Ok outs /\
      length outs = length (v_patch_nums q) /\
      Forall (sized4 B (Cvae q) HW HW) (map fst outs) /\
      embed_to_fhat q ms_h_BChw true false = Ok (FhatList (map fst outs)) /\
      last_item outs = Ok (F, F) /\
      embed_to_fhat q ms_h_BChw true true = Ok (FhatLast F).
Proof.
  intros BE q ms_h B HW Hwf Hlast Hms.
  pose proof (wf_scales q Hwf) as Hsc.
  set (SN := length (v_patch_nums q)) in *.
  destruct (decode_loop_run q B HW ms_h Hwf Hlast Hms SN 0
              (zeros float32 [B; Cvae q; HW; HW]) ltac:(fold SN; lia)
              ltac:(split; reflexivity))
    as (outs & Hdec & Hlen & Hsz & Hnth & Hloop).
  fold SN in Hdec, Hloop.
  assert (Hfa : firstn SN (v_patch_nums q) = v_patch_nums q) by apply firstn_all.
  cbn [skipn] in Hloop. rewrite Hfa in Hloop.
  assert (Hemb : forall last_one,
            embed_to_fhat q ms_h true last_one
            = Ok (after_record last_one (FhatList []) (map fst outs))).
  { intros last_one.
    assert (H0 : exists h0 hs pn0,
              ms_h = h0 :: hs /\ shape h0 = [B; Cvae q; pn0; pn0]).
    { inversion Hms as [E1 E2|pn0 h0 pyr hs [Hs0 _] HF E1 E2].
      - unfold SN in Hsc. rewrite <- E1 in Hsc. simpl in Hsc. lia.
      - eauto. }
    destruct H0 as (h0 & hs & pn0 & -> & Hs0).
    unfold embed_to_fhat, getitem. cbn [nth_error bind]. rewrite Hs0.
    cbn [nth_error bind]. rewrite Hlast. cbn [bind]. unfold enumerate.
    fold SN. rewrite (Hloop last_one (FhatList [])) by eauto. reflexivity. }
  destruct outs as [|o outs']; [simpl in Hlen; lia|].
  set (outs := o :: outs') in *.
  set (olast := last outs' o).
  assert (Hol : last_item outs = Ok olast) by reflexivity.
  assert (Hsame : snd olast = fst olast).
  { assert (Hn : nth_error outs (SN - 1) = Some olast).
    { rewrite <- Hlen. rewrite <- (last_item_nth outs olast o Hol).
      apply nth_error_nth'. simpl. lia. }
    apply (Hnth (SN - 1) olast Hn). lia. }
  exists outs, (fst olast).
  split; [exact Hdec|]. split; [exact Hlen|]. split; [exact Hsz|].
  split; [exact (Hemb false)|].
  split.
  { rewrite Hol. destruct olast as [a b]. simpl in Hsame. subst b. reflexivity. }
  rewrite (Hemb true). unfold after_record.
  pose proof (last_item_map fst outs olast Hol) as Hm.
  cbn [outs map] in Hm |- *. cbn [last_item] in Hm. inversion Hm as [E].
  rewrite E. reflexivity.
Qed.

(** X11 on two scales. *)
Lemma stepwise_decoding_is_embed_to_fhat_witness :
  exists (outs : list (tensor * tensor)) (F : tensor),
    decode_run Exact.quantizer (length (v_patch_nums Exact.quantizer))
      (getitem [Exact.predicted; Exact.empty_f_hat])
      (seq 0 (length (v_patch_nums Exact.quantizer)))
      (zeros float32 [1; Cvae Exact.quantizer; 2; 2])
    = Ok outs /\
    length outs = length (v_patch_nums Exact.quantizer) /\
    Forall (sized4 1 (Cvae Exact.quantizer) 2 2) (map fst outs) /\
    embed_to_fhat Exact.quantizer [Exact.predicted; Exact.empty_f_hat] true false
    = Ok (FhatList (map fst outs)) /\
    last_item outs = Ok (F, F) /\
    embed_to_fhat Exact.quantizer [Exact.predicted; Exact.empty_f_hat] true true
    = Ok (FhatLast F).
Proof.
  apply (stepwise_decoding_is_embed_to_fhat Exact.backend Exact.quantizer
           [Exact.predicted; Exact.empty_f_hat] 1 2 quantizer_well_formed eq_refl).
  repeat constructor.
Defined.

(** X12.  With [all_to_max_scale] off, [embed_to_fhat] follows the
    pyramid: given one float32 code map per scale, of the size of its
    scale, it returns one reconstruction per scale, the one of scale
    [k] at the resolution of scale [k] (not at full resolution); with
    [last_one] set it returns the last of them alone. *)
Theorem embed_to_fhat_follows_the_scales :
  forall (BE : Backend) (q : VectorQuantizer2) (ms_h_BChw : list tensor) (B : nat),
    well_formed q ->
    Forall2 (fun pn h => sized4 B (Cvae q) pn pn h) (v_patch_nums q) ms_h_BChw ->
    exists (fs : list tensor) (F : tensor),
      embed_to_fhat q ms_h_BChw false false = Ok (FhatList fs) /\
      Forall2 (fun pn t => sized4 B (Cvae q) pn pn t) (v_patch_nums q) fs /\
      last_item fs = Ok F /\
      embed_to_fhat q ms_h_BChw false true = Ok (FhatLast F).
Proof.
  intros BE q ms_h B Hwf Hms.
  pose proof (wf_scales q Hwf) as Hsc.
  pose proof (wf_positive q Hwf) as Hpos. rewrite Forall_forall in Hpos.
  set (pn0 := nth 0 (v_patch_nums q) 0).
  assert (Hp0 : pn0 <> 0) by (apply Hpos, nth_In; lia).
  destruct (embed_own_loop_run q B ms_h Hwf Hms (length (v_patch_nums q)) 0 pn0
              (zeros float32 [B; Cvae q; pn0; pn0]) ltac:(lia)
              ltac:(split; reflexivity) Hp0) as (fs & Hfs & Hloop).
  cbn [skipn] in Hfs, Hloop. rewrite firstn_all in Hfs, Hloop.
  assert (Hemb : forall last_one,
            embed_to_fhat q ms_h false last_one
            = Ok (after_record last_one (FhatList []) fs)).
  { intros last_one.
    destruct (Forall2_nth_sized B (Cvae q) _ ms_h 0 Hms ltac:(lia))
      as (h0 & Hget & [Hs0 _]).
    assert (Hlast : exists HW, last_item (v_patch_nums q) = Ok HW).
    { destruct (v_patch_nums q); [simpl in Hsc; lia | eexists; reflexivity]. }
    destruct Hlast as (HW & Hlast).
    assert (HgB : getitem (shape h0) 0 = Ok B) by (rewrite Hs0; reflexivity).
    assert (Hg0 : getitem (v_patch_nums q) 0 = Ok pn0)
      by (apply getitem_Ok, nth_error_nth'; lia).
    unfold embed_to_fhat. rewrite Hget. cbn [bind]. rewrite HgB. cbn [bind].
    rewrite Hlast. cbn [bind]. rewrite Hg0. cbn [bind]. unfold enumerate.
    rewrite (Hloop last_one (FhatList [])) by eauto. reflexivity. }
  destruct fs as [|t ts].
  { apply Forall2_length in Hfs. simpl in Hfs. lia. }
  exists (t :: ts), (last ts t).
  split; [exact (Hemb false)|]. split; [exact Hfs|].
  split; [reflexivity | exact (Hemb true)].
Qed.

(** X12 on two scales. *)
Lemma embed_to_fhat_follows_the_scales_witness :
  exists (fs : list tensor) (F : tensor),
    embed_to_fhat Exact.quantizer [Exact.predicted; Exact.empty_f_hat] false false
    = Ok (FhatList fs) /\
    Forall2 (fun pn t => sized4 1 (Cvae Exact.quantizer) pn pn t)
      (v_patch_nums Exact.quantizer) fs /\
    last_item fs = Ok F /\
    embed_to_fhat Exact.quantizer [Exact.predicted; Exact.empty_f_hat] false true
    = Ok (FhatLast F).
Proof.
  apply (embed_to_fhat_follows_the_scales Exact.backend Exact.quantizer
           [Exact.predicted; Exact.empty_f_hat] 1 quantizer_well_formed).
  repeat constructor.
Defined.

(** X13.  A pyramid needs two scales.  With a pyramid of fewer than two
    scales the position [si / (SN - 1)] of a scale cannot be computed,
    and no entry point returns: [forward], [f_to_idxBl_or_fhat] and
    [embed_to_fhat] fail on every input, and with a single scale both
    decode steps raise [ZeroDivisionError] and leave the running
    reconstruction untouched. *)
Theorem fewer_than_two_scales_never_returns :
  forall (BE : Backend) (q : VectorQuantizer2),
    length (v_patch_nums q) <= 1 ->
    (forall env f_BChw ret_usages,
       is_ok (fst (forward env f_BChw ret_usages q)) = false) /\
    (forall f_BChw to_fhat,
       is_ok (f_to_idxBl_or_fhat q f_BChw to_fhat None) = false) /\
    (forall ms_h_BChw all_to_max_scale last_one,
       is_ok (embed_to_fhat q ms_h_BChw all_to_max_scale last_one) = false) /\
    (forall si f_hat h_BChw,
       length (v_patch_nums q) = 1 ->
       get_next_autoregressive_input q si (length (v_patch_nums q)) f_hat h_BChw
       = (Raise ZeroDivisionError, f_hat) /\
       get_next_mask_input q si (length (v_patch_nums q)) f_hat h_BChw
       = (Raise ZeroDivisionError, f_hat)).
Proof.
  intros BE q Hlen.
  destruct (v_patch_nums q) as [|pn [|pn' pyr]] eqn:Ep; [| |simpl in Hlen; lia].
  - (* no scale at all *)
    split.
    { intros env x r. unfold forward. cbv zeta.
      destruct (shape _) as [|B [|C [|H [|W [|]]]]]; try reflexivity.
      rewrite bindM_self, Ep. cbn [enumerate enumerate_from forward_loop length].
      rewrite bindM_ret. reflexivity. }
    split.
    { intros x to_fhat. unfold f_to_idxBl_or_fhat, pyramid_in_effect. rewrite Ep.
      destruct (shape x) as [|B [|C [|H [|W [|]]]]]; reflexivity. }
    split.
    { intros ms_h a l. unfold embed_to_fhat. rewrite Ep.
      do 2 (apply fails_bind_r; intros ?). reflexivity. }
    intros si f h E. discriminate E.
  - (* a single scale *)
    split.
    { intros env x r. unfold forward. cbv zeta.
      destruct (shape _) as [|B [|C [|H [|W [|]]]]]; try reflexivity.
      rewrite bindM_self, Ep. cbn [enumerate enumerate_from forward_loop length].
      apply fails_bindM_l. apply fails_bindM_l. apply forward_scale_single. }
    split.
    { intros x to_fhat. unfold f_to_idxBl_or_fhat, pyramid_in_effect. rewrite Ep.
      destruct (shape x) as [|B [|C [|H [|W [|]]]]]; try reflexivity.
      cbv zeta. cbn [map patch_hw last_item last bind fst snd length].
      destruct (Nat.eqb pn H && Nat.eqb pn W); [|reflexivity].
      cbn [enumerate enumerate_from f_to_idx_loop].
      pose proof (f_to_idx_scale_single q to_fhat B C H W 0 pn pn
                    (zeros_like (clone (detach x)), clone (detach x))) as Hs.
      destruct (f_to_idx_scale _ _ _ _ _ _ _ _ _ _ _); [discriminate | reflexivity]. }
    split.
    { intros ms_h a l. unfold embed_to_fhat. rewrite Ep.
      do 2 (apply fails_bind_r; intros ?).
      cbn [last_item last bind length enumerate enumerate_from].
      destruct a.
      - cbn [embed_loop].
        pose proof (embed_scale_max_single q ms_h l pn pn 0
                      (zeros float32 [a1; Cvae q; pn; pn], FhatList [])) as Hs.
        destruct (embed_scale_max _ _ _ _ _ _ _ _); [discriminate | reflexivity].
      - cbn [getitem nth_error bind embed_loop].
        pose proof (embed_scale_own_single q ms_h l 0 pn
                      (zeros float32 [a1; Cvae q; pn; pn], FhatList [])) as Hs.
        destruct (embed_scale_own _ _ _ _ _ _ _); [discriminate | reflexivity]. }
    intros si f h _. cbn [length].
    unfold get_next_autoregressive_input, get_next_mask_input. rewrite Ep.
    cbn [last_item last bind]. rewrite lookup_unit_single, refine_single.
    destruct (not_last si 1); split; reflexivity.
Qed.

(** X13 on a module with the single scale 2. *)
Lemma fewer_than_two_scales_never_returns_witness :
  (forall env f_BChw ret_usages,
     is_ok (fst (forward env f_BChw ret_usages single_scale_quantizer)) = false) /\
  (forall f_BChw to_fhat,
     is_ok (f_to_idxBl_or_fhat single_scale_quantizer f_BChw to_fhat None) = false) /\
  (forall ms_h_BChw all_to_max_scale last_one,
     is_ok (embed_to_fhat single_scale_quantizer ms_h_BChw all_to_max_scale last_one)
     = false) /\
  (forall si f_hat h_BChw,
     length (v_patch_nums single_scale_quantizer) = 1 ->
     get_next_autoregressive_input single_scale_quantizer si
       (length (v_patch_nums single_scale_quantizer)) f_hat h_BChw
     = (Raise ZeroDivisionError, f_hat) /\
     get_next_mask_input single_scale_quantizer si
       (length (v_patch_nums single_scale_quantizer)) f_hat h_BChw
     = (Raise ZeroDivisionError, f_hat)).
Proof.
  apply (fewer_than_two_scales_never_returns Exact.backend single_scale_quantizer).
  simpl. lia.
Defined.

(** X14.  What [__init__] builds.  Let [K] be the number of refinement
    units asked for: [share_quant_resi], or, when that is 0, the number
    [default_qresi_counts], or, when that is 0 too, the number of
    scales.  With [K = 0] (no sharing, no count, no scale) the
    constructor raises [ZeroDivisionError] while placing the ticks.
    Otherwise it returns a module in training mode whose histogram
    holds one row of [vocab_size] zeros per scale, whose counter is 0,
    and whose policy is the non-shared one for [share_quant_resi = 0],
    the fully shared one (a single unit) for 1, the partially shared
    one beyond; every unit is the identity when [|quant_resi| <= 1e-6]
    and a [Phi] of ratio [|quant_resi|] on [Cvae] channels otherwise. *)
Theorem init_policy_and_statistics :
  forall (BE : Backend) (V C : nat) (znorm : bool) (b : Q) (cnt : nat)
         (pyramid : list nat) (r : Q) (share : nat)
         (conv_init : nat -> conv_weight) (emb : list (list scalar)),
    let K := if Nat.eqb share 0
             then (if Nat.eqb cnt 0 then length pyramid else cnt)
             else share in
    let unit_at i := if Qle_bool (Qabs r) (1 # 1000000) then Identity
                     else Phi (conv_init i) C (Qabs r) in
    (K = 0 ->
     VectorQuantizer2_init V C znorm b cnt pyramid r share conv_init emb
     = Raise ZeroDivisionError) /\
    (K <> 0 ->
     exists q,
       VectorQuantizer2_init V C znorm b cnt pyramid r share conv_init emb = Ok q /\
       units_of (quant_resi q) = map unit_at (seq 0 K) /\
       match quant_resi q with
       | NonShared p => share = 0 /\ length (ns_ticks p) = K
       | Shared _ => share = 1
       | PartiallyShared p => 2 <= share /\ length (ticks p) = K
       end /\
       ema_vocab_hit_SV q = repeat (repeat (lit 0%Q) V) (length pyramid) /\
       record_hit q = 0 /\ training q = true /\
       vocab_size q = V /\ Cvae q = C /\ using_znorm q = znorm /\
       v_patch_nums q = pyramid /\ quant_resi_ratio q = r /\ beta q = b /\
       embedding q = emb).
Proof.
  intros BE V C znorm b cnt pyr r share conv_init emb K unit_at.
  assert (Hu : forall i, make_unit (conv_init i) C r = unit_at i).
  { intros i. unfold make_unit, unit_at, Np.Qltb, Phi_init.
    destruct (Qle_bool (Qabs r) (1 # 1000000)); reflexivity. }
  assert (Hmap : forall l,
            map (fun i => make_unit (conv_init i) C r) l = map unit_at l).
  { intros l. apply map_ext. exact Hu. }
  unfold VectorQuantizer2_init. cbv zeta. rewrite Hu.
  split.
  - intros HK. unfold K in HK.
    destruct (Nat.eqb_spec share 0) as [Es|Es]; [|contradiction].
    unfold PhiNonShared_init. rewrite length_map, length_seq, HK. reflexivity.
  - intros HK. unfold K in *.
    destruct (Nat.eqb_spec share 0) as [Es|Es].
    + set (count := if Nat.eqb cnt 0 then length pyr else cnt) in *.
      destruct (make_ticks_closed_form count HK) as (tk & Htk & Hlen & _).
      unfold PhiNonShared_init. rewrite length_map, length_seq, Htk. cbn [bind].
      eexists. split; [reflexivity|]. cbn -[unit_at].
      rewrite Hmap. repeat split; auto.
    + destruct (Nat.eqb_spec share 1) as [E1|E1].
      * eexists. split; [reflexivity|]. subst share. cbn -[unit_at].
        repeat split; auto.
      * destruct (make_ticks_closed_form share HK) as (tk & Htk & Hlen & _).
        unfold PhiPartiallyShared_init. rewrite length_map, length_seq, Htk.
        cbn [bind].
        eexists. split; [reflexivity|]. cbn -[unit_at].
        rewrite Hmap. repeat split; auto. lia.
Qed.

(** X14 for the default sharing of four units over two scales, and for
    a non-shared module without scales. *)
Lemma init_policy_and_statistics_witness :
  (exists q,
     VectorQuantizer2_init 2 1 false (1 # 4) 0 [1; 2] (1 # 2) 4
       (fun _ => Exact.blur) Exact.codes = Ok q /\
     length (units_of (quant_resi q)) = 4 /\ record_hit q = 0) /\
  VectorQuantizer2_init 2 1 false (1 # 4) 0 [] (1 # 2) 0
    (fun _ => Exact.blur) Exact.codes = Raise ZeroDivisionError.
Proof.
  split.
  - destruct (init_policy_and_statistics Exact.backend 2 1 false (1 # 4) 0 [1; 2]
                (1 # 2) 4 (fun _ => Exact.blur) Exact.codes) as [_ H].
    destruct (H ltac:(discriminate)) as (q & Hq & Hunits & _ & _ & Hrec & _).
    exists q. split; [exact Hq|]. split; [|exact Hrec].
    rewrite Hunits. reflexivity.
  - apply (init_policy_and_statistics Exact.backend 2 1 false (1 # 4) 0 []
             (1 # 2) 0 (fun _ => Exact.blur) Exact.codes).
    reflexivity.
Defined.

(** X15.  Without sharing every scale has its own unit.  In a module
    built with [share_quant_resi = 0] and no [default_qresi_counts],
    over a pyramid of at least two scales, the lookup
    [quant_resi[si / (SN - 1)]] made for scale [si] of the [SN] scales
    returns the unit of index [si]: the nearest tick is never a
    neighbour's, ties included. *)
Theorem non_shared_scale_has_its_own_unit :
  forall (BE : Backend) (V C : nat) (znorm : bool) (b : Q)
         (pyramid : list nat) (r : Q)
         (conv_init : nat -> conv_weight) (emb : list (list scalar))
         (q : VectorQuantizer2) (si : nat),
    2 <= length pyramid ->
    VectorQuantizer2_init V C znorm b 0 pyramid r 0 conv_init emb = Ok q ->
    si < length pyramid ->
    lookup_unit q si (length pyramid) = Ok (make_unit (conv_init si) C r).
Proof.
  intros BE V C znorm b pyr r conv_init emb q si Hlen Hinit Hsi.
  unfold VectorQuantizer2_init in Hinit. cbv zeta in Hinit.
  cbn [Nat.eqb] in Hinit. unfold PhiNonShared_init in Hinit.
  rewrite length_map, length_seq in Hinit.
  destruct (make_ticks (length pyr)) as [tk|] eqn:Etk; [|discriminate].
  cbn [bind] in Hinit. inversion Hinit; subst q. clear Hinit.
  unfold lookup_unit, scale_position, truediv. cbn [quant_resi].
  assert (Hnz : Qeq_bool (inject_Z (Z.of_nat (length pyr) - 1)) 0 = false).
  { destruct (Qeq_bool _ _) eqn:E; [|reflexivity].
    apply Qeq_bool_iff in E. unfold Qeq in E. simpl in E. lia. }
  rewrite Hnz. cbn [bind quant_resi_getitem].
  unfold PhiNonShared_getitem. cbn [ns_ticks ns_modules].
  rewrite (nearest_tick_own (length pyr) si tk Hlen Hsi Etk). cbn [bind].
  apply getitem_Ok.
  rewrite nth_error_map, nth_error_seq.
  destruct (Nat.ltb_spec si (length pyr)); [reflexivity | lia].
Qed.

(** X15 on three scales. *)
Lemma non_shared_scale_has_its_own_unit_witness :
  exists q,
    VectorQuantizer2_init 2 1 false (1 # 4) 0 [1; 2; 3] (1 # 2) 0
      (fun _ => Exact.blur) Exact.codes = Ok q /\
    lookup_unit q 1 3 = Ok (make_unit Exact.blur 1 (1 # 2)).
Proof.
  eexists. split; [reflexivity|].
  apply (non_shared_scale_has_its_own_unit Exact.backend 2 1 false (1 # 4)
           [1; 2; 3] (1 # 2) (fun _ => Exact.blur) Exact.codes _ 1);
    [simpl; lia | reflexivity | simpl; lia].
Defined.

(** X16.  Shared units follow the scales.  For [share_quant_resi >= 2]
    units and a pyramid of [SN >= 2] scales there is one assignment of
    units to scales, fixed by the two numbers alone, that every module
    built with them uses in its lookup [quant_resi[si / (SN - 1)]]: the
    first scale is served by the first unit, the last scale by the last
    unit, and a later scale never by an earlier unit than a scale
    before it. *)
Theorem partially_shared_units_follow_the_scales :
  forall (share SN : nat),
    2 <= share -> 2 <= SN ->
    exists unit_of : nat -> nat,
      unit_of 0 = 0 /\
      unit_of (SN - 1) = share - 1 /\
      (forall si sj, si <= sj -> sj < SN -> unit_of si <= unit_of sj) /\
      (forall si, si < SN -> unit_of si < share) /\
      forall (BE : Backend) (V C : nat) (znorm : bool) (b : Q) (cnt : nat)
             (pyramid : list nat) (r : Q)
             (conv_init : nat -> conv_weight) (emb : list (list scalar))
             (q : VectorQuantizer2) (si : nat),
        length pyramid = SN ->
        VectorQuantizer2_init V C znorm b cnt pyramid r share conv_init emb = Ok q ->
        si < SN ->
        lookup_unit q si SN = Ok (make_unit (conv_init (unit_of si)) C r).
Proof.
  intros share SN Hshare Hlen.
  destruct (make_ticks_closed_form share ltac:(lia)) as (tk & Etk & _).
  destruct (ticks_increasing share tk Hshare Etk) as (Htl & Hin & Hinc).
  assert (Hne : tk <> []) by (destruct tk; [simpl in Htl; lia | discriminate]).
  set (d := inject_Z (Z.of_nat SN - 1)).
  assert (Hd : (0 < d)%Q).
  { unfold d. replace 0%Q with (inject_Z 0) by reflexivity.
    rewrite <- Zlt_Qlt. lia. }
  set (pos := fun si : nat => (Qnat si / d)%Q).
  set (unit_of := fun si : nat =>
                    match nearest_tick tk (pos si) with Ok i => i | Raise _ => 0 end).
  assert (Hnear : forall si, exists i,
            nearest_tick tk (pos si) = Ok i /\ i < share /\ unit_of si = i).
  { intros si. destruct (nearest_tick_bound tk (pos si) Hne) as (i & Hi & Hb).
    exists i. split; [exact Hi|]. split; [lia|]. unfold unit_of. rewrite Hi.
    reflexivity. }
  assert (Hinc' : forall i j, i < j -> j < length tk ->
                    (nth i tk 0 < nth j tk 0)%Q).
  { intros i j Hij Hj. apply Hinc; lia. }
  destruct (nearest_tick_ends tk (pos 0) Hne Hinc') as [Hfirst _].
  destruct (nearest_tick_ends tk (pos (SN - 1)) Hne Hinc') as [_ Hlast].
  exists unit_of.
  split.
  { unfold unit_of. rewrite Hfirst; [reflexivity|].
    destruct (Hin 0 ltac:(lia)) as [Hp _].
    assert (E : (pos 0%nat == 0)%Q) by (unfold pos, Qnat; simpl; field; lra).
    rewrite E. lra. }
  split.
  { unfold unit_of. rewrite Hlast; [rewrite Htl; reflexivity|].
    rewrite Htl. destruct (Hin (share - 1) ltac:(lia)) as [_ Hp].
    assert (E : (pos (SN - 1)%nat == 1)%Q).
    { unfold pos. rewrite Qnat_pred by lia.
      assert (Ed : (d == Qnat SN - 1)%Q).
      { unfold d, Qnat, Z.sub. rewrite inject_Z_plus, inject_Z_opp. reflexivity. }
      rewrite <- Ed. field. lra. }
    rewrite E. lra. }
  split.
  { intros si sj Hij Hsj.
    destruct (Hnear si) as (i & Hi & _ & Hui).
    destruct (Hnear sj) as (j & Hj & _ & Huj).
    rewrite Hui, Huj.
    apply (nearest_tick_monotone tk (pos si) (pos sj) i j Hinc');
      [|exact Hi | exact Hj].
    unfold pos. apply Qmult_le_r; [apply Qinv_lt_0_compat; exact Hd|].
    apply Qnat_le. exact Hij. }
  split.
  { intros si _. destruct (Hnear si) as (i & _ & Hb & Hu). lia. }
  intros BE V C znorm b cnt pyr r conv_init emb q si Hpyr Hinit Hsi.
  unfold VectorQuantizer2_init in Hinit. cbv zeta in Hinit.
  destruct (Nat.eqb_spec share 0) as [E0|_]; [lia|].
  destruct (Nat.eqb_spec share 1) as [E1|_]; [lia|].
  unfold PhiPartiallyShared_init in Hinit.
  rewrite length_map, length_seq, Etk in Hinit.
  cbn [bind] in Hinit. inversion Hinit; subst q. clear Hinit.
  destruct (Hnear si) as (i & Hi & Hb & Hu).
  rewrite Hu.
  unfold lookup_unit, scale_position, truediv. fold d.
  assert (Hnz : Qeq_bool d 0 = false).
  { destruct (Qeq_bool d 0) eqn:E; [|reflexivity].
    apply Qeq_bool_iff in E. rewrite E in Hd. discriminate Hd. }
  rewrite Hnz. cbn [bind quant_resi quant_resi_getitem].
  unfold PhiPartiallyShared_getitem. cbn [ticks qresi_ls].
  fold (pos si). rewrite Hi. cbn [bind].
  apply getitem_Ok. rewrite nth_error_map, nth_error_seq.
  destruct (Nat.ltb_spec i share); [reflexivity | lia].
Qed.

(** X16 for the default sharing of four units, over three scales. *)
Lemma partially_shared_units_follow_the_scales_witness :
  exists unit_of : nat -> nat,
    unit_of 0 = 0 /\
    unit_of (3 - 1) = 4 - 1 /\
    (forall si sj, si <= sj -> sj < 3 -> unit_of si <= unit_of sj) /\
    (forall si, si < 3 -> unit_of si < 4) /\
    forall (BE : Backend) (V C : nat) (znorm : bool) (b : Q) (cnt : nat)
           (pyramid : list nat) (r : Q)
           (conv_init : nat -> conv_weight) (emb : list (list scalar))
           (q : VectorQuantizer2) (si : nat),
      length pyramid = 3 ->
      VectorQuantizer2_init V C znorm b cnt pyramid r 4 conv_init emb = Ok q ->
      si < 3 ->
      lookup_unit q si 3 = Ok (make_unit (conv_init (unit_of si)) C r).
Proof.
  apply (partially_shared_units_follow_the_scales 4 3); lia.
Defined.

(** X17.  The flag [ret_usages] only adds the utilizations.  Whenever
    [forward] returns with [ret_usages=True], it returns the same
    reconstruction, the same loss and the same module with
    [ret_usages=False], with [None] for the utilizations.  On a valid
    input of a well-formed module the call returns one utilization per
    scale, each a percentage [k / vocab_size * 100] for a count
    [k <= vocab_size] of codes, hence between 0 and 100. *)
Theorem usages_are_percentages_on_request :
  forall (BE : Backend) (env : DistEnv) (q : VectorQuantizer2) (f_BChw : tensor),
    (forall out us loss q',
        forward env f_BChw true q = (Ok (out, us, loss), q') ->
        forward env f_BChw false q = (Ok (out, None, loss), q')) /\
    (forall ws B HW,
        well_formed q -> env_ready env ws -> valid_input q f_BChw B HW ->
        exists out usages loss q',
          forward env f_BChw true q = (Ok (out, Some usages, loss), q') /\
          length usages = length (v_patch_nums q) /\
          Forall (fun u =>
                    exists k : nat,
                      k <= vocab_size q /\
                      (u == Qnat k / Qnat (vocab_size q) * 100)%Q /\
                      (0 <= u)%Q /\ (u <= 100)%Q) usages).
Proof.
  intros BE env q x. split.
  { intros out us loss q' E. apply (forward_without_usages env x q q' out us loss E). }
  intros ws B HW Hwf Henv Hvalid.
  destruct (forward_ok env ws q x B HW true Hwf Henv Hvalid)
    as (st & q' & out & loss & _ & Hfw & _ & _ & _ & _ & _ & Hsame & Hwf' & _).
  cbn [andb] in Hfw.
  destruct (wf_ema _ Hwf') as [Hrows Hrow].
  assert (Hpn : v_patch_nums q' = v_patch_nums q)
    by (destruct Hsame as (e & n & ->); reflexivity).
  assert (HV : vocab_size q' = vocab_size q)
    by (destruct Hsame as (e & n & ->); reflexivity).
  rewrite Hpn in Hrows. rewrite HV in Hrow.
  eexists out, _, loss, q'. split; [exact Hfw|].
  split; [rewrite length_map; exact Hrows|].
  apply Forall_map. apply (Forall_impl _ (P := fun row => length row = vocab_size q));
    [|exact Hrow].
  intros row Hl.
  assert (Hne : row <> []).
  { intros ->. simpl in Hl. apply (wf_vocab _ Hwf). symmetry. exact Hl. }
  destruct (usage_percent_range row
              (margin_of ws B (Cvae q) HW HW (vocab_size q)) Hne)
    as (k & Hk & Eu & H0 & H1).
  rewrite Hl in Hk, Eu. exists k. auto.
Qed.

(** X17 on a batch of two 2x2 maps. *)
Lemma usages_are_percentages_on_request_witness :
  exists out usages loss q',
    forward Exact.single_rank Exact.pair true Exact.plain_quantizer
    = (Ok (out, Some usages, loss), q') /\
    forward Exact.single_rank Exact.pair false Exact.plain_quantizer
    = (Ok (out, None, loss), q') /\
    length usages = length (v_patch_nums Exact.plain_quantizer) /\
    Forall (fun u => (0 <= u)%Q /\ (u <= 100)%Q) usages.
Proof.
  destruct (usages_are_percentages_on_request Exact.backend Exact.single_rank
              Exact.plain_quantizer Exact.pair) as [Hflag Hret].
  destruct (Hret 1 2 2 plain_quantizer_well_formed single_rank_ready pair_valid)
    as (out & us & loss & q' & Hfw & Hlen & Hall).
  exists out, us, loss, q'.
  split; [exact Hfw|]. split; [exact (Hflag _ _ _ _ Hfw)|]. split; [exact Hlen|].
  apply (Forall_impl _ (P := fun u =>
           exists k : nat,
             k <= vocab_size Exact.plain_quantizer /\
             (u == Qnat k / Qnat (vocab_size Exact.plain_quantizer) * 100)%Q /\
             (0 <= u)%Q /\ (u <= 100)%Q)); [|exact Hall].
  intros u (k & _ & _ & H0 & H1). split; assumption.
Defined.
